(** * The asynchronous work bridge of the N-API C++ wrapper (src/napi-inl.h)

    A shallow embedding of the classes the background work unit is built
    from: [Value], [HandleScope], [EscapableHandleScope], [Error],
    [Reference<T>] with [Weak] / [Persistent], [FunctionReference] and
    [AsyncWorker].

    The host runtime is a black box behind a C ABI.  Every ABI call is an
    event; the host answers it with a status code and, when the status is
    [napi_ok], an out-value.  C++ exceptions, failed assertions and object
    state are made explicit by a small state/exception/trace monad. *)

From stdpp Require Import gmap strings list.

Open Scope string_scope.
Open Scope N_scope.
Open Scope list_scope.

(** ** Handles and status codes of the host ABI *)

(** Every handle of the C ABI ([napi_env], [napi_value], [napi_ref], ...)
    is an opaque pointer; [0] is [nullptr]. *)
Definition ptr := N.
Definition nullptr : ptr := 0.

Abbreviation napi_env := ptr (only parsing).
Abbreviation napi_value := ptr (only parsing).
Abbreviation napi_ref := ptr (only parsing).
Abbreviation napi_handle_scope := ptr (only parsing).
Abbreviation napi_escapable_handle_scope := ptr (only parsing).
Abbreviation napi_async_work := ptr (only parsing).

Definition is_null (p : ptr) : bool := N.eqb p nullptr.

(** The status codes of the host's [napi_status] enumeration. *)
Inductive napi_status :=
| napi_ok
| napi_invalid_arg
| napi_object_expected
| napi_string_expected
| napi_name_expected
| napi_function_expected
| napi_number_expected
| napi_boolean_expected
| napi_array_expected
| napi_generic_failure
| napi_pending_exception
| napi_cancelled
| napi_status_last.

#[global] Instance napi_status_eq_dec : EqDecision napi_status.
Proof. solve_decision. Defined.

Definition status_ok (s : napi_status) : bool := bool_decide (s = napi_ok).

(** [napi_extended_error_info], as far as [Error::New(env)] reads it. *)
Record napi_extended_error_info := {
  error_message : option string;   (* [nullptr] is [None] *)
  error_code : napi_status
}.

(** The ABI calls that the modelled classes make.  [napi_make_callback]
    carries the argument array as a list ([argc] is its length);
    [napi_create_async_work] is always given the two static entry points
    [OnExecute] and [OnWorkComplete], so only the [this] pointer is kept. *)
Inductive HostCall :=
| napi_open_handle_scope (env : napi_env)
| napi_close_handle_scope (env : napi_env) (scope : napi_handle_scope)
| napi_open_escapable_handle_scope (env : napi_env)
| napi_close_escapable_handle_scope (env : napi_env) (scope : napi_escapable_handle_scope)
| napi_escape_handle (env : napi_env) (scope : napi_escapable_handle_scope) (escapee : napi_value)
| napi_create_reference (env : napi_env) (value : napi_value) (initial_refcount : N)
| napi_delete_reference (env : napi_env) (ref : napi_ref)
| napi_get_reference_value (env : napi_env) (ref : napi_ref)
| napi_create_object (env : napi_env)
| napi_create_string_utf8 (env : napi_env) (str : string) (length : N)
| napi_create_error (env : napi_env) (msg : napi_value)
| napi_create_type_error (env : napi_env) (msg : napi_value)
| napi_get_last_error_info (env : napi_env)
| napi_get_and_clear_last_exception (env : napi_env)
| napi_throw (env : napi_env) (error : napi_value)
| napi_make_callback (env : napi_env) (recv : napi_value) (func : napi_value) (argv : list napi_value)
| napi_create_async_work (env : napi_env) (data : ptr)
| napi_queue_async_work (env : napi_env) (work : napi_async_work)
| napi_cancel_async_work (env : napi_env) (work : napi_async_work)
| napi_delete_async_work (env : napi_env) (work : napi_async_work).

#[global] Instance HostCall_eq_dec : EqDecision HostCall.
Proof. solve_decision. Defined.

(** What the host hands back: the status, the value it wrote through the
    out-pointer and, for [napi_get_last_error_info], the error record.
    The out-value is only read by the code after a [napi_ok]. *)
Record Reply := {
  status : napi_status;
  out : ptr;
  info : napi_extended_error_info
}.

Record HostEv := { ev_call : HostCall; ev_reply : Reply }.

Definition accepted (e : HostEv) : Prop := status (ev_reply e) = napi_ok.

#[global] Instance accepted_dec (e : HostEv) : Decision (accepted e).
Proof. unfold accepted. apply _. Defined.

(** The platform the header is compiled for and runs on.
    - [host] answers a call, knowing every earlier call and answer
      (the latest first);
    - [ndebug] tells whether [assert] is compiled out ([<cassert>]);
    - [indeterminate] is the value read from a [bool] member that no
      constructor initialiser mentions (the class declarations live in
      napi.h, which is not part of the sources at hand). *)
Record Platform := {
  host : list HostEv -> HostCall -> Reply;
  ndebug : bool;
  indeterminate : list HostEv -> bool
}.

(** ** Object layouts *)

Module Value.
(** [Napi::Value] and its subclasses [Object] and [Function]. *)
Record t := mk { _env : napi_env; _value : napi_value }.
End Value.

Module Reference.
(** [Napi::Reference<T>], also [ObjectReference] and [FunctionReference]. *)
Record t := mk { _env : napi_env; _ref : napi_ref; _suppressDestruct : bool }.
Definition set_env (e : napi_env) (r : t) : t := mk e (_ref r) (_suppressDestruct r).
Definition set_ref (p : napi_ref) (r : t) : t := mk (_env r) p (_suppressDestruct r).
Definition set_suppressDestruct (b : bool) (r : t) : t := mk (_env r) (_ref r) b.
End Reference.

Module Error.
(** [Napi::Error]: an [ObjectReference] with a cached message. *)
Record t := mk { base : Reference.t; _message : string }.
End Error.

(** ** Exceptions and outcomes *)

(** A C++ exception in flight.  An exception object derived from
    [std::exception] other than [Napi::Error] is represented by the text
    its [what()] returns. *)
Inductive exn :=
| ExnError (e : Error.t)
| ExnStd (what : string)
| ExnOther.

Inductive Res (A : Type) :=
| Ok (a : A)
| Throw (x : exn)
| Abort.
Arguments Ok {A} a.
Arguments Throw {A} x.
Arguments Abort {A}.

Definition returned {A} (r : Res A) : bool :=
  match r with Ok _ => true | _ => false end.

(** ** The monad: state [S], exceptions, and an append-only trace of [E] *)

Record Out (E S A : Type) := mkOut { res : Res A; st : S; emitted : list E }.
Arguments mkOut {E S A} res st emitted.
Arguments res {E S A} o.
Arguments st {E S A} o.
Arguments emitted {E S A} o.

(** A computation sees the history so far, latest event first, and the
    current state; it returns what it emitted, in the order of emission. *)
Definition M (E S A : Type) : Type := list E -> S -> Out E S A.

Record Lens (S T : Type) := mkLens { view : S -> T; update : T -> S -> S }.
Arguments mkLens {S T} view update.
Arguments view {S T} l s.
Arguments update {S T} l t s.

Definition lens_id {S} : Lens S S := mkLens (fun s => s) (fun t _ => t).

(** [o] with [l] emitted before it. *)
Definition prepend {E S A} (l : list E) (o : Out E S A) : Out E S A :=
  match o with mkOut r s l' => mkOut r s (l ++ l') end.

Section MonadOps.
Context {E S : Type}.

Definition ret {A} (a : A) : M E S A := fun _ s => mkOut (Ok a) s [].

Definition bind {A B} (m : M E S A) (f : A -> M E S B) : M E S B :=
  fun h s =>
    match m h s with
    | mkOut (Ok a) s1 l1 => prepend l1 (f a (rev l1 ++ h) s1)
    | mkOut (Throw x) s1 l1 => mkOut (Throw x) s1 l1
    | mkOut Abort s1 l1 => mkOut Abort s1 l1
    end.

Definition throw {A} (x : exn) : M E S A := fun _ s => mkOut (Throw x) s [].
Definition abort {A} : M E S A := fun _ s => mkOut Abort s [].

Definition get : M E S S := fun _ s => mkOut (Ok s) s [].
Definition gets {A} (f : S -> A) : M E S A := fun _ s => mkOut (Ok (f s)) s [].
Definition put (s : S) : M E S unit := fun _ _ => mkOut (Ok tt) s [].
Definition modify (f : S -> S) : M E S unit := fun _ s => mkOut (Ok tt) (f s) [].
Definition emit (e : E) : M E S unit := fun _ s => mkOut (Ok tt) s [e].

(** [try { m } catch (...) { handler }]: [handler x] is [None] when no
    catch clause matches [x]. *)
Definition try_catch {A} (m : M E S A) (handler : exn -> option (M E S A)) : M E S A :=
  fun h s =>
    match m h s with
    | mkOut (Throw x) s1 l1 =>
        match handler x with
        | Some k => prepend l1 (k (rev l1 ++ h) s1)
        | None => mkOut (Throw x) s1 l1
        end
    | o => o
    end.

(** The outcome of a scope whose body ended with [r] and whose
    destructors ended with [r']. *)
Definition after_cleanup {A} (r : Res A) (r' : Res unit) : Res A :=
  match r' with
  | Ok _ => r
  | Throw x => Throw x
  | Abort => Abort
  end.

(** Scope exit: [cleanup] (a destructor) runs when [m] returns and when
    an exception leaves [m]; it does not run when the process aborts. *)
Definition finally {A} (m : M E S A) (cleanup : M E S unit) : M E S A :=
  fun h s =>
    match m h s with
    | mkOut Abort s1 l1 => mkOut Abort s1 l1
    | mkOut r s1 l1 =>
        match cleanup (rev l1 ++ h) s1 with
        | mkOut r' s2 l2 => mkOut (after_cleanup r r') s2 (l1 ++ l2)
        end
    end.

(** Run a computation on a part of the state. *)
Definition zoom {T A} (l : Lens S T) (m : M E T A) : M E S A :=
  fun h s =>
    match m h (view l s) with
    | mkOut r t l1 => mkOut r (update l t s) l1
    end.
End MonadOps.

(** stdpp's monad interface gives the notations [x ← m; k] and [m;; k]. *)
#[global] Instance M_ret {E S} : MRet (M E S) := fun A a => ret a.
#[global] Instance M_bind {E S} : MBind (M E S) := fun A B f m => bind m f.

Definition modify_at {E S T} (l : Lens S T) (f : T -> T) : M E S unit :=
  modify (fun s => update l (f (view l s)) s).

(** Run a computation on a local object (a temporary) and drop the object. *)
Definition on_temp {E S T A} (t : T) (m : M E T A) : M E S A :=
  fun h s => match m h t with mkOut r _ l => mkOut r s l end.

(** ** Scoped-handle guards *)

Module HandleScope.
Record t := mk { _env : napi_env; _scope : napi_handle_scope }.
End HandleScope.

Module EscapableHandleScope.
Record t := mk { _env : napi_env; _scope : napi_escapable_handle_scope }.
End EscapableHandleScope.

Module AsyncWorker.
(** [Napi::AsyncWorker]: the background work unit. *)
Record t := mk {
  _env : napi_env;
  _work : napi_async_work;
  _receiver : Reference.t;
  _callback : Reference.t;
  _error : string
}.
Definition set_env (e : napi_env) (w : t) : t :=
  mk e (_work w) (_receiver w) (_callback w) (_error w).
Definition set_work (p : napi_async_work) (w : t) : t :=
  mk (_env w) p (_receiver w) (_callback w) (_error w).
Definition set_receiver (r : Reference.t) (w : t) : t :=
  mk (_env w) (_work w) r (_callback w) (_error w).
Definition set_callback (r : Reference.t) (w : t) : t :=
  mk (_env w) (_work w) (_receiver w) r (_error w).
Definition set_error (e : string) (w : t) : t :=
  mk (_env w) (_work w) (_receiver w) (_callback w) e.

Definition receiver : Lens t Reference.t := mkLens _receiver set_receiver.
Definition callback : Lens t Reference.t := mkLens _callback set_callback.
End AsyncWorker.

Definition lens_compose {S T U} (l : Lens S T) (k : Lens T U) : Lens S U :=
  mkLens (fun s => view k (view l s)) (fun u s => update l (update k u (view l s)) s).

Section Wrapper.
Context (P : Platform).

(** One call through the C ABI: ask the host, record call and answer. *)
Definition call {S} (c : HostCall) : M HostEv S Reply :=
  fun h s => mkOut (Ok (host P h c)) s [Build_HostEv c (host P h c)].

(** Reading a member that was never written. *)
Definition uninitialised {S} : M HostEv S bool :=
  fun h s => mkOut (Ok (indeterminate P h)) s [].

(** [assert(b)] from [<cassert>]. *)
Definition assert {S} (b : bool) : M HostEv S unit :=
  if b || ndebug P then ret tt else abort.

(** *** Error *)

(** [Error::Error(napi_env env, napi_value value)
      : ObjectReference(env, nullptr)].  The base constructor is
    [Reference<Object>(env, ref)], which leaves [_suppressDestruct]
    unmentioned.  A rejected [napi_create_reference] leaves [_ref] as
    it was. *)
Definition Error_ctor {S} (env : napi_env) (value : napi_value) : M HostEv S Error.t :=
  b ← uninitialised;
  if is_null value then ret (Error.mk (Reference.mk env nullptr b) "")
  else
    r ← call (napi_create_reference env value 1);
    assert (status_ok (status r));;
    ret (Error.mk
           (Reference.mk env (if status_ok (status r) then out r else nullptr) b) "").

(** [Error::New(napi_env env)]: translate the host's last error. *)
Definition Error_New {S} (env : napi_env) : M HostEv S Error.t :=
  r ← call (napi_get_last_error_info env);
  assert (status_ok (status r));;
  error ←
    (if status_ok (status r) then
       if bool_decide (error_code (info r) = napi_pending_exception) then
         r1 ← call (napi_get_and_clear_last_exception env);
         assert (status_ok (status r1));;
         ret (if status_ok (status r1) then out r1 else nullptr)
       else
         let error_message :=
           match error_message (info r) with
           | Some m => m
           | None => "Error in native callback"
           end in
         r2 ← call (napi_create_string_utf8 env error_message
                      (N.of_nat (String.length error_message)));
         assert (status_ok (status r2));;
         if status_ok (status r2) then
           r3 ← call (match error_code (info r) with
                      | napi_object_expected
                      | napi_string_expected
                      | napi_boolean_expected
                      | napi_number_expected => napi_create_type_error env (out r2)
                      | _ => napi_create_error env (out r2)
                      end);
           assert (status_ok (status r3));;
           ret (if status_ok (status r3) then out r3 else nullptr)
         else ret nullptr
     else ret nullptr);
  Error_ctor env error.

(** [throw Error::New(env)] *)
Definition throw_Error_New {S A} (env : napi_env) : M HostEv S A :=
  e ← Error_New env; throw (ExnError e).

(** [Error::New(napi_env env, const std::string& message)], through
    [Error::New<Error>(env, message.c_str(), message.size(), napi_create_error)]. *)
Definition Error_New_message {S} (env : napi_env) (message : string) : M HostEv S Error.t :=
  r ← call (napi_create_string_utf8 env message (N.of_nat (String.length message)));
  if negb (status_ok (status r)) then throw_Error_New env
  else
    r' ← call (napi_create_error env (out r));
    if negb (status_ok (status r')) then throw_Error_New env
    else Error_ctor env (out r').

(** *** HandleScope and EscapableHandleScope *)

Definition HandleScope_ctor {S} (env : napi_env) : M HostEv S HandleScope.t :=
  r ← call (napi_open_handle_scope env);
  if negb (status_ok (status r)) then throw_Error_New env
  else ret (HandleScope.mk env (out r)).

Definition HandleScope_dtor {S} (scope : HandleScope.t) : M HostEv S unit :=
  call (napi_close_handle_scope (HandleScope._env scope) (HandleScope._scope scope));;
  ret tt.

(** [{ HandleScope scope(env); body }] *)
Definition with_HandleScope {S A} (env : napi_env) (body : M HostEv S A) : M HostEv S A :=
  scope ← HandleScope_ctor env;
  finally body (HandleScope_dtor scope).

Definition EscapableHandleScope_ctor {S} (env : napi_env) : M HostEv S EscapableHandleScope.t :=
  r ← call (napi_open_escapable_handle_scope env);
  if negb (status_ok (status r)) then throw_Error_New env
  else ret (EscapableHandleScope.mk env (out r)).

Definition EscapableHandleScope_dtor {S} (scope : EscapableHandleScope.t) : M HostEv S unit :=
  call (napi_close_escapable_handle_scope
          (EscapableHandleScope._env scope) (EscapableHandleScope._scope scope));;
  ret tt.

Definition EscapableHandleScope_Escape {S} (scope : EscapableHandleScope.t)
    (escapee : napi_value) : M HostEv S Value.t :=
  r ← call (napi_escape_handle (EscapableHandleScope._env scope)
              (EscapableHandleScope._scope scope) escapee);
  if negb (status_ok (status r)) then throw_Error_New (EscapableHandleScope._env scope)
  else ret (Value.mk (EscapableHandleScope._env scope) (out r)).

(** *** Reference<T> *)

(** [Reference<T>::Reference()] *)
Definition Reference_default : Reference.t := Reference.mk nullptr nullptr false.

(** [Reference<T>::Reference(napi_env env, napi_ref ref) : _env(env), _ref(ref)] *)
Definition Reference_ctor {S} (env : napi_env) (ref : napi_ref) : M HostEv S Reference.t :=
  b ← uninitialised;
  ret (Reference.mk env ref b).

(** [Reference<T>::New(const T& value, uint32_t initialRefcount)] *)
Definition Reference_New {S} (value : Value.t) (initialRefcount : N) : M HostEv S Reference.t :=
  let env := Value._env value in
  let val := Value._value value in
  if is_null val then Reference_ctor env nullptr
  else
    r ← call (napi_create_reference env val initialRefcount);
    if negb (status_ok (status r)) then throw_Error_New env
    else Reference_ctor env (out r).

(** [Reference<T>::~Reference()], run on the holder itself. *)
Definition Reference_dtor : M HostEv Reference.t unit :=
  this ← get;
  if negb (is_null (Reference._ref this)) then
    (if negb (Reference._suppressDestruct this) then
       call (napi_delete_reference (Reference._env this) (Reference._ref this));; ret tt
     else ret tt);;
    modify (Reference.set_ref nullptr)
  else ret tt.

(** [Reference<T>::Reset()] *)
Definition Reference_Reset : M HostEv Reference.t unit :=
  this ← get;
  if negb (is_null (Reference._ref this)) then
    r ← call (napi_delete_reference (Reference._env this) (Reference._ref this));
    if negb (status_ok (status r)) then throw_Error_New (Reference._env this)
    else modify (Reference.set_ref nullptr)
  else ret tt.

(** [Reference<T>::Reset(const T& value, uint32_t refcount)] *)
Definition Reference_Reset_value (value : Value.t) (refcount : N) : M HostEv Reference.t unit :=
  Reference_Reset;;
  modify (Reference.set_env (Value._env value));;
  if negb (is_null (Value._value value)) then
    r ← call (napi_create_reference (Value._env value) (Value._value value) refcount);
    if negb (status_ok (status r)) then throw_Error_New (Value._env value)
    else modify (Reference.set_ref (out r))
  else ret tt.

(** [Reference<T>::Reference(Reference<T>&& other)]: builds the new
    holder and empties [other]; [_suppressDestruct] is not mentioned. *)
Definition Reference_move_ctor {S} (other : Lens S Reference.t) : M HostEv S Reference.t :=
  b ← uninitialised;
  o ← gets (view other);
  modify_at other (Reference.set_env nullptr);;
  modify_at other (Reference.set_ref nullptr);;
  ret (Reference.mk (Reference._env o) (Reference._ref o) b).

(** [Reference<T>::operator =(Reference<T>&& other)]; [this] and
    [other] are places in the same store and may be the same place. *)
Definition Reference_move_assign {S} (this other : Lens S Reference.t) : M HostEv S unit :=
  zoom this Reference_Reset;;
  o ← gets (view other);
  modify_at this (Reference.set_env (Reference._env o));;
  modify_at this (Reference.set_ref (Reference._ref o));;
  modify_at other (Reference.set_env nullptr);;
  modify_at other (Reference.set_ref nullptr).

(** [Reference<T>::IsEmpty() const] *)
Definition Reference_IsEmpty (this : Reference.t) : bool := is_null (Reference._ref this).

(** [Reference<T>::Value() const] *)
Definition Reference_Value {S} (this : Reference.t) : M HostEv S Value.t :=
  if is_null (Reference._ref this) then ret (Value.mk (Reference._env this) nullptr)
  else
    r ← call (napi_get_reference_value (Reference._env this) (Reference._ref this));
    if negb (status_ok (status r)) then throw_Error_New (Reference._env this)
    else ret (Value.mk (Reference._env this) (out r)).

(** [Reference<T>::SuppressDestruct()] *)
Definition Reference_SuppressDestruct : M HostEv Reference.t unit :=
  modify (Reference.set_suppressDestruct true).

(** [template <typename T> Reference<T> Weak(T value)] *)
Definition Weak {S} (value : Value.t) : M HostEv S Reference.t :=
  Reference_New value 0.

(** [template <typename T> Reference<T> Persistent(T value)] *)
Definition Persistent {S} (value : Value.t) : M HostEv S Reference.t :=
  Reference_New value 1.

(** The conversion [ObjectReference(Reference<Object>&& other)
    : Reference<Object>(std::move(other))] applied to a temporary, which
    is destroyed afterwards (and is empty by then). *)
Definition Reference_convert {S} (tmp : Reference.t) : M HostEv S Reference.t :=
  on_temp tmp (r ← Reference_move_ctor lens_id; Reference_dtor;; ret r).

(** [ObjectReference Weak(Object value)], [FunctionReference Weak(Function value)] *)
Definition Weak_Object {S} (value : Value.t) : M HostEv S Reference.t :=
  r ← Reference_New value 0; Reference_convert r.
Definition Weak_Function {S} (value : Value.t) : M HostEv S Reference.t :=
  r ← Reference_New value 0; Reference_convert r.

(** [ObjectReference Persistent(Object value)],
    [FunctionReference Persistent(Function value)] *)
Definition Persistent_Object {S} (value : Value.t) : M HostEv S Reference.t :=
  r ← Reference_New value 1; Reference_convert r.
Definition Persistent_Function {S} (value : Value.t) : M HostEv S Reference.t :=
  r ← Reference_New value 1; Reference_convert r.

(** [Error::ThrowAsJavaScriptException() const] *)
Definition Error_ThrowAsJavaScriptException {S} (this : Error.t) : M HostEv S unit :=
  with_HandleScope (Reference._env (Error.base this))
    (if negb (Reference_IsEmpty (Error.base this)) then
       v ← Reference_Value (Error.base this);
       r ← call (napi_throw (Reference._env (Error.base this)) (Value._value v));
       if negb (status_ok (status r)) then throw_Error_New (Reference._env (Error.base this))
       else ret tt
     else ret tt).

(** [Error::~Error()] of a temporary or of a caught exception object. *)
Definition Error_dtor {S} (e : Error.t) : M HostEv S unit :=
  on_temp (Error.base e) Reference_dtor.

(** *** Object, Function, FunctionReference *)

(** [Object::New(napi_env env)] *)
Definition Object_New {S} (env : napi_env) : M HostEv S Value.t :=
  r ← call (napi_create_object env);
  if negb (status_ok (status r)) then throw_Error_New env
  else ret (Value.mk env (out r)).

(** [Function::MakeCallback(napi_value recv, args) const] *)
Definition Function_MakeCallback {S} (this : Value.t) (recv : napi_value)
    (args : list napi_value) : M HostEv S Value.t :=
  r ← call (napi_make_callback (Value._env this) recv (Value._value this) args);
  if negb (status_ok (status r)) then throw_Error_New (Value._env this)
  else ret (Value.mk (Value._env this) (out r)).

(** [FunctionReference::MakeCallback(napi_value recv, args) const] *)
Definition FunctionReference_MakeCallback {S} (this : Reference.t) (recv : napi_value)
    (args : list napi_value) : M HostEv S Value.t :=
  scope ← EscapableHandleScope_ctor (Reference._env this);
  finally
    (f ← Reference_Value this;
     v ← Function_MakeCallback f recv args;
     EscapableHandleScope_Escape scope (Value._value v))
    (EscapableHandleScope_dtor scope).

(** *** AsyncWorker *)

(** Stack unwinding out of a constructor: [cleanup] destroys the
    members that were already constructed, then the exception goes on. *)
Definition unwinding {S A} (m : M HostEv S A) (cleanup : M HostEv S unit) : M HostEv S A :=
  try_catch m (fun x => Some (cleanup;; throw x)).

(** [AsyncWorker::AsyncWorker(const Object& receiver, const Function& callback)];
    [this] is the address of the unit, handed to the host as the
    context of both entry points. *)
Definition AsyncWorker_ctor {S} (this : ptr) (receiver callback : Value.t)
    : M HostEv S AsyncWorker.t :=
  let env := Value._env callback in
  recv ← Persistent_Object receiver;
  unwinding
    (cb ← Persistent_Function callback;
     unwinding
       (r ← call (napi_create_async_work env this);
        if negb (status_ok (status r)) then throw_Error_New env
        else ret (AsyncWorker.mk env (out r) recv cb ""))
       (on_temp cb Reference_dtor))
    (on_temp recv Reference_dtor).

(** [AsyncWorker::AsyncWorker(const Function& callback)
      : AsyncWorker(Object::New(callback.Env()), callback)] *)
Definition AsyncWorker_ctor_callback {S} (this : ptr) (callback : Value.t)
    : M HostEv S AsyncWorker.t :=
  receiver ← Object_New (Value._env callback);
  AsyncWorker_ctor this receiver callback.

(** [AsyncWorker::~AsyncWorker()] followed by the destructors of the
    members [_callback] and [_receiver] (in the reverse of the order of
    the constructor's initialiser list). *)
Definition AsyncWorker_dtor : M HostEv AsyncWorker.t unit :=
  self ← get;
  (if negb (is_null (AsyncWorker._work self)) then
     call (napi_delete_async_work (AsyncWorker._env self) (AsyncWorker._work self));;
     modify (AsyncWorker.set_work nullptr)
   else ret tt);;
  zoom AsyncWorker.callback Reference_dtor;;
  zoom AsyncWorker.receiver Reference_dtor.

(** The statements shared by the move constructor and [operator =].
    The text of a moved-from [std::string] is unspecified and is not
    read again; the model leaves it in place. *)
Definition AsyncWorker_move_body {S} (this other : Lens S AsyncWorker.t) : M HostEv S unit :=
  o ← gets (view other);
  modify_at this (AsyncWorker.set_env (AsyncWorker._env o));;
  modify_at other (AsyncWorker.set_env nullptr);;
  o ← gets (view other);
  modify_at this (AsyncWorker.set_work (AsyncWorker._work o));;
  modify_at other (AsyncWorker.set_work nullptr);;
  Reference_move_assign (lens_compose this AsyncWorker.receiver)
                        (lens_compose other AsyncWorker.receiver);;
  Reference_move_assign (lens_compose this AsyncWorker.callback)
                        (lens_compose other AsyncWorker.callback);;
  o ← gets (view other);
  modify_at this (AsyncWorker.set_error (AsyncWorker._error o)).

(** [AsyncWorker::AsyncWorker(AsyncWorker&& other)]: the members of the
    new unit at [this] are default-constructed, then the body runs. *)
Definition AsyncWorker_move_ctor {S} (this other : Lens S AsyncWorker.t) : M HostEv S unit :=
  modify_at this (fun _ => AsyncWorker.mk nullptr nullptr Reference_default Reference_default "");;
  AsyncWorker_move_body this other.

(** [AsyncWorker::operator =(AsyncWorker&& other)] *)
Definition AsyncWorker_move_assign {S} (this other : Lens S AsyncWorker.t) : M HostEv S unit :=
  AsyncWorker_move_body this other.

(** [AsyncWorker::Queue()] *)
Definition AsyncWorker_Queue : M HostEv AsyncWorker.t unit :=
  self ← get;
  r ← call (napi_queue_async_work (AsyncWorker._env self) (AsyncWorker._work self));
  if negb (status_ok (status r)) then throw_Error_New (AsyncWorker._env self)
  else ret tt.

(** [AsyncWorker::Cancel()] *)
Definition AsyncWorker_Cancel : M HostEv AsyncWorker.t unit :=
  self ← get;
  r ← call (napi_cancel_async_work (AsyncWorker._env self) (AsyncWorker._work self));
  if negb (status_ok (status r)) then throw_Error_New (AsyncWorker._env self)
  else ret tt.

(** [AsyncWorker::OnOK()]: [_callback.MakeCallback(_receiver.Value(), {})] *)
Definition AsyncWorker_OnOK : M HostEv AsyncWorker.t unit :=
  self ← get;
  recv ← Reference_Value (AsyncWorker._receiver self);
  FunctionReference_MakeCallback (AsyncWorker._callback self) (Value._value recv) [];;
  ret tt.

(** [AsyncWorker::OnError(const Error& e)]:
    [_callback.MakeCallback(_receiver.Value(), { e.Value() })];
    the two arguments are evaluated from left to right. *)
Definition AsyncWorker_OnError (e : Error.t) : M HostEv AsyncWorker.t unit :=
  self ← get;
  recv ← Reference_Value (AsyncWorker._receiver self);
  err ← Reference_Value (Error.base e);
  FunctionReference_MakeCallback (AsyncWorker._callback self) (Value._value recv)
    [Value._value err];;
  ret tt.

(** [AsyncWorker::SetError(const std::string& error)] *)
Definition AsyncWorker_SetError {E} (error : string) : M E AsyncWorker.t unit :=
  modify (AsyncWorker.set_error error).
End Wrapper.

(** ** The two entry points the host calls back *)

(** What the concrete unit's [Execute()] does.  It runs on a worker thread
    without access to the host, so it is a function on the unit's own
    state; an exception derived from [std::exception] is given by the text
    of its [what()]. *)
Inductive ExecOutcome :=
| Completes
| RaisesStd (what : string)
| RaisesOther.

(** The virtual methods of a concrete unit. *)
Record Methods := {
  Execute : AsyncWorker.t -> ExecOutcome * AsyncWorker.t;
  OnOK : M HostEv AsyncWorker.t unit;
  OnError : Error.t -> M HostEv AsyncWorker.t unit
}.

(** A unit that only supplies [Execute] and inherits [OnOK] and [OnError]. *)
Definition default_methods (P : Platform)
    (execute : AsyncWorker.t -> ExecOutcome * AsyncWorker.t) : Methods :=
  {| Execute := execute; OnOK := AsyncWorker_OnOK P; OnError := AsyncWorker_OnError P |}.

Inductive MethodCall :=
| CallExecute
| CallOnOK
| CallOnError (e : Error.t).

(** What the bridge does: ABI calls, virtual calls, and [delete self]. *)
Inductive Event :=
| EvHost (e : HostEv)
| EvCall (m : MethodCall)
| EvDelete.

Definition host_event (e : Event) : option HostEv :=
  match e with EvHost x => Some x | _ => None end.

Definition method_call (e : Event) : option MethodCall :=
  match e with EvCall m => Some m | _ => None end.

(** The ABI calls in a trace of the bridge, and the virtual calls in it. *)
Definition host_events (l : list Event) : list HostEv := omap host_event l.
Definition calls (l : list Event) : list MethodCall := omap method_call l.


(** Code of the wrapper run from the bridge: it sees the ABI calls made so
    far and can only add ABI calls. *)
Definition lift {S A} (m : M HostEv S A) : M Event S A :=
  fun h s => match m (host_events h) s with mkOut r s' l => mkOut r s' (EvHost <$> l) end.

Section Bridge.
Context (P : Platform) (V : Methods).

(** [self->Execute()] *)
Definition call_Execute : M Event AsyncWorker.t unit :=
  emit (EvCall CallExecute);;
  self ← get;
  put (Execute V self).2;;
  match (Execute V self).1 with
  | Completes => ret tt
  | RaisesStd what => throw (ExnStd what)
  | RaisesOther => throw ExnOther
  end.

(** [AsyncWorker::OnExecute(napi_env env, void* this_pointer)] *)
Definition AsyncWorker_OnExecute : M Event AsyncWorker.t unit :=
  try_catch call_Execute
    (fun x => match x with
              | ExnStd what => Some (AsyncWorker_SetError what)
              | _ => None
              end).

(** [delete self] *)
Definition AsyncWorker_delete : M Event AsyncWorker.t unit :=
  lift (AsyncWorker_dtor P);;
  emit EvDelete.

(** The [try] block of [OnWorkComplete]. *)
Definition OnWorkComplete_try : M Event AsyncWorker.t unit :=
  self ← get;
  if (String.length (AsyncWorker._error self) =? 0)%nat then
    emit (EvCall CallOnOK);;
    lift (OnOK V)
  else
    e ← lift (Error_New_message P (AsyncWorker._env self) (AsyncWorker._error self));
    (* the temporary [Error] lives until the call is over *)
    finally
      (emit (EvCall (CallOnError e));;
       lift (OnError V e))
      (lift (Error_dtor P e)).

(** Its handler, [catch (const Error& e) { e.ThrowAsJavaScriptException(); }];
    the exception object is destroyed when the handler is left. *)
Definition OnWorkComplete_catch (x : exn) : option (M Event AsyncWorker.t unit) :=
  match x with
  | ExnError e =>
      Some (finally (lift (Error_ThrowAsJavaScriptException P e))
                    (lift (Error_dtor P e)))
  | _ => None
  end.

(** [AsyncWorker::OnWorkComplete(napi_env env, napi_status status, void* this_pointer)] *)
Definition AsyncWorker_OnWorkComplete (status : napi_status) : M Event AsyncWorker.t unit :=
  (if bool_decide (status ≠ napi_cancelled) then
     self ← get;
     scope ← lift (HandleScope_ctor P (AsyncWorker._env self));
     finally
       (try_catch OnWorkComplete_try OnWorkComplete_catch)
       (lift (HandleScope_dtor P scope))
   else ret tt);;
  AsyncWorker_delete.
End Bridge.

(** ** Several units in memory: moves and destruction *)

(** The units alive, by address. *)
Abbreviation Store := (gmap N AsyncWorker.t).

Definition no_unit : AsyncWorker.t :=
  AsyncWorker.mk nullptr nullptr Reference_default Reference_default "".

(** The unit at address [a]; writing to a free address places a unit there. *)
Definition unit_at (a : N) : Lens Store AsyncWorker.t :=
  mkLens (fun σ => default no_unit (σ !! a)) (fun w σ => <[a := w]> σ).

Inductive Op :=
| MoveConstruct (this other : N)   (* new (this) AsyncWorker(std::move(other)) *)
| MoveAssign (this other : N)      (* this = std::move(other) *)
| Destroy (a : N).                 (* the unit at a goes out of scope *)

Definition valid (σ : Store) (op : Op) : Prop :=
  match op with
  | MoveConstruct this other => σ !! this = None ∧ is_Some (σ !! other)
  | MoveAssign this other => is_Some (σ !! this) ∧ is_Some (σ !! other)
  | Destroy a => is_Some (σ !! a)
  end.

Definition exec (P : Platform) (op : Op) : M HostEv Store unit :=
  match op with
  | MoveConstruct this other => AsyncWorker_move_ctor P (unit_at this) (unit_at other)
  | MoveAssign this other => AsyncWorker_move_assign P (unit_at this) (unit_at other)
  | Destroy a => zoom (unit_at a) (AsyncWorker_dtor P);; modify (delete a)
  end.

(** One operation, whatever its outcome (an exception out of a move
    leaves the store as it was when the exception was raised). *)
Inductive step (P : Platform) : list HostEv * Store -> Op -> list HostEv * Store -> Prop :=
| step_exec h σ op :
    valid σ op ->
    step P (h, σ) op (rev (emitted (exec P op h σ)) ++ h, st (exec P op h σ)).

Inductive steps (P : Platform) : list HostEv * Store -> list Op -> list HostEv * Store -> Prop :=
| steps_nil c : steps P c [] c
| steps_cons c op c' ops c'' :
    step P c op c' -> steps P c' ops c'' -> steps P c (op :: ops) c''.

(** The work-queue entries torn down in a trace. *)
Definition deleted_work (e : HostEv) : option napi_async_work :=
  match ev_call e with
  | napi_delete_async_work _ work => Some work
  | _ => None
  end.
Definition deleted_works (h : list HostEv) : list napi_async_work := omap deleted_work h.

(** ** A host for examples *)

(** It accepts every call and hands out a new handle each time. *)
Definition willing_host (h : list HostEv) (c : HostCall) : Reply :=
  {| status := napi_ok;
     out := 100 + N.of_nat (length h);
     info := {| error_message := None; error_code := napi_ok |} |}.

Definition willing (uninit : bool) : Platform :=
  {| host := willing_host; ndebug := false; indeterminate := fun _ => uninit |}.

(** It rejects exactly the calls [rejects] selects, with [napi_generic_failure]. *)
Definition grudging_host (rejects : HostCall -> bool) (h : list HostEv) (c : HostCall) : Reply :=
  {| status := if rejects c then napi_generic_failure else napi_ok;
     out := 100 + N.of_nat (length h);
     info := {| error_message := Some "rejected"; error_code := napi_generic_failure |} |}.

Definition grudging (rejects : HostCall -> bool) : Platform :=
  {| host := grudging_host rejects; ndebug := false; indeterminate := fun _ => false |}.

Definition sample_unit : AsyncWorker.t :=
  AsyncWorker.mk 1 2 (Reference.mk 1 3 false) (Reference.mk 1 4 false) "".

Definition other_unit : AsyncWorker.t :=
  AsyncWorker.mk 1 20 (Reference.mk 1 21 false) (Reference.mk 1 22 false) "".

(** Two units alive, at addresses 1 and 2. *)
Definition sample_store : Store := <[1 := sample_unit]> (<[2 := other_unit]> ∅).

(** The unit at 1 is moved into a new unit at 3, the unit at 2 is moved
    onto itself, and all three go out of scope. *)
Definition sample_ops : list Op :=
  [MoveConstruct 3 1; MoveAssign 2 2; Destroy 1; Destroy 3; Destroy 2].

(** The event of making call [c] when the history is [h]. *)
Definition ev (P : Platform) (h : list HostEv) (c : HostCall) : HostEv :=
  Build_HostEv c (host P h c).

(** [f v] asks the host for one reference on [v] with initial count [n]:
    that call comes first; when the host accepts it, it is the only call
    and [f v] returns the holder of the reference the host handed out;
    when the host rejects it, [f v] does not return. *)
Definition registers_with {S} (P : Platform) (f : Value.t -> M HostEv S Reference.t)
    (v : Value.t) (n : N) (h : list HostEv) (s : S) : Prop :=
  let c := ev P h (napi_create_reference (Value._env v) (Value._value v) n) in
  head (emitted (f v h s)) = Some c
  ∧ (accepted c ->
     emitted (f v h s) = [c]
     ∧ ∃ b, res (f v h s) = Ok (Reference.mk (Value._env v) (out (ev_reply c)) b))
  ∧ (¬ accepted c -> returned (res (f v h s)) = false).

(** A holder is made by [make] and goes out of scope at once. *)
Definition make_and_destroy {S} (P : Platform) (make : M HostEv S Reference.t) : M HostEv S unit :=
  r ← make; on_temp r (Reference_dtor P).

(** The same, with [SuppressDestruct()] called on the holder in between. *)
Definition make_suppress_destroy {S} (P : Platform) (make : M HostEv S Reference.t)
    : M HostEv S unit :=
  r ← make; on_temp r (Reference_SuppressDestruct;; Reference_dtor P).

(** The references released in a trace. *)
Definition released_ref (e : HostEv) : option napi_ref :=
  match ev_call e with
  | napi_delete_reference _ ref => Some ref
  | _ => None
  end.
Definition released_refs (h : list HostEv) : list napi_ref := omap released_ref h.

(** The exceptions handed to the script engine in a trace. *)
Definition thrown_to_script (e : HostEv) : option (napi_env * napi_value) :=
  match ev_call e with
  | napi_throw env error => Some (env, error)
  | _ => None
  end.
Definition script_exceptions (h : list HostEv) : list (napi_env * napi_value) :=
  omap thrown_to_script h.

(** The completion callbacks invoked in a trace: context, receiver,
    function and arguments of each [napi_make_callback]. *)
Definition callback_made (e : HostEv)
    : option (napi_env * napi_value * napi_value * list napi_value) :=
  match ev_call e with
  | napi_make_callback env recv func argv => Some (env, recv, func, argv)
  | _ => None
  end.
Definition callbacks_made (h : list HostEv)
    : list (napi_env * napi_value * napi_value * list napi_value) :=
  omap callback_made h.




(** An operation that checks the status of every call it makes: it
    returns exactly when the host accepted all of its calls, and otherwise
    throws an [Error] to its caller, unless an assertion that is compiled
    in fails while the host's error is translated, which aborts. *)
Definition throws_iff_rejected {S A} (P : Platform) (o : Out HostEv S A) : Prop :=
  (returned (res o) = true ↔ Forall accepted (emitted o))
  ∧ (returned (res o) = false ->
     (∃ e, res o = Throw (ExnError e)) ∨ (res o = Abort ∧ ndebug P = false)).

(** The outcome of code that raises nothing itself: it returns, unless an
    assertion that is compiled in fails. *)
Definition returns_or_asserts {S A} (P : Platform) (o : Out HostEv S A) : Prop :=
  returned (res o) = true ∨ (res o = Abort ∧ ndebug P = false).

(** The execution context and the work-queue entry of a unit, and of
    every unit alive. *)
Definition work_fields (w : AsyncWorker.t) : napi_env * napi_async_work :=
  (AsyncWorker._env w, AsyncWorker._work w).
Definition work_of (σ : Store) : gmap N (napi_env * napi_async_work) :=
  work_fields <$> σ.

(** Code that touches neither the context and work fields of the units at
    [a] and [b] nor any work-queue entry of the host. *)
Definition leaves_work_alone {A} (a b : N) (m : M HostEv Store A) : Prop :=
  ∀ h σ, is_Some (σ !! a) -> is_Some (σ !! b) ->
         work_of (st (m h σ)) = work_of σ ∧ deleted_works (emitted (m h σ)) = [].

(** Every work-queue entry is owned by at most one unit alive, and no
    unit alive owns an entry that was deleted ([m] gives the context and
    the entry of each unit alive). *)
Definition owns_once (deleted : list napi_async_work)
    (m : gmap N (napi_env * napi_async_work)) : Prop :=
  NoDup deleted
  ∧ (∀ a p, m !! a = Some p -> p.2 ≠ nullptr -> p.2 ∉ deleted)
  ∧ (∀ a b p q, m !! a = Some p -> m !! b = Some q -> p.2 = q.2 -> p.2 ≠ nullptr -> a = b).

Definition owned_once (deleted : list napi_async_work) (σ : Store) : Prop :=
  owns_once deleted (work_of σ).

(** Running a sequence of operations, and whether each was valid when
    its turn came. *)
Definition run_op (P : Platform) (c : list HostEv * Store) (op : Op) : list HostEv * Store :=
  (rev (emitted (exec P op c.1 c.2)) ++ c.1, st (exec P op c.1 c.2)).

Fixpoint run (P : Platform) (ops : list Op) (c : list HostEv * Store) : list HostEv * Store :=
  match ops with
  | [] => c
  | op :: ops => run P ops (run_op P c op)
  end.

Fixpoint all_valid (P : Platform) (ops : list Op) (c : list HostEv * Store) : Prop :=
  match ops with
  | [] => True
  | op :: ops => valid c.2 op ∧ all_valid P ops (run_op P c op)
  end.

(** The store after the first four statements of a move,
    [_env = other._env; other._env = nullptr; _work = other._work;
     other._work = nullptr;], from the unit at [b] to the unit at [a]. *)
Definition fields_moved (a b : N) (σ : Store) : Store :=
  let σ1 := <[a := AsyncWorker.set_env (AsyncWorker._env (view (unit_at b) σ))
                      (view (unit_at a) σ)]> σ in
  let σ2 := <[b := AsyncWorker.set_env nullptr (view (unit_at b) σ1)]> σ1 in
  let σ3 := <[a := AsyncWorker.set_work (AsyncWorker._work (view (unit_at b) σ2))
                      (view (unit_at a) σ2)]> σ2 in
  <[b := AsyncWorker.set_work nullptr (view (unit_at b) σ3)]> σ3.

(** The remaining statements of a move: the two references and the text. *)
Definition members_moved (P : Platform) (a b : N) : M HostEv Store unit :=
  Reference_move_assign P (lens_compose (unit_at a) AsyncWorker.receiver)
                          (lens_compose (unit_at b) AsyncWorker.receiver);;
  Reference_move_assign P (lens_compose (unit_at a) AsyncWorker.callback)
                          (lens_compose (unit_at b) AsyncWorker.callback);;
  o ← gets (view (unit_at b));
  modify_at (unit_at a) (AsyncWorker.set_error (AsyncWorker._error o)).

(** ** More hosts for examples *)

(** The grudging host behind a build with [NDEBUG] defined. *)
Definition grudging_release (rejects : HostCall -> bool) : Platform :=
  {| host := grudging_host rejects; ndebug := true; indeterminate := fun _ => false |}.

(** A host that accepts every call and reports [code] and [message] as
    its last error. *)
Definition reporting_host (code : napi_status) (message : option string)
    (h : list HostEv) (c : HostCall) : Reply :=
  {| status := napi_ok;
     out := 100 + N.of_nat (length h);
     info := {| error_message := message; error_code := code |} |}.

Definition reporting (code : napi_status) (message : option string) : Platform :=
  {| host := reporting_host code message; ndebug := false; indeterminate := fun _ => false |}.

(** The calls [Error::New(env)] can make. *)
Definition translation_call (c : HostCall) : bool :=
  match c with
  | napi_get_last_error_info _ | napi_get_and_clear_last_exception _
  | napi_create_string_utf8 _ _ _ | napi_create_error _ _ | napi_create_type_error _ _
  | napi_create_reference _ _ _ => true
  | _ => false
  end.

(** The codes for which [Error::New(env)] creates a [TypeError]. *)
Definition type_error_codes : list napi_status :=
  [napi_object_expected; napi_string_expected; napi_boolean_expected; napi_number_expected].

(** ** Copies of [Error] *)

(** The base-class part of an [Error], as a place. *)
Definition Error_base : Lens Error.t Reference.t :=
  mkLens Error.base (fun r e => Error.mk r (Error._message e)).

(** [Error::Error(const Error& other) : Error(other.Env(), other.Value())] *)
Definition Error_copy_ctor {S} (P : Platform) (other : Error.t) : M HostEv S Error.t :=
  value ← Reference_Value P (Error.base other);
  Error_ctor P (Reference._env (Error.base other)) (Value._value value).

(** [Error::operator =(Error& other)]; [this] and [other] are places in
    the same store and may be the same place.  [_message] is not
    mentioned by the operator. *)
Definition Error_copy_assign {S} (P : Platform) (this other : Lens S Error.t)
    : M HostEv S unit :=
  zoom (lens_compose this Error_base) (Reference_Reset P);;
  o ← gets (view other);
  modify_at (lens_compose this Error_base)
    (Reference.set_env (Reference._env (Error.base o)));;
  t ← gets (view this);
  with_HandleScope P (Reference._env (Error.base t))
    (o ← gets (view other);
     value ← Reference_Value P (Error.base o);
     if negb (is_null (Value._value value)) then
       t ← gets (view this);
       r ← call P (napi_create_reference (Reference._env (Error.base t))
                     (Value._value value) 1);
       if negb (status_ok (status r)) then throw_Error_New P (Reference._env (Error.base t))
       else modify_at (lens_compose this Error_base) (Reference.set_ref (out r))
     else ret tt).

(** Two objects side by side, as places. *)
Definition lens_fst {A B} : Lens (A * B) A := mkLens fst (fun a p => (a, p.2)).
Definition lens_snd {A B} : Lens (A * B) B := mkLens snd (fun b p => (p.1, b)).

(** ** Several reference holders in memory *)

(** The holders alive, by address. *)
Abbreviation Holders := (gmap N Reference.t).

(** The holder at address [a]. *)
Definition holder_at (a : N) : Lens Holders Reference.t :=
  mkLens (fun σ => default Reference_default (σ !! a)) (fun r σ => <[a := r]> σ).

Inductive HolderOp :=
| HolderMoveConstruct (this other : N)   (* new (this) Reference<T>(std::move(other)) *)
| HolderMoveAssign (this other : N)      (* this = std::move(other) *)
| HolderReset (a : N)                    (* a.Reset() *)
| HolderResetValue (a : N) (value : Value.t) (refcount : N)  (* a.Reset(value, refcount) *)
| HolderSuppressDestruct (a : N)         (* a.SuppressDestruct() *)
| HolderDestroy (a : N).                 (* the holder at a goes out of scope *)

Definition holder_valid (σ : Holders) (op : HolderOp) : Prop :=
  match op with
  | HolderMoveConstruct this other => σ !! this = None ∧ is_Some (σ !! other)
  | HolderMoveAssign this other => is_Some (σ !! this) ∧ is_Some (σ !! other)
  | HolderReset a | HolderResetValue a _ _ | HolderSuppressDestruct a | HolderDestroy a =>
      is_Some (σ !! a)
  end.

Definition holder_exec (P : Platform) (op : HolderOp) : M HostEv Holders unit :=
  match op with
  | HolderMoveConstruct this other =>
      r ← Reference_move_ctor P (holder_at other); modify (insert this r)
  | HolderMoveAssign this other => Reference_move_assign P (holder_at this) (holder_at other)
  | HolderReset a => zoom (holder_at a) (Reference_Reset P)
  | HolderResetValue a value refcount =>
      zoom (holder_at a) (Reference_Reset_value P value refcount)
  | HolderSuppressDestruct a => zoom (holder_at a) Reference_SuppressDestruct
  | HolderDestroy a => zoom (holder_at a) (Reference_dtor P);; modify (delete a)
  end.

(** One operation, whatever its outcome, and a sequence of them; whether
    each operation was valid when its turn came. *)
Definition holder_run_op (P : Platform) (c : list HostEv * Holders) (op : HolderOp)
    : list HostEv * Holders :=
  (rev (emitted (holder_exec P op c.1 c.2)) ++ c.1, st (holder_exec P op c.1 c.2)).

Fixpoint holder_run (P : Platform) (ops : list HolderOp) (c : list HostEv * Holders)
    : list HostEv * Holders :=
  match ops with
  | [] => c
  | op :: ops => holder_run P ops (holder_run_op P c op)
  end.

Fixpoint holder_all_valid (P : Platform) (ops : list HolderOp) (c : list HostEv * Holders)
    : Prop :=
  match ops with
  | [] => True
  | op :: ops => holder_valid c.2 op ∧ holder_all_valid P ops (holder_run_op P c op)
  end.

(** Two holders alive, at addresses 1 and 2; [SuppressDestruct] was
    called on the second. *)
Definition sample_holders : Holders :=
  <[1 := Reference.mk 1 5 false]> (<[2 := Reference.mk 1 6 true]> ∅).

(** The first holder takes over from the second, is then assigned to
    itself, and both go out of scope. *)
Definition sample_holder_ops : list HolderOp :=
  [HolderMoveAssign 1 2; HolderMoveAssign 1 1; HolderReset 2; HolderDestroy 1; HolderDestroy 2].

(** An operation that takes a new reference from the host. *)
Definition acquires (op : HolderOp) : bool :=
  match op with HolderResetValue _ _ _ => true | _ => false end.

(** The references whose release the host accepted in a trace. *)
Definition accepted_release (e : HostEv) : option napi_ref :=
  if decide (accepted e) then released_ref e else None.
Definition accepted_releases (h : list HostEv) : list napi_ref := omap accepted_release h.

(** The context and the handle of a holder, and of every holder alive. *)
Definition ref_fields (r : Reference.t) : napi_env * napi_ref :=
  (Reference._env r, Reference._ref r).
Definition refs_of (σ : Holders) : gmap N (napi_env * napi_ref) := ref_fields <$> σ.

(** ** Scopes opened and closed in a trace *)

Inductive ScopeKind := PlainScope | EscapableScope.

#[global] Instance ScopeKind_eq_dec : EqDecision ScopeKind.
Proof. solve_decision. Defined.

(** The scopes open, innermost first: kind, context and handle of each. *)
Abbreviation ScopeStack := (list (ScopeKind * napi_env * ptr)).

(** What one ABI call does to the scopes open: an accepted opening call
    pushes the scope the host handed out; a closing call must name the
    innermost scope, and pops it.  [None] is a closing call that names
    any other scope, or none. *)
Definition scope_step (stack : ScopeStack) (e : HostEv) : option ScopeStack :=
  match ev_call e with
  | napi_open_handle_scope env =>
      Some (if status_ok (status (ev_reply e))
            then (PlainScope, env, out (ev_reply e)) :: stack else stack)
  | napi_open_escapable_handle_scope env =>
      Some (if status_ok (status (ev_reply e))
            then (EscapableScope, env, out (ev_reply e)) :: stack else stack)
  | napi_close_handle_scope env scope =>
      match stack with
      | top :: rest => if bool_decide (top = (PlainScope, env, scope)) then Some rest else None
      | [] => None
      end
  | napi_close_escapable_handle_scope env scope =>
      match stack with
      | top :: rest => if bool_decide (top = (EscapableScope, env, scope)) then Some rest else None
      | [] => None
      end
  | _ => Some stack
  end.

Fixpoint scopes_after (stack : ScopeStack) (l : list HostEv) : option ScopeStack :=
  match l with
  | [] => Some stack
  | e :: l =>
      match scope_step stack e with
      | Some stack' => scopes_after stack' l
      | None => None
      end
  end.

(** Code that closes every scope it opens, in the reverse order, and
    closes no other, on every path on which the process is not aborted;
    [events] picks the ABI calls out of what the code emits. *)
Definition scope_neutral_via {E S A} (events : list E -> list HostEv) (m : M E S A) : Prop :=
  ∀ h s stack, res (m h s) ≠ Abort ->
               scopes_after stack (events (emitted (m h s))) = Some stack.

Definition scope_neutral {S A} (m : M HostEv S A) : Prop :=
  scope_neutral_via (fun l => l) m.

(** The calls that open or close a scope. *)
Definition scope_call (c : HostCall) : bool :=
  match c with
  | napi_open_handle_scope _ | napi_close_handle_scope _ _
  | napi_open_escapable_handle_scope _ | napi_close_escapable_handle_scope _ _ => true
  | _ => false
  end.

(** The reference a holder with handle [r] has to release, if any. *)
Definition held (r : napi_ref) : list napi_ref := if is_null r then [] else [r].

(** ** References registered in a trace *)

(** The handles of the references the host registered, omitting null. *)
Definition registered_ref (e : HostEv) : option napi_ref :=
  match ev_call e with
  | napi_create_reference _ _ _ =>
      if status_ok (status (ev_reply e)) && negb (is_null (out (ev_reply e)))
      then Some (out (ev_reply e)) else None
  | _ => None
  end.
Definition registered_refs (h : list HostEv) : list napi_ref := omap registered_ref h.

(** ** The rest of the ABI: values, strings, buffers, callbacks *)

(** [napi_valuetype] *)
Inductive napi_valuetype :=
| napi_undefined
| napi_null
| napi_boolean
| napi_number
| napi_string
| napi_symbol
| napi_object
| napi_function
| napi_external.

#[global] Instance napi_valuetype_eq_dec : EqDecision napi_valuetype.
Proof. solve_decision. Defined.

(** [napi_typedarray_type], and the value [TypedArray::unknown_array_type]
    that the class keeps in [_type] until the host has been asked. *)
Inductive napi_typedarray_type :=
| napi_int8_array
| napi_uint8_array
| napi_uint8_clamped_array
| napi_int16_array
| napi_uint16_array
| napi_int32_array
| napi_uint32_array
| napi_float32_array
| napi_float64_array
| unknown_array_type.

#[global] Instance napi_typedarray_type_eq_dec : EqDecision napi_typedarray_type.
Proof. solve_decision. Defined.

(** Which out-pointers a call of [napi_get_typedarray_info] passes. *)
Inductive TypedArrayQuery :=
| QueryTypeLength          (* &_type, &_length *)
| QueryTypeLengthData      (* &_type, &_length, &_data *)
| QueryArrayBuffer         (* &arrayBuffer *)
| QueryByteOffset.         (* &byteOffset *)

#[global] Instance TypedArrayQuery_eq_dec : EqDecision TypedArrayQuery.
Proof. solve_decision. Defined.

(** The finalizer entry point handed to the host with an external value. *)
Inductive FinalizeEntry :=
| NoFinalizer                  (* nullptr *)
| FinalizeWrapper              (* details::FinalizeData<T, Finalizer>::Wrapper *)
| FinalizeWrapperWithHint.     (* ...::WrapperWithHint *)

#[global] Instance FinalizeEntry_eq_dec : EqDecision FinalizeEntry.
Proof. solve_decision. Defined.

(** The ABI calls of the classes below.  In [napi_get_value_string_utf8]
    the buffer is given by its size, [None] for the call with
    [buf = nullptr] that asks for the length; in [napi_get_cb_info],
    [argc] is the capacity of [argv] and [wants_this] tells whether the
    out-pointers for [this] and the data are passed. *)
Inductive ValueCall :=
| napi_get_undefined (env : napi_env)
| napi_is_exception_pending (env : napi_env)
| napi_typeof (env : napi_env) (value : napi_value)
| napi_is_array (env : napi_env) (value : napi_value)
| napi_is_arraybuffer (env : napi_env) (value : napi_value)
| napi_is_typedarray (env : napi_env) (value : napi_value)
| napi_is_buffer (env : napi_env) (value : napi_value)
| napi_get_named_property (env : napi_env) (object : napi_value) (utf8name : string)
| napi_get_value_string_utf8 (env : napi_env) (value : napi_value) (bufsize : option N)
| napi_get_typedarray_info (env : napi_env) (typedarray : napi_value) (query : TypedArrayQuery)
| napi_get_buffer_info (env : napi_env) (value : napi_value)
| napi_create_buffer (env : napi_env) (size : N)
| napi_create_external (env : napi_env) (data : ptr) (finalize_cb : FinalizeEntry)
    (finalize_hint : ptr)
| napi_get_cb_info (env : napi_env) (cbinfo : ptr) (argc : N) (wants_this : bool).

#[global] Instance ValueCall_eq_dec : EqDecision ValueCall.
Proof. solve_decision. Defined.

(** What the host hands back through the out-pointers of these calls;
    each call reads the fields that belong to its out-pointers, and only
    after [napi_ok]. *)
Record ValueReply := {
  vstatus : napi_status;
  vresult : ptr;                      (* a [napi_value] *)
  vflag : bool;                       (* a [bool] *)
  vtype : napi_valuetype;
  vsize : N;                          (* a [size_t] *)
  vtext : string;                     (* what was written into a char buffer *)
  vdata : ptr;                        (* a [void*] *)
  varray_type : napi_typedarray_type;
  vthis : ptr;
  vargs : list ptr                    (* what was written into an array of [napi_value] *)
}.

(** What the classes below do: calls of the first group, calls of the
    second group, and [new] and [delete] of helper blocks. *)
Inductive AbiEv :=
| BridgeEv (e : HostEv)
| ValueEv (c : ValueCall) (r : ValueReply)
| NewEv (p : ptr)
| DeleteEv (p : ptr).

Definition bridge_event (e : AbiEv) : option HostEv :=
  match e with BridgeEv x => Some x | _ => None end.

Definition value_call (e : AbiEv) : option ValueCall :=
  match e with ValueEv c _ => Some c | _ => None end.

(** The calls of the first group in a trace, and those of the second. *)
Definition bridge_events (l : list AbiEv) : list HostEv := omap bridge_event l.
Definition value_calls (l : list AbiEv) : list ValueCall := omap value_call l.

(** The platform with the whole ABI.
    - [bridge_host] and [value_host] answer a call, knowing everything
      that happened before (the latest first);
    - [assertions_off] and [stale_flag] are [ndebug] and [indeterminate]
      of [Platform];
    - [operator_new] is the address the next [new] returns, which is
      never null; memory is not exhausted;
    - [stale_value] is what reading a [napi_value] that was never
      written yields;
    - [size_bits] is the width of [size_t];
    - [extra_capacity n] is what [std::string::reserve(n)] reserves
      beyond [n]; [max_size_slack] is how far [std::string::max_size()]
      is below [npos - 1]; [length_error_what] is the text of
      [std::length_error]. *)
Record Runtime := {
  bridge_host : list AbiEv -> HostCall -> Reply;
  value_host : list AbiEv -> ValueCall -> ValueReply;
  assertions_off : bool;
  stale_flag : list AbiEv -> bool;
  operator_new : list AbiEv -> positive;
  stale_value : list AbiEv -> ptr;
  size_bits : N;
  extra_capacity : N -> N;
  max_size_slack : N;
  length_error_what : string
}.

(** The platform that code of the first group sees when it is entered
    after [h]. *)
Definition platform_at (R : Runtime) (h : list AbiEv) : Platform :=
  {| host := fun hb c => bridge_host R ((BridgeEv <$> hb) ++ h) c;
     ndebug := assertions_off R;
     indeterminate := fun hb => stale_flag R ((BridgeEv <$> hb) ++ h) |}.

(** Code of the first group, run within the whole. *)
Definition bridged {S A} (R : Runtime) (m : Platform -> M HostEv S A) : M AbiEv S A :=
  fun h s =>
    match m (platform_at R h) [] s with
    | mkOut r s' l => mkOut r s' (BridgeEv <$> l)
    end.

Section Values.
Context (R : Runtime).

(** One call of the second group. *)
Definition vcall {S} (c : ValueCall) : M AbiEv S ValueReply :=
  fun h s => mkOut (Ok (value_host R h c)) s [ValueEv c (value_host R h c)].

(** [throw Error::New(env)] *)
Definition throw_Error {S A} (env : napi_env) : M AbiEv S A :=
  bridged R (fun P => throw_Error_New P env).

(** The end of a [catch] block: the exception object is destroyed. *)
Definition caught {S} (x : exn) : M AbiEv S unit :=
  match x with
  | ExnError e => bridged R (fun P => Error_dtor P e)
  | _ => ret tt
  end.

(** A value of type [size_t] *)
Definition size_t (n : N) : N := n mod 2 ^ size_bits R.

(** *** Env *)

(** [Env::Undefined() const] *)
Definition Env_Undefined {S} (env : napi_env) : M AbiEv S Value.t :=
  r ← vcall (napi_get_undefined env);
  if negb (status_ok (vstatus r)) then throw_Error env
  else ret (Value.mk env (vresult r)).

(** [Env::IsExceptionPending() const] *)
Definition Env_IsExceptionPending {S} (env : napi_env) : M AbiEv S bool :=
  r ← vcall (napi_is_exception_pending env);
  ret (if negb (status_ok (vstatus r)) then false else vflag r).

(** *** Value *)

(** [Value::Type() const] *)
Definition Value_Type {S} (this : Value.t) : M AbiEv S napi_valuetype :=
  if is_null (Value._value this) then ret napi_undefined
  else
    r ← vcall (napi_typeof (Value._env this) (Value._value this));
    if negb (status_ok (vstatus r)) then throw_Error (Value._env this)
    else ret (vtype r).

(** [Value::IsUndefined() const] and the seven other tests of [Type()] *)
Definition Value_IsUndefined {S} (this : Value.t) : M AbiEv S bool :=
  type ← Value_Type this; ret (bool_decide (type = napi_undefined)).
Definition Value_IsNull {S} (this : Value.t) : M AbiEv S bool :=
  type ← Value_Type this; ret (bool_decide (type = napi_null)).
Definition Value_IsBoolean {S} (this : Value.t) : M AbiEv S bool :=
  type ← Value_Type this; ret (bool_decide (type = napi_boolean)).
Definition Value_IsNumber {S} (this : Value.t) : M AbiEv S bool :=
  type ← Value_Type this; ret (bool_decide (type = napi_number)).
Definition Value_IsString {S} (this : Value.t) : M AbiEv S bool :=
  type ← Value_Type this; ret (bool_decide (type = napi_string)).
Definition Value_IsSymbol {S} (this : Value.t) : M AbiEv S bool :=
  type ← Value_Type this; ret (bool_decide (type = napi_symbol)).
Definition Value_IsObject {S} (this : Value.t) : M AbiEv S bool :=
  type ← Value_Type this; ret (bool_decide (type = napi_object)).
Definition Value_IsFunction {S} (this : Value.t) : M AbiEv S bool :=
  type ← Value_Type this; ret (bool_decide (type = napi_function)).

(** [Value::IsArray() const] *)
Definition Value_IsArray {S} (this : Value.t) : M AbiEv S bool :=
  if is_null (Value._value this) then ret false
  else
    r ← vcall (napi_is_array (Value._env this) (Value._value this));
    if negb (status_ok (vstatus r)) then throw_Error (Value._env this)
    else ret (vflag r).

(** [Value::IsArrayBuffer() const] *)
Definition Value_IsArrayBuffer {S} (this : Value.t) : M AbiEv S bool :=
  if is_null (Value._value this) then ret false
  else
    r ← vcall (napi_is_arraybuffer (Value._env this) (Value._value this));
    if negb (status_ok (vstatus r)) then throw_Error (Value._env this)
    else ret (vflag r).

(** [Value::IsTypedArray() const] *)
Definition Value_IsTypedArray {S} (this : Value.t) : M AbiEv S bool :=
  if is_null (Value._value this) then ret false
  else
    r ← vcall (napi_is_typedarray (Value._env this) (Value._value this));
    if negb (status_ok (vstatus r)) then throw_Error (Value._env this)
    else ret (vflag r).

(** [Value::IsBuffer() const] *)
Definition Value_IsBuffer {S} (this : Value.t) : M AbiEv S bool :=
  if is_null (Value._value this) then ret false
  else
    r ← vcall (napi_is_buffer (Value._env this) (Value._value this));
    if negb (status_ok (vstatus r)) then throw_Error (Value._env this)
    else ret (vflag r).

(** *** String *)

(** [std::string::max_size()] *)
Definition string_max_size : N := 2 ^ size_bits R - 2 - max_size_slack R.

(** The first [n] chars of a buffer that held zeros before [text] and a
    terminating zero were written at its start. *)
Fixpoint buffer_prefix (n : nat) (text : string) : string :=
  match n with
  | O => ""
  | S n' =>
      match text with
      | EmptyString => String Ascii.zero (buffer_prefix n' "")
      | String c rest => String c (buffer_prefix n' rest)
      end
  end.

(** [String::Utf8Value() const].  [reserve] and [resize] throw
    [std::length_error] beyond [max_size()]; [resize(length)] fills the
    string with zeros and, as [length] is within the capacity by then,
    keeps the capacity. *)
Definition String_Utf8Value {S} (this : Value.t) : M AbiEv S string :=
  let env := Value._env this in
  r ← vcall (napi_get_value_string_utf8 env (Value._value this) None);
  if negb (status_ok (vstatus r)) then throw_Error env
  else
    let length := size_t (vsize r) in
    if bool_decide (string_max_size < size_t (length + 1))
    then throw (ExnStd (length_error_what R))
    else
      let capacity := size_t (length + 1) + extra_capacity R (size_t (length + 1)) in
      if bool_decide (string_max_size < length)
      then throw (ExnStd (length_error_what R))
      else
        r' ← vcall (napi_get_value_string_utf8 env (Value._value this) (Some capacity));
        if negb (status_ok (vstatus r')) then throw_Error env
        else ret (buffer_prefix (N.to_nat length) (vtext r')).

(** *** Object and ObjectReference *)

(** [Object::Get(const char* utf8name) const] *)
Definition Object_Get {S} (this : Value.t) (utf8name : string) : M AbiEv S Value.t :=
  r ← vcall (napi_get_named_property (Value._env this) (Value._value this) utf8name);
  if negb (status_ok (vstatus r)) then throw_Error (Value._env this)
  else ret (Value.mk (Value._env this) (vresult r)).

(** [ObjectReference::Get(const char* utf8name) const] *)
Definition ObjectReference_Get {S} (this : Reference.t) (utf8name : string)
    : M AbiEv S Value.t :=
  scope ← bridged R (fun P => EscapableHandleScope_ctor P (Reference._env this));
  finally
    (object ← bridged R (fun P => Reference_Value P this);
     v ← Object_Get object utf8name;
     bridged R (fun P => EscapableHandleScope_Escape P scope (Value._value v)))
    (bridged R (fun P => EscapableHandleScope_dtor P scope)).

(** *** Error *)

Definition Error_set_message (text : string) (e : Error.t) : Error.t :=
  Error.mk (Error.base e) text.

(** [Error::Message() const]; [catch (...)] catches every exception. *)
Definition Error_Message : M AbiEv Error.t string :=
  this ← get;
  (if (String.length (Error._message this) =? 0)%nat
      && negb (is_null (Reference._env (Error.base this)))
   then
     try_catch
       (v ← ObjectReference_Get (Error.base this) "message";
        text ← String_Utf8Value v;
        modify (Error_set_message text))
       (fun x => Some (caught x))
   else ret tt);;
  gets Error._message.

(** [Error::what() const] *)
Definition Error_what : M AbiEv Error.t string := Error_Message.

(** *** Module registration *)

(** [RegisterModule(env, exports, module, registerCallback)];
    [registerCallback] stands for the user's function applied to the
    three wrapped arguments. *)
Definition RegisterModule {S} (registerCallback : M AbiEv S unit) : M AbiEv S unit :=
  try_catch registerCallback
    (fun x => match x with
              | ExnError e =>
                  Some (finally (bridged R (fun P => Error_ThrowAsJavaScriptException P e))
                                (caught x))
              | _ => None
              end).
End Values.

(** *** TypedArray *)

Module TypedArray.
Record t := mk {
  _env : napi_env;
  _value : napi_value;
  _type : napi_typedarray_type;
  _length : N
}.
Definition set_info (type : napi_typedarray_type) (length : N) (a : t) : t :=
  mk (_env a) (_value a) type length.
End TypedArray.

(** The [switch] of [TypedArray::ElementSize]. *)
Definition element_size (type : napi_typedarray_type) : N :=
  match type with
  | napi_int8_array | napi_uint8_array | napi_uint8_clamped_array => 1
  | napi_int16_array | napi_uint16_array => 2
  | napi_int32_array | napi_uint32_array | napi_float32_array => 4
  | napi_float64_array => 8
  | _ => 0
  end.

Section TypedArrays.
Context (R : Runtime).

(** [TypedArray::TypedArray(napi_env env, napi_value value)] *)
Definition TypedArray_ctor (env : napi_env) (value : napi_value) : TypedArray.t :=
  TypedArray.mk env value unknown_array_type 0.

(** [TypedArray::TypedArrayType() const] *)
Definition TypedArray_TypedArrayType : M AbiEv TypedArray.t napi_typedarray_type :=
  this ← get;
  (if bool_decide (TypedArray._type this = unknown_array_type) then
     r ← vcall R (napi_get_typedarray_info (TypedArray._env this) (TypedArray._value this)
                    QueryTypeLength);
     if negb (status_ok (vstatus r)) then throw_Error R (TypedArray._env this)
     else modify (TypedArray.set_info (varray_type r) (size_t R (vsize r)))
   else ret tt);;
  gets TypedArray._type.

(** [TypedArray::ElementSize() const] *)
Definition TypedArray_ElementSize : M AbiEv TypedArray.t N :=
  type ← TypedArray_TypedArrayType; ret (element_size type).

(** [TypedArray::ElementLength() const] *)
Definition TypedArray_ElementLength : M AbiEv TypedArray.t N :=
  this ← get;
  (if bool_decide (TypedArray._type this = unknown_array_type) then
     r ← vcall R (napi_get_typedarray_info (TypedArray._env this) (TypedArray._value this)
                    QueryTypeLength);
     if negb (status_ok (vstatus r)) then throw_Error R (TypedArray._env this)
     else modify (TypedArray.set_info (varray_type r) (size_t R (vsize r)))
   else ret tt);;
  gets TypedArray._length.

(** [TypedArray::ByteOffset() const] *)
Definition TypedArray_ByteOffset : M AbiEv TypedArray.t N :=
  this ← get;
  r ← vcall R (napi_get_typedarray_info (TypedArray._env this) (TypedArray._value this)
                 QueryByteOffset);
  if negb (status_ok (vstatus r)) then throw_Error R (TypedArray._env this)
  else ret (size_t R (vsize r)).

(** [TypedArray::ByteLength() const]: [ElementSize() * ElementLength()];
    the language leaves open which operand is evaluated first. *)
Definition TypedArray_ByteLength (size_first : bool) : M AbiEv TypedArray.t N :=
  if size_first then
    size ← TypedArray_ElementSize; length ← TypedArray_ElementLength;
    ret (size_t R (size * length))
  else
    length ← TypedArray_ElementLength; size ← TypedArray_ElementSize;
    ret (size_t R (size * length)).
End TypedArrays.

(** *** Buffer<T> *)

Module Buffer.
Record t := mk {
  _env : napi_env;
  _value : napi_value;
  _length : N;
  _data : ptr
}.
Definition set_info (length : N) (data : ptr) (b : t) : t := mk (_env b) (_value b) length data.
End Buffer.

Section Buffers.
Context (R : Runtime).
(** [sizeof (T)] *)
Context (sizeof_T : positive).


(** [Buffer<T>::Buffer(napi_env env, napi_value value)] *)
Definition Buffer_ctor (env : napi_env) (value : napi_value) : Buffer.t :=
  Buffer.mk env value 0 nullptr.

(** [Buffer<T>::EnsureInfo() const] *)
Definition Buffer_EnsureInfo : M AbiEv Buffer.t unit :=
  this ← get;
  if is_null (Buffer._data this) then
    r ← vcall R (napi_get_buffer_info (Buffer._env this) (Buffer._value this));
    if negb (status_ok (vstatus r)) then throw_Error R (Buffer._env this)
    else modify (Buffer.set_info (size_t R (vsize r) / Npos sizeof_T) (vdata r))
  else ret tt.

(** [Buffer<T>::Length() const] *)
Definition Buffer_Length : M AbiEv Buffer.t N :=
  Buffer_EnsureInfo;; gets Buffer._length.

(** [Buffer<T>::Data() const] *)
Definition Buffer_Data : M AbiEv Buffer.t ptr :=
  Buffer_EnsureInfo;; gets Buffer._data.
End Buffers.

(** *** External<T> and its finalizer *)

Section Externals.
Context (R : Runtime).

(** [new T], [new T[n]] *)
Definition new_block {S} : M AbiEv S ptr :=
  fun h s => mkOut (Ok (Npos (operator_new R h))) s [NewEv (Npos (operator_new R h))].

(** [delete p], [delete[] p] *)
Definition delete_block {S} (p : ptr) : M AbiEv S unit := emit (DeleteEv p).

(** [External<T>::New(napi_env env, T* data)] *)
Definition External_New {S} (env : napi_env) (data : ptr) : M AbiEv S Value.t :=
  r ← vcall R (napi_create_external env data NoFinalizer nullptr);
  if negb (status_ok (vstatus r)) then throw_Error R env
  else ret (Value.mk env (vresult r)).

(** [External<T>::New(napi_env env, T* data, Finalizer finalizeCallback)] *)
Definition External_New_finalizer {S} (env : napi_env) (data : ptr) : M AbiEv S Value.t :=
  finalizeData ← new_block;
  r ← vcall R (napi_create_external env data FinalizeWrapper finalizeData);
  if negb (status_ok (vstatus r)) then
    delete_block finalizeData;; throw_Error R env
  else ret (Value.mk env (vresult r)).

(** [External<T>::New(napi_env env, T* data, Finalizer finalizeCallback,
    Hint* finalizeHint)] *)
Definition External_New_hint {S} (env : napi_env) (data : ptr) : M AbiEv S Value.t :=
  finalizeData ← new_block;
  r ← vcall R (napi_create_external env data FinalizeWrapperWithHint finalizeData);
  if negb (status_ok (vstatus r)) then
    delete_block finalizeData;; throw_Error R env
  else ret (Value.mk env (vresult r)).

(** [details::FinalizeData<T, Finalizer, Hint>::Wrapper] and
    [WrapperWithHint], the entry points the host calls when the value is
    collected; [callback] is the user's finalizer applied to its
    arguments. *)
Definition FinalizeData_Wrapper {S} (callback : M AbiEv S unit) (finalizeHint : ptr)
    : M AbiEv S unit :=
  callback;; delete_block finalizeHint.
End Externals.

(** The blocks allocated and those freed in a trace. *)
Definition allocated (e : AbiEv) : option ptr :=
  match e with NewEv p => Some p | _ => None end.
Definition freed (e : AbiEv) : option ptr :=
  match e with DeleteEv p => Some p | _ => None end.
Definition allocations (l : list AbiEv) : list ptr := omap allocated l.
Definition frees (l : list AbiEv) : list ptr := omap freed l.

(** *** CallbackInfo *)

(** The array [_argv] points to. *)
Inductive ArgArray := StaticArgs | DynamicArgs.

Module CallbackInfo.
(** [static_args] and [dynamic_args] are what the host wrote into
    [_staticArgs] and into the array at [_dynamicArgs]. *)
Record t := mk {
  _env : napi_env;
  _this : napi_value;
  _argc : N;
  _argv : ArgArray;
  static_args : list napi_value;
  _dynamicArgs : ptr;
  dynamic_args : list napi_value;
  _data : ptr
}.
Definition set_data (data : ptr) (i : t) : t :=
  mk (_env i) (_this i) (_argc i) (_argv i) (static_args i) (_dynamicArgs i)
     (dynamic_args i) data.
End CallbackInfo.

Section Callbacks.
Context (R : Runtime).
(** [CallbackInfo::_staticArgCount] *)
Context (_staticArgCount : N).

(** [CallbackInfo::CallbackInfo(napi_env env, napi_callback_info info)];
    the host writes within the array it is given. *)
Definition CallbackInfo_ctor {S} (env : napi_env) (info : ptr) : M AbiEv S CallbackInfo.t :=
  r ← vcall R (napi_get_cb_info env info _staticArgCount true);
  if negb (status_ok (vstatus r)) then throw_Error R env
  else
    let argc := size_t R (vsize r) in
    let static := take (N.to_nat _staticArgCount) (vargs r) in
    if _staticArgCount <? argc then
      dynamicArgs ← new_block R;
      r' ← vcall R (napi_get_cb_info env info argc false);
      if negb (status_ok (vstatus r')) then throw_Error R env
      else ret (CallbackInfo.mk env (vthis r) (size_t R (vsize r')) DynamicArgs static
                  dynamicArgs (take (N.to_nat argc) (vargs r')) (vdata r))
    else ret (CallbackInfo.mk env (vthis r) argc StaticArgs static nullptr [] (vdata r)).

(** [CallbackInfo::~CallbackInfo()] *)
Definition CallbackInfo_dtor : M AbiEv CallbackInfo.t unit :=
  this ← get;
  if negb (is_null (CallbackInfo._dynamicArgs this))
  then delete_block (CallbackInfo._dynamicArgs this)
  else ret tt.

(** [CallbackInfo::Length() const] *)
Definition CallbackInfo_Length (this : CallbackInfo.t) : N := CallbackInfo._argc this.

(** [_argv[index]] *)
Definition argv_at {S} (this : CallbackInfo.t) (index : N) : M AbiEv S napi_value :=
  fun h s =>
    mkOut (Ok (default (stale_value R h)
                 (match CallbackInfo._argv this with
                  | StaticArgs => CallbackInfo.static_args this
                  | DynamicArgs => CallbackInfo.dynamic_args this
                  end !! N.to_nat index))) s [].

(** [CallbackInfo::operator [](size_t index) const] *)
Definition CallbackInfo_index {S} (this : CallbackInfo.t) (index : N) : M AbiEv S Value.t :=
  if index <? CallbackInfo._argc this
  then v ← argv_at this index; ret (Value.mk (CallbackInfo._env this) v)
  else Env_Undefined R (CallbackInfo._env this).

(** [CallbackInfo::This() const] *)
Definition CallbackInfo_This {S} (this : CallbackInfo.t) : M AbiEv S Value.t :=
  if is_null (CallbackInfo._this this) then Env_Undefined R (CallbackInfo._env this)
  else ret (Value.mk (CallbackInfo._env this) (CallbackInfo._this this)).

(** [CallbackInfo::Data() const] *)
Definition CallbackInfo_Data (this : CallbackInfo.t) : ptr := CallbackInfo._data this.

(** [CallbackInfo::SetData(void* data)] *)
Definition CallbackInfo_SetData (data : ptr) (this : CallbackInfo.t) : CallbackInfo.t :=
  CallbackInfo.set_data data this.

(** [details::CallbackData<Callable, Return>::Wrapper(env, info)];
    [callbackData p] is the [CallbackData] at address [p]: its function
    object, which is given the [CallbackInfo] by reference to const, and
    its [data]. *)
Definition CallbackData_Wrapper {S}
    (callbackData : ptr -> (CallbackInfo.t -> M AbiEv S napi_value) * ptr)
    (env : napi_env) (info : ptr) : M AbiEv S napi_value :=
  try_catch
    (callbackInfo ← CallbackInfo_ctor env info;
     let callbackData := callbackData (CallbackInfo_Data callbackInfo) in
     let callbackInfo := CallbackInfo_SetData callbackData.2 callbackInfo in
     finally (callbackData.1 callbackInfo) (on_temp callbackInfo CallbackInfo_dtor))
    (fun x => match x with
              | ExnError e =>
                  Some (finally
                          (bridged R (fun P => Error_ThrowAsJavaScriptException P e);;
                           ret nullptr)
                          (caught R x))
              | _ => None
              end).
End Callbacks.

(** ** What code leaves alone *)

(** Code that leaves [f] of the objects it runs on as it was, whatever
    the outcome. *)
Definition keeps {E S A T} (f : S -> T) (m : M E S A) : Prop :=
  ∀ h s, f (st (m h s)) = f s.

(** Code that ends the process only when [cond] holds. *)
Definition aborts_only_if {E S A} (cond : Prop) (m : M E S A) : Prop :=
  ∀ h s, res (m h s) = Abort -> cond.

(** ** A runtime for examples *)

(** The answers of the example runtime: every call is accepted, a string
    is 5 chars long and reads "hello", a typed array holds 3 doubles, a
    buffer has 10 bytes, a callback got the 8 arguments 11 .. 18. *)
Definition willing_value_host (h : list AbiEv) (c : ValueCall) : ValueReply :=
  {| vstatus := napi_ok;
     vresult := 200 + N.of_nat (length h);
     vflag := true;
     vtype := napi_object;
     vsize := match c with
              | napi_get_value_string_utf8 _ _ _ => 5
              | napi_get_typedarray_info _ _ _ => 3
              | napi_get_cb_info _ _ _ _ => 8
              | _ => 10
              end;
     vtext := "hello";
     vdata := 300 + N.of_nat (length h);
     varray_type := napi_float64_array;
     vthis := 400;
     vargs := match c with
              | napi_get_cb_info _ _ argc _ => take (N.to_nat argc) [11; 12; 13; 14; 15; 16; 17; 18]
              | _ => []
              end |}.

(** The example runtime; the calls [rejects] selects are rejected, the
    others accepted. *)
Definition grudging_runtime (rejects : ValueCall -> bool) : Runtime :=
  {| bridge_host := fun h c => willing_host (bridge_events h) c;
     value_host := fun h c =>
       let r := willing_value_host h c in
       {| vstatus := if rejects c then napi_generic_failure else napi_ok;
          vresult := vresult r; vflag := vflag r; vtype := vtype r; vsize := vsize r;
          vtext := vtext r; vdata := vdata r; varray_type := varray_type r;
          vthis := vthis r; vargs := vargs r |};
     assertions_off := false;
     stale_flag := fun _ => false;
     operator_new := fun h => Pos.of_nat (500 + length h);
     stale_value := fun _ => 999;
     size_bits := 64;
     extra_capacity := fun n => 15 - N.min n 15;
     max_size_slack := 2 ^ 63;
     length_error_what := "basic_string::_M_create" |}.

Definition willing_runtime : Runtime := grudging_runtime (fun _ => false).

(** * Properties *)

Lemma status_ok_true s : status_ok s = true ↔ s = napi_ok.
Proof. unfold status_ok. apply bool_decide_eq_true. Qed.

Lemma status_ok_false s : status_ok s = false ↔ s ≠ napi_ok.
Proof. unfold status_ok. apply bool_decide_eq_false. Qed.

Lemma is_null_true p : is_null p = true ↔ p = nullptr.
Proof. unfold is_null. apply N.eqb_eq. Qed.

Lemma is_null_false p : is_null p = false ↔ p ≠ nullptr.
Proof. unfold is_null. apply N.eqb_neq. Qed.

Lemma res_prepend {E S A} (l : list E) (o : Out E S A) : res (prepend l o) = res o.
Proof. by destruct o. Qed.

Lemma st_prepend {E S A} (l : list E) (o : Out E S A) : st (prepend l o) = st o.
Proof. by destruct o. Qed.

Lemma emitted_prepend {E S A} (l : list E) (o : Out E S A) :
  emitted (prepend l o) = l ++ emitted o.
Proof. by destruct o. Qed.

Lemma prepend_nil {E S A} (o : Out E S A) : prepend [] o = o.
Proof. by destruct o. Qed.

Ltac unfold_monad :=
  unfold mbind, M_bind, mret, M_ret, bind, ret, throw, abort, get, gets, put,
    modify, modify_at, emit, try_catch, finally, zoom, on_temp, call,
    uninitialised, assert in *.

Section ReferenceFacts.
Context (P : Platform) {S : Type}.

Lemma throw_Error_New_not_returned {A} env h (s : S) :
  returned (res (throw_Error_New P (A := A) env h s)) = false.
Proof.
  unfold throw_Error_New. unfold_monad.
  destruct (Error_New P env h s) as [[a|x|] s1 l1]; reflexivity.
Qed.

Lemma Reference_New_nonempty (v : Value.t) (n : N) h (s : S) :
  Value._value v ≠ nullptr ->
  let c := ev P h (napi_create_reference (Value._env v) (Value._value v) n) in
  head (emitted (Reference_New P v n h s)) = Some c
  ∧ (accepted c ->
     Reference_New P v n h s
     = mkOut (Ok (Reference.mk (Value._env v) (out (ev_reply c))
                    (indeterminate P (c :: h)))) s [c])
  ∧ (¬ accepted c -> returned (res (Reference_New P v n h s)) = false).
Proof.
  intros Hv c. unfold Reference_New.
  apply is_null_false in Hv. rewrite Hv.
  unfold Reference_ctor. unfold_monad. simpl. fold c.
  rewrite emitted_prepend, res_prepend.
  split; [reflexivity|]. unfold accepted. simpl.
  destruct (status_ok (status (host P h _))) eqn:Hs; simpl.
  - apply status_ok_true in Hs. split; [intros _|intros Hn; contradiction].
    reflexivity.
  - apply status_ok_false in Hs. split; [intros Ha; contradiction|intros _].
    pose proof (throw_Error_New_not_returned (A := Reference.t)
                  (Value._env v) (c :: h) s) as Ht.
    exact Ht.
Qed.

Lemma Reference_New_empty (v : Value.t) (n : N) h (s : S) :
  Value._value v = nullptr ->
  Reference_New P v n h s
  = mkOut (Ok (Reference.mk (Value._env v) nullptr (indeterminate P h))) s [].
Proof.
  intros Hv. unfold Reference_New. apply is_null_true in Hv. rewrite Hv.
  reflexivity.
Qed.

(** Converting a temporary holder keeps its handle and makes no call. *)
Lemma Reference_convert_run (tmp : Reference.t) h (s : S) :
  Reference_convert P tmp h s
  = mkOut (Ok (Reference.mk (Reference._env tmp) (Reference._ref tmp)
                 (indeterminate P h))) s [].
Proof. reflexivity. Qed.

Lemma registers_with_New n v h (s : S) :
  Value._value v ≠ nullptr -> registers_with P (λ v, Reference_New P v n) v n h s.
Proof.
  intros Hv. destruct (Reference_New_nonempty v n h s Hv) as (H1 & H2 & H3).
  unfold registers_with. split; [done|split]; [|done].
  intros Ha. rewrite (H2 Ha). simpl. split; [done|eexists; done].
Qed.

Lemma registers_with_converted n v h (s : S) :
  Value._value v ≠ nullptr ->
  registers_with P (λ v, r ← Reference_New P v n; Reference_convert P r) v n h s.
Proof.
  intros Hv. destruct (Reference_New_nonempty v n h s Hv) as (H1 & H2 & H3).
  unfold registers_with. unfold_monad.
  split; [|split].
  - destruct (Reference_New P v n h s) as [[a|x|] s1 l1]; [|done..].
    rewrite Reference_convert_run. simpl in *. by rewrite app_nil_r.
  - intros Ha. rewrite (H2 Ha). simpl. split; [done|eexists; done].
  - intros Ha. specialize (H3 Ha).
    destruct (Reference_New P v n h s) as [[a|x|] s1 l1]; done.
Qed.

(** What [~Reference()] does to the host, by the holder's fields. *)
Lemma Reference_dtor_releases (r : Reference.t) h :
  Reference._ref r ≠ nullptr -> Reference._suppressDestruct r = false ->
  emitted (Reference_dtor P h r)
  = [ev P h (napi_delete_reference (Reference._env r) (Reference._ref r))].
Proof.
  intros Hr Hf. apply is_null_false in Hr.
  unfold Reference_dtor. unfold_monad. simpl. rewrite Hr, Hf. simpl. reflexivity.
Qed.

Lemma Reference_dtor_suppressed (r : Reference.t) h :
  Reference._suppressDestruct r = true -> emitted (Reference_dtor P h r) = [].
Proof.
  intros Hf. unfold Reference_dtor. unfold_monad. simpl. rewrite Hf.
  destruct (is_null (Reference._ref r)); reflexivity.
Qed.

Lemma Reference_dtor_empty (r : Reference.t) h :
  Reference._ref r = nullptr -> emitted (Reference_dtor P h r) = [].
Proof.
  intros Hr. apply is_null_true in Hr.
  unfold Reference_dtor. unfold_monad. simpl. by rewrite Hr.
Qed.

Lemma Reference_dtor_returns (r : Reference.t) h :
  res (Reference_dtor P h r) = Ok tt
  ∧ Reference._ref (st (Reference_dtor P h r)) = nullptr.
Proof.
  unfold Reference_dtor. unfold_monad. simpl.
  destruct (is_null (Reference._ref r)) eqn:Hr; simpl.
  - by apply is_null_true in Hr.
  - destruct (Reference._suppressDestruct r); done.
Qed.
End ReferenceFacts.

(** ** Weak and persistent references *)

(** C8, as amended.  For every non-empty value [v], [Weak(v)] asks the
    host for a reference on [v] with initial count 0 and [Persistent(v)]
    for one with initial count 1 (the template and the [Object] and
    [Function] overloads alike); when the host accepts, the holder
    returned holds that reference, and when it rejects, nothing is
    returned. *)
Theorem Weak_Persistent_initial_refcount (P : Platform) {S} (v : Value.t) h (s : S) :
  Value._value v ≠ nullptr ->
  (registers_with P (Weak P) v 0 h s
   ∧ registers_with P (Weak_Object P) v 0 h s
   ∧ registers_with P (Weak_Function P) v 0 h s)
  ∧ (registers_with P (Persistent P) v 1 h s
     ∧ registers_with P (Persistent_Object P) v 1 h s
     ∧ registers_with P (Persistent_Function P) v 1 h s).
Proof.
  intros Hv. repeat split;
    first [ by apply (registers_with_New P 0 v h s Hv)
          | by apply (registers_with_New P 1 v h s Hv)
          | by apply (registers_with_converted P 0 v h s Hv)
          | by apply (registers_with_converted P 1 v h s Hv) ].
Qed.

Lemma Weak_Persistent_initial_refcount_witness :
  Value._value (Value.mk 1 7) ≠ nullptr
  ∧ registers_with (willing false) (Weak (willing false)) (Value.mk 1 7) 0 [] tt
  ∧ registers_with (willing false) (Persistent (willing false)) (Value.mk 1 7) 1 [] tt.
Proof.
  assert (H : Value._value (Value.mk 1 7) ≠ nullptr) by discriminate.
  split; [exact H|].
  pose proof (Weak_Persistent_initial_refcount (willing false) (Value.mk 1 7) [] tt H)
    as [(Hw & _) (Hp & _)].
  split; assumption.
Defined.

(** C8 as stated fails: for the empty value, [Weak] makes no call at all,
    so no reference is registered with the host. *)
Lemma Weak_of_empty_value_registers_nothing :
  emitted (Weak (willing false) (Value.mk 1 nullptr) [] tt) = []
  ∧ emitted (Persistent (willing false) (Value.mk 1 nullptr) [] tt) = []
  ∧ ¬ registers_with (willing false) (Weak (willing false)) (Value.mk 1 nullptr) 0 [] tt
  ∧ ¬ registers_with (willing false) (Persistent (willing false)) (Value.mk 1 nullptr) 1 [] tt.
Proof.
  repeat split; try reflexivity; intros (Hhead & _); discriminate Hhead.
Qed.

(** ** Destruction of a reference holder *)

(** After [SuppressDestruct()], destruction makes no call at all. *)
Lemma suppressed_holder_is_not_released (P : Platform) (r : Reference.t) h :
  emitted (on_temp (S := unit) r (Reference_SuppressDestruct;; Reference_dtor P) h tt) = [].
Proof.
  unfold Reference_SuppressDestruct, Reference_dtor. unfold_monad. simpl.
  destruct (is_null (Reference._ref r)); reflexivity.
Qed.

(** A non-empty holder whose flag is clear is released by its destructor. *)
Lemma clear_holder_is_released (P : Platform) (r : Reference.t) h :
  Reference._ref r ≠ nullptr -> Reference._suppressDestruct r = false ->
  released_refs (emitted (Reference_dtor P h r)) = [Reference._ref r].
Proof.
  intros Hr Hf. by rewrite (Reference_dtor_releases P r h Hr Hf).
Qed.

(** C9, the failing input.  [Napi::Persistent(v)] builds its holder with
    [Reference(env, ref)], which does not initialise [_suppressDestruct].
    Where that member reads as set, the holder goes out of scope without
    [napi_delete_reference], although [SuppressDestruct()] was never
    called; where it reads as clear, the reference is released. *)
Theorem Persistent_holder_with_stale_flag_is_not_released :
  emitted (make_and_destroy (willing true) (Persistent (willing true) (Value.mk 1 7)) [] tt)
  = [ev (willing true) [] (napi_create_reference 1 7 1)]
  ∧ released_refs
      (emitted (make_and_destroy (willing true) (Persistent (willing true) (Value.mk 1 7)) [] tt))
    = []
  ∧ released_refs
      (emitted (make_and_destroy (willing false) (Persistent (willing false) (Value.mk 1 7)) [] tt))
    = [100].
Proof. repeat split. Qed.

(** The default constructor does initialise the flag: a holder built by
    [Reference()] and [Reset(value, 1)] is released on every platform that
    accepts the registration. *)
Lemma default_constructed_holder_is_released (P : Platform) (v : Value.t) h :
  Value._value v ≠ nullptr ->
  let c := ev P h (napi_create_reference (Value._env v) (Value._value v) 1) in
  accepted c ->
  let o := on_temp (S := unit) Reference_default
             (Reference_Reset_value P v 1;; Reference_dtor P) h tt in
  released_refs (emitted o) = [out (ev_reply c)] ∨ out (ev_reply c) = nullptr.
Proof.
  intros Hv c Hc o. subst o. apply is_null_false in Hv.
  unfold accepted in Hc. simpl in Hc. apply status_ok_true in Hc.
  unfold Reference_Reset_value, Reference_Reset, Reference_dtor, Reference_default.
  unfold_monad. simpl. rewrite Hv. simpl. rewrite Hc. simpl.
  destruct (is_null (out (host P h _))) eqn:Hn; simpl.
  - right. by apply is_null_true in Hn.
  - left. reflexivity.
Qed.

(** ** Destruction of a unit *)

Section UnitFacts.
Context (P : Platform).

Lemma lift_emitted {S A} (m : M HostEv S A) h s :
  emitted (lift m h s) = EvHost <$> emitted (m (host_events h) s).
Proof. unfold lift. by destruct (m (host_events h) s). Qed.

Lemma lift_res {S A} (m : M HostEv S A) h s :
  res (lift m h s) = res (m (host_events h) s).
Proof. unfold lift. by destruct (m (host_events h) s). Qed.

Lemma lift_st {S A} (m : M HostEv S A) h s :
  st (lift m h s) = st (m (host_events h) s).
Proof. unfold lift. by destruct (m (host_events h) s). Qed.

Lemma calls_lifted (l : list HostEv) : calls (EvHost <$> l) = [].
Proof. induction l as [|e l IH]; [reflexivity|exact IH]. Qed.

Lemma calls_app (l k : list Event) : calls (l ++ k) = calls l ++ calls k.
Proof. apply omap_app. Qed.

Lemma host_events_lifted (l : list HostEv) : host_events (EvHost <$> l) = l.
Proof. induction l as [|e l IH]; [reflexivity|]. simpl. unfold host_events in *. simpl. by f_equal. Qed.

Lemma host_events_app (l k : list Event) :
  host_events (l ++ k) = host_events l ++ host_events k.
Proof. apply omap_app. Qed.

Lemma AsyncWorker_dtor_returns h self :
  res (AsyncWorker_dtor P h self) = Ok tt.
Proof.
  unfold AsyncWorker_dtor, Reference_dtor, AsyncWorker.callback, AsyncWorker.receiver.
  unfold_monad. simpl.
  destruct (is_null (AsyncWorker._work self)); simpl;
    destruct (is_null (Reference._ref (AsyncWorker._callback self))); simpl;
    destruct (Reference._suppressDestruct (AsyncWorker._callback self)); simpl;
    destruct (is_null (Reference._ref (AsyncWorker._receiver self))); simpl;
    destruct (Reference._suppressDestruct (AsyncWorker._receiver self)); simpl;
    reflexivity.
Qed.

(** [delete self] always completes, and its trace is the destructor's
    calls followed by the release of the memory. *)
Lemma AsyncWorker_delete_run h self :
  res (AsyncWorker_delete P h self) = Ok tt
  ∧ emitted (AsyncWorker_delete P h self)
    = (EvHost <$> emitted (AsyncWorker_dtor P (host_events h) self)) ++ [EvDelete].
Proof.
  pose proof (AsyncWorker_dtor_returns (host_events h) self) as Hr.
  unfold AsyncWorker_delete, lift. unfold_monad.
  destruct (AsyncWorker_dtor P (host_events h) self) as [r s1 l1].
  simpl in Hr. subst r. simpl. done.
Qed.


(** It releases the callback and the receiver reference, each unless the
    holder is empty or its release is suppressed. *)
Lemma AsyncWorker_dtor_releases_refs h self :
  released_refs (emitted (AsyncWorker_dtor P h self))
  = (if negb (is_null (Reference._ref (AsyncWorker._callback self)))
        && negb (Reference._suppressDestruct (AsyncWorker._callback self))
     then [Reference._ref (AsyncWorker._callback self)] else [])
    ++ (if negb (is_null (Reference._ref (AsyncWorker._receiver self)))
           && negb (Reference._suppressDestruct (AsyncWorker._receiver self))
        then [Reference._ref (AsyncWorker._receiver self)] else []).
Proof.
  unfold AsyncWorker_dtor, Reference_dtor, AsyncWorker.callback, AsyncWorker.receiver.
  unfold_monad. simpl.
  destruct (is_null (AsyncWorker._work self)); simpl;
    destruct (is_null (Reference._ref (AsyncWorker._callback self))); simpl;
    destruct (Reference._suppressDestruct (AsyncWorker._callback self)); simpl;
    destruct (is_null (Reference._ref (AsyncWorker._receiver self))); simpl;
    destruct (Reference._suppressDestruct (AsyncWorker._receiver self)); simpl;
    reflexivity.
Qed.
End UnitFacts.

Lemma error_absent (msg : string) : (String.length msg =? 0)%nat = true ↔ msg = "".
Proof.
  rewrite Nat.eqb_eq. destruct msg; simpl; split; intros H; done.
Qed.

(** ** The completion dispatch *)



Section ScopeFacts.
Context (P : Platform) {S : Type}.

Lemma HandleScope_ctor_accepted env h (s : S) :
  accepted (ev P h (napi_open_handle_scope env)) ->
  HandleScope_ctor P env h s
  = mkOut (Ok (HandleScope.mk env (out (host P h (napi_open_handle_scope env)))))
      s [ev P h (napi_open_handle_scope env)].
Proof.
  unfold accepted. simpl. intros Ha. apply status_ok_true in Ha.
  unfold HandleScope_ctor. unfold_monad. rewrite Ha. reflexivity.
Qed.

Lemma HandleScope_ctor_rejected env h (s : S) :
  ¬ accepted (ev P h (napi_open_handle_scope env)) ->
  HandleScope_ctor P env h s
  = prepend [ev P h (napi_open_handle_scope env)]
      (throw_Error_New P env (ev P h (napi_open_handle_scope env) :: h) s).
Proof.
  unfold accepted. simpl. intros Ha. apply status_ok_false in Ha.
  unfold HandleScope_ctor. unfold_monad. rewrite Ha. reflexivity.
Qed.

Lemma HandleScope_dtor_run scope h (s : S) :
  HandleScope_dtor P scope h s
  = mkOut (Ok tt) s
      [ev P h (napi_close_handle_scope (HandleScope._env scope) (HandleScope._scope scope))].
Proof. reflexivity. Qed.
End ScopeFacts.

#[local] Arguments AsyncWorker_delete : simpl never.
#[local] Arguments AsyncWorker_dtor : simpl never.
#[local] Arguments Error_New : simpl never.
#[local] Arguments Error_New_message : simpl never.
#[local] Arguments Error_ThrowAsJavaScriptException : simpl never.
#[local] Arguments Error_dtor : simpl never.
#[local] Arguments throw_Error_New : simpl never.
#[local] Arguments host_events : simpl never.



Section Dispatch.
Context (P : Platform) (V : Methods).

(** The dispatch for a status other than [napi_cancelled], by the
    outcome of the [try] statement, once the scope is open. *)
Lemma OnWorkComplete_run status h self :
  status ≠ napi_cancelled ->
  let open_ev := ev P (host_events h) (napi_open_handle_scope (AsyncWorker._env self)) in
  let close_ev l := ev P (host_events (rev l ++ EvHost open_ev :: h))
                      (napi_close_handle_scope (AsyncWorker._env self)
                         (out (ev_reply open_ev))) in
  accepted open_ev ->
  AsyncWorker_OnWorkComplete P V status h self
  = match try_catch (OnWorkComplete_try P V) (OnWorkComplete_catch P)
            (EvHost open_ev :: h) self with
    | mkOut (Ok _) s1 l1 =>
        prepend (EvHost open_ev :: l1 ++ [EvHost (close_ev l1)])
          (AsyncWorker_delete P (EvHost (close_ev l1) :: rev l1 ++ EvHost open_ev :: h) s1)
    | mkOut (Throw x) s1 l1 =>
        mkOut (Throw x) s1 (EvHost open_ev :: l1 ++ [EvHost (close_ev l1)])
    | mkOut Abort s1 l1 => mkOut Abort s1 (EvHost open_ev :: l1)
    end.
Proof.
  intros Hs open_ev close_ev Hopen.
  unfold AsyncWorker_OnWorkComplete.
  rewrite bool_decide_eq_true_2 by done.
  unfold mbind, M_bind, bind, get. cbn beta iota.
  unfold lift at 1. rewrite (HandleScope_ctor_accepted P _ _ _ Hopen).
  cbn beta iota. cbn [fmap list_fmap rev app].
  unfold finally. fold open_ev.
  destruct (try_catch _ _ _ _) as [[[]|x|] s1 l1]; simpl; [|reflexivity..].
  rewrite rev_app_distr. simpl. rewrite <- app_assoc. reflexivity.
Qed.

Lemma host_events_host e (h : list Event) : host_events (EvHost e :: h) = e :: host_events h.
Proof. reflexivity. Qed.

Lemma host_events_call m (h : list Event) : host_events (EvCall m :: h) = host_events h.
Proof. reflexivity. Qed.

Lemma calls_of_lift {S A} (m : M HostEv S A) h s : calls (emitted (lift m h s)) = [].
Proof. rewrite lift_emitted. apply calls_lifted. Qed.

Lemma calls_of_guarded_lift {S A} (m : M HostEv S A) (c : M HostEv S unit) h s :
  calls (emitted (finally (lift m) (lift c) h s)) = [].
Proof.
  unfold finally.
  pose proof (calls_of_lift m h s) as Hm.
  destruct (lift m h s) as [[a|x|] s1 l1]; simpl in *; [| |done].
  all: pose proof (calls_of_lift c (rev l1 ++ h) s1) as Hc;
       destruct (lift c (rev l1 ++ h) s1) as [r' s2 l2]; simpl in *;
       by rewrite calls_app, Hm, Hc.
Qed.

Lemma calls_of_delete h self : calls (emitted (AsyncWorker_delete P h self)) = [].
Proof.
  rewrite (proj2 (AsyncWorker_delete_run P h self)), calls_app, calls_lifted.
  reflexivity.
Qed.

(** The [try] block when no error message was captured. *)
Lemma OnWorkComplete_try_absent h self :
  AsyncWorker._error self = "" ->
  OnWorkComplete_try P V h self
  = prepend [EvCall CallOnOK] (lift (OnOK V) (EvCall CallOnOK :: h) self).
Proof.
  intros Hm. unfold OnWorkComplete_try.
  unfold mbind, M_bind, bind, get, emit. cbn beta iota.
  rewrite Hm. simpl. by rewrite prepend_nil.
Qed.

(** The [try] block when an error message was captured. *)
Lemma OnWorkComplete_try_present h self :
  AsyncWorker._error self ≠ "" ->
  OnWorkComplete_try P V h self
  = match lift (Error_New_message P (AsyncWorker._env self) (AsyncWorker._error self)) h self with
    | mkOut (Ok e) s1 l1 =>
        prepend l1
          (finally (emit (EvCall (CallOnError e));; lift (OnError V e))
                   (lift (Error_dtor P e)) (rev l1 ++ h) s1)
    | mkOut (Throw x) s1 l1 => mkOut (Throw x) s1 l1
    | mkOut Abort s1 l1 => mkOut Abort s1 l1
    end.
Proof.
  intros Hm. unfold OnWorkComplete_try.
  unfold mbind, M_bind. unfold bind at 1. unfold get. cbn beta iota.
  destruct (String.length (AsyncWorker._error self) =? 0)%nat eqn:Hl.
  { apply error_absent in Hl. contradiction. }
  rewrite prepend_nil. unfold bind at 1. reflexivity.
Qed.

(** Only the [try] block makes virtual calls; its handler makes none. *)
Lemma calls_of_try_statement h self :
  calls (emitted (try_catch (OnWorkComplete_try P V) (OnWorkComplete_catch P) h self))
  = calls (emitted (OnWorkComplete_try P V h self)).
Proof.
  unfold try_catch.
  destruct (OnWorkComplete_try P V h self) as [[a|x|] s1 l1]; [done| |done].
  destruct x as [e| |]; simpl; [|done..].
  rewrite emitted_prepend, calls_app, calls_of_guarded_lift. simpl.
  by rewrite app_nil_r.
Qed.

Lemma calls_of_OnError_call e h self :
  calls (emitted (finally (emit (EvCall (CallOnError e));; lift (OnError V e))
                          (lift (Error_dtor P e)) h self))
  = [CallOnError e].
Proof.
  unfold finally, mbind, M_bind, bind, emit. cbn beta iota.
  pose proof (calls_of_lift (OnError V e) (rev [EvCall (CallOnError e)] ++ h) self) as Hm.
  destruct (lift (OnError V e) _ self) as [[a|x|] s1 l1]; simpl in *; [| |by rewrite Hm].
  all: match goal with
       | |- context [lift (Error_dtor P ?ee) ?hh ?ss] =>
           pose proof (calls_of_lift (Error_dtor P ee) hh ss) as Hc;
           destruct (lift (Error_dtor P ee) hh ss) as [r' s2 l2]
       end; simpl in *; by rewrite calls_app, Hm, Hc.
Qed.

(** The virtual calls of the [try] block. *)
Lemma calls_of_try_block h self :
  calls (emitted (OnWorkComplete_try P V h self))
  = if (String.length (AsyncWorker._error self) =? 0)%nat then [CallOnOK]
    else match res (Error_New_message P (AsyncWorker._env self) (AsyncWorker._error self)
                      (host_events h) self) with
         | Ok e => [CallOnError e]
         | _ => []
         end.
Proof.
  destruct (String.length (AsyncWorker._error self) =? 0)%nat eqn:Hl.
  - apply error_absent in Hl. rewrite (OnWorkComplete_try_absent _ _ Hl).
    rewrite emitted_prepend, calls_app, calls_of_lift. reflexivity.
  - assert (Hm : AsyncWorker._error self ≠ "").
    { intros He. apply error_absent in He. congruence. }
    rewrite (OnWorkComplete_try_present _ _ Hm).
    pose proof (calls_of_lift
                  (Error_New_message P (AsyncWorker._env self) (AsyncWorker._error self))
                  h self) as Hc.
    rewrite <- lift_res.
    destruct (lift _ h self) as [[e|x|] s1 l1]; simpl in *; [|done..].
    rewrite emitted_prepend, calls_app, Hc, calls_of_OnError_call. reflexivity.
Qed.

(** The virtual calls of the whole dispatch are those of the [try] block. *)
Lemma calls_of_dispatch status h self :
  status ≠ napi_cancelled ->
  let open_ev := ev P (host_events h) (napi_open_handle_scope (AsyncWorker._env self)) in
  accepted open_ev ->
  calls (emitted (AsyncWorker_OnWorkComplete P V status h self))
  = calls (emitted (OnWorkComplete_try P V (EvHost open_ev :: h) self)).
Proof.
  intros Hs open_ev Hopen.
  rewrite (OnWorkComplete_run status h self Hs Hopen).
  rewrite <- calls_of_try_statement. fold open_ev.
  destruct (try_catch _ _ _ _) as [[[]|x|] s1 l1]; simpl.
  - rewrite emitted_prepend. simpl. rewrite !calls_app, calls_of_delete. simpl.
    by rewrite !app_nil_r.
  - rewrite calls_app. simpl. by rewrite app_nil_r.
  - reflexivity.
Qed.


(** The virtual calls of the dispatch, once the scope is open. *)
Lemma calls_of_open_dispatch status h self :
status ≠ napi_cancelled ->
let open_ev := ev P (host_events h) (napi_open_handle_scope (AsyncWorker._env self)) in
accepted open_ev ->
calls (emitted (AsyncWorker_OnWorkComplete P V status h self))
= if (String.length (AsyncWorker._error self) =? 0)%nat then [CallOnOK]
  else match res (Error_New_message P (AsyncWorker._env self) (AsyncWorker._error self)
                    (open_ev :: host_events h) self) with
       | Ok e => [CallOnError e]
       | _ => []
       end.
Proof.
intros Hs open_ev Hopen.
rewrite (calls_of_dispatch status h self Hs Hopen), calls_of_try_block.
by rewrite host_events_host.
Qed.
End Dispatch.




(** ** Exceptions out of [Execute] *)

Lemma OnExecute_captures_std_exception (V : Methods) h self what self' :
  Execute V self = (RaisesStd what, self') ->
  AsyncWorker_OnExecute V h self
  = mkOut (Ok tt) (AsyncWorker.set_error what self') [EvCall CallExecute].
Proof.
  intros He. unfold AsyncWorker_OnExecute, call_Execute, AsyncWorker_SetError.
  unfold_monad. rewrite He. reflexivity.
Qed.

Lemma OnExecute_lets_other_exceptions_escape (V : Methods) h self self' :
  Execute V self = (RaisesOther, self') ->
  res (AsyncWorker_OnExecute V h self) = Throw ExnOther.
Proof.
  intros He. unfold AsyncWorker_OnExecute, call_Execute.
  unfold_monad. rewrite He. reflexivity.
Qed.

(** C2, as amended.  When [Execute] raises an exception derived from
    [std::exception] whose [what()] text is not empty, [OnExecute]
    returns normally with that text stored as the unit's error message.
    When the host then completes the unit with a status other than
    [napi_cancelled] and opens the scope, [OnOK] is not called, and once
    the host error value is built from the text, [OnError] on that value
    is the only virtual call. *)
Theorem std_exception_with_text_reaches_OnError
    (P : Platform) (V : Methods) h self (what : string) self' :
  Execute V self = (RaisesStd what, self') ->
  what ≠ "" ->
  let ex := AsyncWorker_OnExecute V h self in
  res ex = Ok tt
  ∧ AsyncWorker._error (st ex) = what
  ∧ calls (emitted ex) = [CallExecute]
  ∧ ∀ status h',
      status ≠ napi_cancelled ->
      let open_ev := ev P (host_events h') (napi_open_handle_scope (AsyncWorker._env (st ex))) in
      let o := AsyncWorker_OnWorkComplete P V status h' (st ex) in
      accepted open_ev ->
      (CallOnOK ∉ calls (emitted o))
      ∧ (∀ e, res (Error_New_message P (AsyncWorker._env (st ex)) what
                     (open_ev :: host_events h') (st ex)) = Ok e ->
              calls (emitted o) = [CallOnError e]).
Proof.
  intros He Hw ex. subst ex. rewrite (OnExecute_captures_std_exception V h self what self' He).
  simpl. split; [done|]. split; [done|]. split; [done|].
  intros code h' Hc Hopen.
  rewrite (calls_of_open_dispatch P V code h' (AsyncWorker.set_error what self') Hc Hopen).
  simpl.
  destruct (String.length what =? 0)%nat eqn:Hl.
  { apply error_absent in Hl. contradiction. }
  split.
  - destruct (res (Error_New_message _ _ _ _ _)) as [e|x|]; intros Hin;
      [apply list_elem_of_singleton in Hin; discriminate
      |apply elem_of_nil in Hin; contradiction..].
  - by intros e ->.
Qed.

Lemma std_exception_with_text_reaches_OnError_witness :
  let V := default_methods (willing false) (λ w, (RaisesStd "disk read failed", w)) in
  let ex := AsyncWorker_OnExecute V [] sample_unit in
  let o := AsyncWorker_OnWorkComplete (willing false) V napi_ok (rev (emitted ex)) (st ex) in
  ("disk read failed" ≠ "" ∧ napi_ok ≠ napi_cancelled)
  ∧ res ex = Ok tt
  ∧ AsyncWorker._error (st ex) = "disk read failed"
  ∧ (CallOnOK ∉ calls (emitted o))
  ∧ calls (emitted o) = [CallOnError (Error.mk (Reference.mk 1 103 false) "")].
Proof.
  intros V ex o.
  assert (Hw : "disk read failed" ≠ "") by discriminate.
  assert (Hc : napi_ok ≠ napi_cancelled) by discriminate.
  destruct (std_exception_with_text_reaches_OnError (willing false) V [] sample_unit
              "disk read failed" sample_unit eq_refl Hw) as (H1 & H2 & _ & H4).
  destruct (H4 napi_ok (rev (emitted ex)) Hc eq_refl) as (H5 & H6).
  split; [exact (conj Hw Hc)|]. split; [exact H1|]. split; [exact H2|].
  split; [exact H5|]. apply H6. reflexivity.
Defined.

(** C2 as stated fails on two inputs.  An exception whose [what()] text
    is empty leaves the error message empty, so the completion calls
    [OnOK] and never [OnError]; an exception that is not derived from
    [std::exception] is not caught by [OnExecute] at all. *)
Lemma exception_without_text_counts_as_success :
  let V := default_methods (willing false) (λ w, (RaisesStd "", w)) in
  let ex := AsyncWorker_OnExecute V [] sample_unit in
  let o := AsyncWorker_OnWorkComplete (willing false) V napi_ok (rev (emitted ex)) (st ex) in
  (Execute V sample_unit).1 = RaisesStd ""
  ∧ res ex = Ok tt
  ∧ calls (emitted o) = [CallOnOK]
  ∧ res (AsyncWorker_OnExecute
           (default_methods (willing false) (λ w, (RaisesOther, w))) [] sample_unit)
    = Throw ExnOther.
Proof. repeat split. Qed.

(** Case analysis on the next status the code tests. *)
Ltac case_status :=
  match goal with
  | |- context [status_ok (status ?r)] =>
      let H := fresh "Hst" in destruct (status_ok (status r)) eqn:H; simpl
  end.

(** Case analysis on the outcome of the next [throw Error::New(env)]. *)
Ltac case_thrown :=
  match goal with
  | H : context [@throw_Error_New ?P ?S ?A ?env ?h ?s] |- _ =>
      let Hnr := fresh "Hnr" in
      pose proof (@throw_Error_New_not_returned P S A env h s) as Hnr;
      destruct (@throw_Error_New P S A env h s) as [[?|?|] ? ?]; simpl in Hnr, H;
      [discriminate Hnr|..]
  end.

(** Close a goal whose hypotheses say that every call was accepted while
    one of the statuses tested was not [napi_ok]. *)
Ltac some_rejected :=
  repeat match goal with
         | H : Forall accepted (_ :: _) |- _ =>
             apply Forall_cons_1 in H; destruct H as [? H]
         | H : Forall accepted (_ ++ _) |- _ =>
             apply Forall_app in H; destruct H as [? ?]
         end;
  repeat match goal with
         | H : accepted _ |- _ => unfold accepted in H; simpl in H
         | H : status_ok _ = false |- _ => apply status_ok_false in H
         end;
  contradiction.

(** ** Exceptions out of [OnOK] and [OnError] *)

Section Rethrow.
Context (P : Platform) {S : Type}.


(** [ThrowAsJavaScriptException] when the host accepts all it asks for. *)
Lemma ThrowAsJavaScriptException_run (e : Error.t) h (s : S) :
  let env := Reference._env (Error.base e) in
  let ref := Reference._ref (Error.base e) in
  let open_ev := ev P h (napi_open_handle_scope env) in
  let get_ev := ev P (open_ev :: h) (napi_get_reference_value env ref) in
  let throw_ev := ev P (get_ev :: open_ev :: h) (napi_throw env (out (ev_reply get_ev))) in
  let close_ev h' := ev P h' (napi_close_handle_scope env (out (ev_reply open_ev))) in
  Forall accepted (emitted (Error_ThrowAsJavaScriptException P e h s)) ->
  Error_ThrowAsJavaScriptException P e h s
  = mkOut (Ok tt) s
      (if is_null ref then [open_ev; close_ev (open_ev :: h)]
       else [open_ev; get_ev; throw_ev; close_ev (throw_ev :: get_ev :: open_ev :: h)]).
Proof.
  intros env ref open_ev get_ev throw_ev close_ev.
  subst open_ev get_ev throw_ev close_ev. unfold ev.
  unfold Error_ThrowAsJavaScriptException, with_HandleScope, HandleScope_ctor,
    HandleScope_dtor, Reference_IsEmpty, Reference_Value.
  fold env ref. unfold_monad. cbn beta iota.
  case_status; [|intros Hall; exfalso; case_thrown; some_rejected].
  destruct (is_null ref) eqn:Hn; simpl; [done|].
  case_status; [|intros Hall; exfalso; case_thrown; some_rejected].
  case_status; [|intros Hall; exfalso; case_thrown; some_rejected].
  done.
Qed.
End Rethrow.

Lemma Error_dtor_returns (P : Platform) {S} (e : Error.t) h (s : S) :
  res (Error_dtor P e h s) = Ok tt ∧ st (Error_dtor P e h s) = s.
Proof.
  unfold Error_dtor, on_temp.
  pose proof (proj1 (Reference_dtor_returns P (Error.base e) h)) as Hr.
  destruct (Reference_dtor P h (Error.base e)) as [r s1 l1]. simpl in *. by subst.
Qed.



Lemma host_events_rev_lifted (l : list HostEv) (h : list Event) :
  host_events (rev (EvHost <$> l) ++ h) = rev l ++ host_events h.
Proof.
  revert h. induction l as [|e l IH]; intros h; [reflexivity|].
  simpl. rewrite <- !app_assoc. simpl. rewrite IH. by rewrite host_events_host.
Qed.

(** An exception out of [OnOK] leaves the [try] block. *)
Lemma OnOK_exception_leaves_try_block (P : Platform) (V : Methods) h self x :
  AsyncWorker._error self = "" ->
  res (OnOK V (host_events h) self) = Throw x ->
  res (OnWorkComplete_try P V h self) = Throw x.
Proof.
  intros Hm Hx. rewrite (OnWorkComplete_try_absent P V h self Hm).
  by rewrite res_prepend, lift_res, host_events_call.
Qed.

(** An exception out of [OnError] leaves the [try] block, after the
    temporary error value has been destroyed. *)
Lemma OnError_exception_leaves_try_block (P : Platform) (V : Methods) h self e x :
  AsyncWorker._error self ≠ "" ->
  let built := Error_New_message P (AsyncWorker._env self) (AsyncWorker._error self)
                 (host_events h) self in
  res built = Ok e ->
  res (OnError V e (rev (emitted built) ++ host_events h) (st built)) = Throw x ->
  res (OnWorkComplete_try P V h self) = Throw x.
Proof.
  intros Hm built Hb Hx. rewrite (OnWorkComplete_try_present P V h self Hm).
  unfold lift at 1. fold built.
  destruct built as [r s1 l1]. simpl in *. subst r.
  rewrite res_prepend. unfold finally, mbind, M_bind, bind, emit. cbn beta iota.
  unfold lift at 1.
  replace (host_events (rev [EvCall (CallOnError e)] ++ rev (EvHost <$> l1) ++ h))
    with (rev l1 ++ host_events h).
  2:{ simpl. by rewrite host_events_call, host_events_rev_lifted. }
  destruct (OnError V e (rev l1 ++ host_events h) s1) as [r2 s2 l2].
  simpl in *. subst r2. simpl.
  match goal with
  | |- context [lift (Error_dtor P e) ?hh ?ss] =>
      pose proof (proj1 (Error_dtor_returns P e (host_events hh) ss)) as Hd;
      rewrite <- lift_res in Hd;
      destruct (lift (Error_dtor P e) hh ss) as [r3 s3 l3]
  end.
  simpl in *. by subst.
Qed.



(** ** The default handlers *)

(** Case analysis on the outcome of the next [throw Error::New(env)] in
    the goal, keeping that it does not return and invokes no callback. *)
Ltac case_thrown_in_goal no_callback :=
  match goal with
  | |- context [@throw_Error_New ?P ?S ?A ?env ?h ?s] =>
      let Hnr := fresh "Hnr" in
      let Hnc := fresh "Hnc" in
      pose proof (@throw_Error_New_not_returned P S A env h s) as Hnr;
      pose proof (no_callback S A env h s) as Hnc;
      destruct (@throw_Error_New P S A env h s) as [[?|?|] ? ?]; simpl in Hnr, Hnc;
      [discriminate Hnr|..]; simpl
  end.

Ltac not_all_accepted :=
  let H := fresh "Hall" in
  intros H;
  repeat match goal with
         | H : Forall accepted (_ :: _) |- _ =>
             apply Forall_cons_1 in H; destruct H as [? H]
         end;
  repeat match goal with
         | H : accepted _ |- _ => unfold accepted in H; simpl in H
         end;
  contradiction.

Section DefaultHandlers.
Context (P : Platform).

(** Translating a host error never invokes a callback. *)
Lemma no_callback_in_Error_New {S} env h (s : S) :
  callbacks_made (emitted (Error_New P env h s)) = [].
Proof.
  unfold Error_New, Error_ctor. unfold_monad. cbn beta iota.
  repeat match goal with
         | |- context [if ?b then _ else _] => destruct b eqn:?; simpl
         | |- context [match error_code ?i with _ => _ end] => destruct (error_code i); simpl
         end; reflexivity.
Qed.

Lemma no_callback_in_throw {S A} env h (s : S) :
  callbacks_made (emitted (throw_Error_New P (A := A) env h s)) = [].
Proof.
  unfold throw_Error_New. unfold_monad.
  pose proof (no_callback_in_Error_New env h s) as Hn.
  destruct (Error_New P env h s) as [[a|x|] s1 l1]; simpl in *;
    rewrite ?app_nil_r; exact Hn.
Qed.










End DefaultHandlers.



(** ** Rejections by the host *)

Section Rejections.
Context (P : Platform).

Lemma returns_or_asserts_bind {S A B} (m : M HostEv S A) (f : A -> M HostEv S B) h s :
  returns_or_asserts P (m h s) ->
  (∀ a h' s', returns_or_asserts P (f a h' s')) ->
  returns_or_asserts P ((m ≫= f) h s).
Proof.
  unfold returns_or_asserts, mbind, M_bind, bind.
  destruct (m h s) as [[a|x|] s1 l1]; simpl; intros Hm Hf.
  - rewrite res_prepend. apply Hf.
  - destruct Hm as [?|[? _]]; done.
  - destruct Hm as [?|[_ ?]]; [done|by right].
Qed.

Lemma returns_or_asserts_assert {S} (b : bool) h (s : S) :
  returns_or_asserts P (assert P b h s).
Proof.
  unfold returns_or_asserts, assert.
  destruct b; simpl; [by left|]. destruct (ndebug P); simpl; [by left|by right].
Qed.

Ltac returns_or_asserts_step :=
  match goal with
  | |- returns_or_asserts _ ((_ ≫= _) _ _) =>
      apply returns_or_asserts_bind; [|intros ? ? ?]
  | |- returns_or_asserts _ (assert _ _ _ _) => apply returns_or_asserts_assert
  | |- returns_or_asserts _ ((if ?b then _ else _) _ _) => destruct b
  | |- returns_or_asserts _ _ => by left
  end.

Lemma Error_ctor_outcome {S} env value h (s : S) :
  returns_or_asserts P (Error_ctor P env value h s).
Proof. unfold Error_ctor. repeat returns_or_asserts_step. Qed.

(** The translation of the host's error returns an [Error], unless an
    assertion that is compiled in fails. *)
Lemma Error_New_outcome {S} env h (s : S) :
  returns_or_asserts P (Error_New P env h s).
Proof.
  unfold Error_New.
  repeat first [apply Error_ctor_outcome | returns_or_asserts_step].
Qed.

Lemma throw_Error_New_outcome {S A} env h (s : S) :
  (∃ e, res (throw_Error_New P (A := A) env h s) = Throw (ExnError e))
  ∨ (res (throw_Error_New P (A := A) env h s) = Abort ∧ ndebug P = false).
Proof.
  unfold throw_Error_New. unfold_monad.
  destruct (Error_New_outcome env h s) as [Hr|[Ha Hd]].
  - destruct (Error_New P env h s) as [[e|x|] s1 l1]; simpl in *; try done.
    left. by exists e.
  - destruct (Error_New P env h s) as [[e|x|] s1 l1]; simpl in *; try done.
    by right.
Qed.

(** A call whose status is tested, followed by [k] when it was accepted. *)
Lemma checked_call {S A} (c : HostCall) env (k : Reply -> M HostEv S A) h (s : S) :
  (accepted (ev P h c) -> throws_iff_rejected P (k (host P h c) (ev P h c :: h) s)) ->
  throws_iff_rejected P
    ((r ← call P c; if negb (status_ok (status r)) then throw_Error_New P env else k r) h s).
Proof.
  intros Hk. unfold throws_iff_rejected. unfold_monad. cbn beta iota. simpl rev. simpl app.
  fold (ev P h c).
  destruct (status_ok (status (host P h c))) eqn:Hst; simpl.
  - apply status_ok_true in Hst. destruct (Hk Hst) as [Hiff Hthrow].
    rewrite res_prepend, emitted_prepend. simpl. split; [|done].
    rewrite Hiff. split; [intros Hall; by constructor|intros Hall; by inversion Hall].
  - apply status_ok_false in Hst. rewrite res_prepend, emitted_prepend. simpl.
    pose proof (throw_Error_New_not_returned P (A := A) env (ev P h c :: h) s) as Hnr.
    split; [split; [by rewrite Hnr|intros Hall; by inversion Hall]|].
    intros _. apply throw_Error_New_outcome.
Qed.

Lemma checked_ret {S A} (a : A) h (s : S) : throws_iff_rejected P (ret a h s).
Proof. split; [split; [constructor|done]|done]. Qed.

Lemma checked_bind {S A B} (m : M HostEv S A) (f : A -> M HostEv S B) h s :
  throws_iff_rejected P (m h s) ->
  (∀ a, res (m h s) = Ok a ->
        throws_iff_rejected P (f a (rev (emitted (m h s)) ++ h) (st (m h s)))) ->
  throws_iff_rejected P ((m ≫= f) h s).
Proof.
  unfold throws_iff_rejected, mbind, M_bind, bind.
  destruct (m h s) as [[a|x|] s1 l1]; simpl; intros [Hiff Hthrow] Hf.
  2,3: split; [exact Hiff|]; intros _;
       destruct (Hthrow eq_refl) as [[e He]|[Ha Hd]];
       [left; exists e; congruence|right; split; [congruence|done]..].
  destruct (Hf a eq_refl) as [Hiff' Hthrow'].
  rewrite res_prepend, emitted_prepend. split; [|done].
  rewrite Hiff', Forall_app. split; [intros ?; split; [by apply Hiff|done]|by intros [_ ?]].
Qed.

(** Unwinding through the destructor of a holder keeps the exception. *)
Lemma checked_unwinding {S A} (m : M HostEv S A) (r : Reference.t) h s :
  throws_iff_rejected P (m h s) ->
  throws_iff_rejected P (unwinding m (on_temp r (Reference_dtor P)) h s).
Proof.
  unfold throws_iff_rejected, unwinding, try_catch.
  destruct (m h s) as [[a|x|] s1 l1]; simpl; intros [Hiff Hthrow];
    [exact (conj Hiff Hthrow)| |exact (conj Hiff Hthrow)].
  unfold mbind, M_bind, bind, on_temp, throw.
  pose proof (proj1 (Reference_dtor_returns P r (rev l1 ++ h))) as Hd.
  destruct (Reference_dtor P (rev l1 ++ h) r) as [r2 s2 l2]. simpl in Hd. subst r2. simpl.
  rewrite app_nil_r. split; [|done].
  split; [done|]. intros Hall. apply Forall_app in Hall. apply Hiff, Hall.
Qed.

Lemma checked_pure {S A} (o : Out HostEv S A) :
  returned (res o) = true -> emitted o = [] -> throws_iff_rejected P o.
Proof.
  intros Hr He. unfold throws_iff_rejected. rewrite Hr, He.
  split; [split; [constructor|done]|done].
Qed.

Lemma checked_Reference_New {S} (v : Value.t) (n : N) h (s : S) :
  throws_iff_rejected P (Reference_New P v n h s).
Proof.
  unfold Reference_New. destruct (is_null (Value._value v)).
  - by apply checked_pure.
  - apply (checked_call _ _ (λ r, Reference_ctor P (Value._env v) (out r))).
    intros _. by apply checked_pure.
Qed.

Lemma checked_converted {S} (v : Value.t) (n : N) h (s : S) :
  throws_iff_rejected P ((r ← Reference_New P v n; Reference_convert P r) h s).
Proof.
  apply checked_bind; [apply checked_Reference_New|].
  intros r _. apply checked_pure; by rewrite Reference_convert_run.
Qed.

Lemma checked_Object_New {S} env h (s : S) :
  throws_iff_rejected P (Object_New P env h s).
Proof.
  unfold Object_New.
  apply (checked_call _ _ (λ r, ret (Value.mk env (out r)))).
  intros _. apply checked_ret.
Qed.

Lemma checked_ctor {S} this receiver callback h (s : S) :
  throws_iff_rejected P (AsyncWorker_ctor P this receiver callback h s).
Proof.
  unfold AsyncWorker_ctor.
  apply checked_bind; [apply checked_converted|]. intros recv _.
  apply checked_unwinding.
  apply checked_bind; [apply checked_converted|]. intros cb _.
  apply checked_unwinding.
  apply (checked_call _ _ (λ r, ret (AsyncWorker.mk (Value._env callback) (out r) recv cb ""))).
  intros _. apply checked_ret.
Qed.

Lemma checked_ctor_callback {S} this callback h (s : S) :
  throws_iff_rejected P (AsyncWorker_ctor_callback P this callback h s).
Proof.
  unfold AsyncWorker_ctor_callback.
  apply checked_bind; [apply checked_Object_New|]. intros recv _. apply checked_ctor.
Qed.

Lemma checked_Queue h self : throws_iff_rejected P (AsyncWorker_Queue P h self).
Proof.
  unfold AsyncWorker_Queue.
  apply checked_bind; [by apply checked_pure|]. intros w _.
  apply (checked_call _ _ (λ _, ret tt)). intros _. apply checked_ret.
Qed.

Lemma checked_Cancel h self : throws_iff_rejected P (AsyncWorker_Cancel P h self).
Proof.
  unfold AsyncWorker_Cancel.
  apply checked_bind; [by apply checked_pure|]. intros w _.
  apply (checked_call _ _ (λ _, ret tt)). intros _. apply checked_ret.
Qed.

(** [Queue] and [Cancel] make their one call first. *)
Lemma Queue_first_call h self :
  head (emitted (AsyncWorker_Queue P h self))
  = Some (ev P h (napi_queue_async_work (AsyncWorker._env self) (AsyncWorker._work self)))
  ∧ (accepted (ev P h (napi_queue_async_work (AsyncWorker._env self) (AsyncWorker._work self)))
     -> emitted (AsyncWorker_Queue P h self)
        = [ev P h (napi_queue_async_work (AsyncWorker._env self) (AsyncWorker._work self))]).
Proof.
  unfold AsyncWorker_Queue. unfold_monad. cbn beta iota. simpl.
  rewrite !emitted_prepend. simpl. split; [done|].
  unfold accepted. simpl. intros Ha. apply status_ok_true in Ha. by rewrite Ha.
Qed.

Lemma Cancel_first_call h self :
  head (emitted (AsyncWorker_Cancel P h self))
  = Some (ev P h (napi_cancel_async_work (AsyncWorker._env self) (AsyncWorker._work self)))
  ∧ (accepted (ev P h (napi_cancel_async_work (AsyncWorker._env self) (AsyncWorker._work self)))
     -> emitted (AsyncWorker_Cancel P h self)
        = [ev P h (napi_cancel_async_work (AsyncWorker._env self) (AsyncWorker._work self))]).
Proof.
  unfold AsyncWorker_Cancel. unfold_monad. cbn beta iota. simpl.
  rewrite !emitted_prepend. simpl. split; [done|].
  unfold accepted. simpl. intros Ha. apply status_ok_true in Ha. by rewrite Ha.
Qed.
End Rejections.

(** C4, as amended.  Each constructor, [Queue] and [Cancel] return
    exactly when the host accepted every ABI call they made, and
    otherwise throw a translated [Error] to their caller (or abort on a
    failed assertion inside the translation, where assertions are
    compiled in).  For [Queue] and [Cancel] the only call that decides is
    their own; for the constructors it is any of capturing the two
    references, creating the default receiver and registering the work. *)
Theorem bridge_operations_throw_iff_rejected
    (P : Platform) (this : ptr) (receiver callback : Value.t) h (self : AsyncWorker.t) :
  let queue := ev P h (napi_queue_async_work (AsyncWorker._env self) (AsyncWorker._work self)) in
  let cancel := ev P h (napi_cancel_async_work (AsyncWorker._env self) (AsyncWorker._work self)) in
  throws_iff_rejected P (AsyncWorker_ctor P this receiver callback h tt)
  ∧ throws_iff_rejected P (AsyncWorker_ctor_callback P this callback h tt)
  ∧ (throws_iff_rejected P (AsyncWorker_Queue P h self)
     ∧ (returned (res (AsyncWorker_Queue P h self)) = true ↔ accepted queue))
  ∧ (throws_iff_rejected P (AsyncWorker_Cancel P h self)
     ∧ (returned (res (AsyncWorker_Cancel P h self)) = true ↔ accepted cancel)).
Proof.
  intros queue cancel.
  split; [apply checked_ctor|]. split; [apply checked_ctor_callback|]. split.
  - pose proof (checked_Queue P h self) as Hc. split; [exact Hc|].
    destruct Hc as [Hiff _]. destruct (Queue_first_call P h self) as [Hhead Hone].
    fold queue in Hhead, Hone. rewrite Hiff. split.
    + intros Hall. destruct (emitted (AsyncWorker_Queue P h self)); [done|].
      injection Hhead as ->. by inversion Hall.
    + intros Ha. rewrite (Hone Ha). by repeat constructor.
  - pose proof (checked_Cancel P h self) as Hc. split; [exact Hc|].
    destruct Hc as [Hiff _]. destruct (Cancel_first_call P h self) as [Hhead Hone].
    fold cancel in Hhead, Hone. rewrite Hiff. split.
    + intros Hall. destruct (emitted (AsyncWorker_Cancel P h self)); [done|].
      injection Hhead as ->. by inversion Hall.
    + intros Ha. rewrite (Hone Ha). by repeat constructor.
Qed.

Lemma bridge_operations_throw_iff_rejected_witness :
  let refuse_queue := grudging (λ c, bool_decide (c = napi_queue_async_work 1 2)) in
  (∃ u, res (AsyncWorker_ctor (willing false) 50 (Value.mk 1 6) (Value.mk 1 7) [] tt) = Ok u)
  ∧ res (AsyncWorker_Queue (willing false) [] sample_unit) = Ok tt
  ∧ (∃ e, res (AsyncWorker_Queue refuse_queue [] sample_unit) = Throw (ExnError e))
  ∧ res (AsyncWorker_Cancel refuse_queue [] sample_unit) = Ok tt.
Proof.
  intros refuse_queue.
  destruct (bridge_operations_throw_iff_rejected (willing false) 50 (Value.mk 1 6)
              (Value.mk 1 7) [] sample_unit) as ([Hctor _] & _ & [_ Hq] & _).
  destruct (bridge_operations_throw_iff_rejected refuse_queue 50 (Value.mk 1 6)
              (Value.mk 1 7) [] sample_unit) as (_ & _ & [[_ Hthrow] Hq'] & [_ Hc]).
  split; [|split; [|split]].
  - assert (Hr : returned (res (AsyncWorker_ctor (willing false) 50 (Value.mk 1 6)
                                  (Value.mk 1 7) [] tt)) = true)
      by (apply Hctor; repeat constructor).
    destruct (res (AsyncWorker_ctor _ _ _ _ _ _)) as [u| |]; [by exists u|done..].
  - assert (Hr : returned (res (AsyncWorker_Queue (willing false) [] sample_unit)) = true)
      by (apply Hq; reflexivity).
    by destruct (res (AsyncWorker_Queue _ _ _)) as [[]| |].
  - destruct (Hthrow eq_refl) as [He|[Ha _]]; [exact He|discriminate Ha].
  - assert (Hr : returned (res (AsyncWorker_Cancel refuse_queue [] sample_unit)) = true)
      by (apply Hc; reflexivity).
    by destruct (res (AsyncWorker_Cancel _ _ _)) as [[]| |].
Defined.

(** C4 as stated fails for the constructor: when the host rejects the
    capture of the receiver reference, the constructor throws although
    [napi_create_async_work] returned no status at all: it was never
    called. *)
Lemma constructor_throws_before_registration :
  let P := grudging (λ c, bool_decide (c = napi_create_reference 1 6 1)) in
  let o := AsyncWorker_ctor P 50 (Value.mk 1 6) (Value.mk 1 7) [] tt in
  (∃ e, res o = Throw (ExnError e))
  ∧ head (emitted o) = Some (ev P [] (napi_create_reference 1 6 1))
  ∧ ∀ c, c ∈ emitted o -> ∀ env data, ev_call c ≠ napi_create_async_work env data.
Proof.
  intros P o. split; [eexists; reflexivity|]. split; [reflexivity|].
  intros c Hc env data.
  cbv in Hc.
  repeat (apply elem_of_cons in Hc as [->|Hc]; [discriminate|]).
  by apply elem_of_nil in Hc.
Qed.

(** ** Construction *)

(** Decide what remains by the flags and handles the destructors test. *)
Ltac by_cases_on_flags :=
  repeat (rewrite ?res_prepend; simpl;
          try match goal with
              | |- context [if ?b then _ else _] => destruct b
              end);
  reflexivity.

Section Construction.
Context (P : Platform).

(** The two-argument constructor on non-empty arguments: the unit it
    builds when the host accepts its three calls. *)
Lemma AsyncWorker_ctor_run this (receiver callback : Value.t) h :
  Value._value receiver ≠ nullptr ->
  Value._value callback ≠ nullptr ->
  let env := Value._env callback in
  let c1 := ev P h (napi_create_reference (Value._env receiver) (Value._value receiver) 1) in
  let c2 := ev P (c1 :: h) (napi_create_reference env (Value._value callback) 1) in
  let c3 := ev P (c2 :: c1 :: h) (napi_create_async_work env this) in
  let o := AsyncWorker_ctor P this receiver callback h tt in
  (Forall accepted [c1; c2; c3] ->
   o = mkOut (Ok (AsyncWorker.mk env (out (ev_reply c3))
                    (Reference.mk (Value._env receiver) (out (ev_reply c1))
                       (indeterminate P (c1 :: h)))
                    (Reference.mk env (out (ev_reply c2))
                       (indeterminate P (c2 :: c1 :: h)))
                    ""))
         tt [c1; c2; c3])
  ∧ (¬ Forall accepted [c1; c2; c3] -> returned (res o) = false).
Proof.
  intros Hr Hc env c1 c2 c3 o. subst o c3 c2 c1. unfold ev.
  apply is_null_false in Hr. apply is_null_false in Hc.
  unfold AsyncWorker_ctor, Persistent_Object, Persistent_Function, Reference_New,
    Reference_convert, Reference_move_ctor, Reference_ctor, Reference_dtor, unwinding.
  rewrite Hr, Hc. fold env. unfold_monad. cbn beta iota. simpl.
  case_status.
  2:{ apply status_ok_false in Hst. split; [not_all_accepted|intros _].
      case_thrown_in_goal (@no_callback_in_throw P); by_cases_on_flags. }
  apply status_ok_true in Hst. case_status.
  2:{ apply status_ok_false in Hst0. split; [not_all_accepted|intros _].
      case_thrown_in_goal (@no_callback_in_throw P); by_cases_on_flags. }
  apply status_ok_true in Hst0. case_status.
  2:{ apply status_ok_false in Hst1. split; [not_all_accepted|intros _].
      case_thrown_in_goal (@no_callback_in_throw P); by_cases_on_flags. }
  apply status_ok_true in Hst1. split; [done|].
  intros Hn. exfalso. apply Hn. by repeat constructor.
Qed.

(** The one-argument constructor asks the host for a new object and
    delegates to the two-argument constructor with it as receiver. *)
Lemma AsyncWorker_ctor_callback_run this (callback : Value.t) h :
  let env := Value._env callback in
  let c0 := ev P h (napi_create_object env) in
  (accepted c0 ->
   AsyncWorker_ctor_callback P this callback h tt
   = prepend [c0] (AsyncWorker_ctor P this (Value.mk env (out (ev_reply c0))) callback
                     (c0 :: h) tt))
  ∧ (¬ accepted c0 -> returned (res (AsyncWorker_ctor_callback P this callback h tt)) = false).
Proof.
  intros env c0. subst c0. unfold ev, accepted. simpl.
  split; intros Ha; unfold AsyncWorker_ctor_callback, Object_New; fold env;
    unfold mbind, M_bind, mret, M_ret; unfold bind at 1; unfold bind at 1;
    unfold call, ret; cbn beta iota; simpl rev; simpl app.
  - apply status_ok_true in Ha. rewrite Ha. simpl. reflexivity.
  - apply status_ok_false in Ha. rewrite Ha. simpl.
    case_thrown_in_goal (@no_callback_in_throw P); reflexivity.
Qed.
End Construction.

(** C6, as amended.  Given a non-empty receiver and a non-empty callback,
    a unit that the two-argument constructor returns holds in
    [_receiver] and [_callback] the references the host registered, each
    with initial count 1, on the receiver and on the callback; these two
    registrations and the registration of the work are the only calls
    made, and the constructor returns whenever the host accepts them.
    The one-argument constructor first has the host create a new object
    and then behaves as the two-argument constructor with that object as
    receiver. *)
Theorem constructors_capture_persistent_references
    (P : Platform) (this : ptr) (receiver callback : Value.t) h :
  Value._value receiver ≠ nullptr ->
  Value._value callback ≠ nullptr ->
  let env := Value._env callback in
  let c1 := ev P h (napi_create_reference (Value._env receiver) (Value._value receiver) 1) in
  let c2 := ev P (c1 :: h) (napi_create_reference env (Value._value callback) 1) in
  let c3 := ev P (c2 :: c1 :: h) (napi_create_async_work env this) in
  let o := AsyncWorker_ctor P this receiver callback h tt in
  let c0 := ev P h (napi_create_object env) in
  let o1 := AsyncWorker_ctor_callback P this callback h tt in
  (∀ u, res o = Ok u ->
        emitted o = [c1; c2; c3] ∧ Forall accepted [c1; c2; c3]
        ∧ Reference._env (AsyncWorker._receiver u) = Value._env receiver
        ∧ Reference._ref (AsyncWorker._receiver u) = out (ev_reply c1)
        ∧ Reference._env (AsyncWorker._callback u) = env
        ∧ Reference._ref (AsyncWorker._callback u) = out (ev_reply c2)
        ∧ AsyncWorker._work u = out (ev_reply c3))
  ∧ (Forall accepted [c1; c2; c3] -> returned (res o) = true)
  ∧ (∀ u, res o1 = Ok u ->
          accepted c0
          ∧ o1 = prepend [c0] (AsyncWorker_ctor P this (Value.mk env (out (ev_reply c0)))
                                 callback (c0 :: h) tt)).
Proof.
  intros Hr Hc env c1 c2 c3 o c0 o1.
  destruct (AsyncWorker_ctor_run P this receiver callback h Hr Hc) as [Hacc Hrej].
  fold env c1 c2 c3 o in Hacc, Hrej.
  destruct (AsyncWorker_ctor_callback_run P this callback h) as [Hacc1 Hrej1].
  fold env c0 o1 in Hacc1, Hrej1.
  split; [|split].
  - intros u Hu.
    destruct (decide (Forall accepted [c1; c2; c3])) as [Hall|Hall].
    + rewrite (Hacc Hall) in Hu |- *. simpl in Hu. injection Hu as <-. done.
    + specialize (Hrej Hall). rewrite Hu in Hrej. done.
  - intros Hall. by rewrite (Hacc Hall).
  - intros u Hu. destruct (decide (accepted c0)) as [Ha|Ha].
    + split; [exact Ha|exact (Hacc1 Ha)].
    + specialize (Hrej1 Ha). rewrite Hu in Hrej1. done.
Qed.

Lemma constructors_capture_persistent_references_witness :
  let P := willing false in
  (Value._value (Value.mk 1 6) ≠ nullptr ∧ Value._value (Value.mk 1 7) ≠ nullptr)
  ∧ res (AsyncWorker_ctor P 50 (Value.mk 1 6) (Value.mk 1 7) [] tt)
    = Ok (AsyncWorker.mk 1 102 (Reference.mk 1 100 false) (Reference.mk 1 101 false) "")
  ∧ emitted (AsyncWorker_ctor P 50 (Value.mk 1 6) (Value.mk 1 7) [] tt)
    = [ev P [] (napi_create_reference 1 6 1);
       ev P [ev P [] (napi_create_reference 1 6 1)] (napi_create_reference 1 7 1);
       ev P [ev P [ev P [] (napi_create_reference 1 6 1)] (napi_create_reference 1 7 1);
             ev P [] (napi_create_reference 1 6 1)] (napi_create_async_work 1 50)].
Proof.
  intros P.
  assert (H6 : Value._value (Value.mk 1 6) ≠ nullptr) by discriminate.
  assert (H7 : Value._value (Value.mk 1 7) ≠ nullptr) by discriminate.
  destruct (constructors_capture_persistent_references P 50 (Value.mk 1 6) (Value.mk 1 7)
              [] H6 H7) as (Hu & _ & _).
  split; [exact (conj H6 H7)|]. split; [reflexivity|].
  exact (proj1 (Hu _ eq_refl)).
Defined.

(** C6 as stated fails for an empty receiver: [Reference<T>::New] returns
    an empty holder for it, so the unit is built without any reference to
    a receiver, and only the callback is registered with the host. *)
Lemma empty_receiver_is_not_captured :
  let P := willing false in
  let o := AsyncWorker_ctor P 50 (Value.mk 1 nullptr) (Value.mk 1 7) [] tt in
  res o = Ok (AsyncWorker.mk 1 101 (Reference.mk 1 nullptr false) (Reference.mk 1 100 false) "")
  ∧ emitted o = [ev P [] (napi_create_reference 1 7 1);
                 ev P [ev P [] (napi_create_reference 1 7 1)] (napi_create_async_work 1 50)].
Proof. split; reflexivity. Qed.

(** ** Moves *)

Section Moves.
Context (P : Platform).

Lemma deleted_works_app (l k : list HostEv) :
  deleted_works (l ++ k) = deleted_works l ++ deleted_works k.
Proof. apply omap_app. Qed.

(** Translating a host error deletes no work-queue entry. *)
Lemma no_work_deleted_in_Error_New {S} env h (s : S) :
  deleted_works (emitted (Error_New P env h s)) = [].
Proof.
  unfold Error_New, Error_ctor. unfold_monad. cbn beta iota.
  repeat match goal with
         | |- context [if ?b then _ else _] => destruct b eqn:?; simpl
         | |- context [match error_code ?i with _ => _ end] => destruct (error_code i); simpl
         end; reflexivity.
Qed.

Lemma no_work_deleted_in_throw {S A} env h (s : S) :
  deleted_works (emitted (throw_Error_New P (A := A) env h s)) = [].
Proof.
  unfold throw_Error_New. unfold_monad.
  pose proof (no_work_deleted_in_Error_New env h s) as Hn.
  destruct (Error_New P env h s) as [[a|x|] s1 l1]; simpl in *;
    rewrite ?app_nil_r; exact Hn.
Qed.

Lemma no_work_deleted_in_Reset h (r : Reference.t) :
  deleted_works (emitted (Reference_Reset P h r)) = [].
Proof.
  unfold Reference_Reset. unfold_monad. cbn beta iota.
  destruct (is_null (Reference._ref r)); simpl; [reflexivity|].
  case_status; [reflexivity|].
  match goal with
  | |- context [@throw_Error_New ?P ?S ?A ?env ?h ?s] =>
      pose proof (@no_work_deleted_in_throw S A env h s) as Hn;
      destruct (@throw_Error_New P S A env h s) as [[?|?|] ? ?]
  end; simpl in *; exact Hn.
Qed.

Lemma work_of_insert a w (σ : Store) :
  work_of (<[a := w]> σ) = <[a := work_fields w]> (work_of σ).
Proof. unfold work_of. apply fmap_insert. Qed.

Lemma work_of_lookup a (σ : Store) :
  work_of σ !! a = work_fields <$> σ !! a.
Proof. unfold work_of. apply lookup_fmap. Qed.

Lemma work_of_is_Some a (σ σ' : Store) :
  work_of σ' = work_of σ -> is_Some (σ !! a) -> is_Some (σ' !! a).
Proof.
  intros Hw [w Hl]. assert (Ha : work_of σ' !! a = work_of σ !! a) by by rewrite Hw.
  rewrite !work_of_lookup, Hl in Ha. destruct (σ' !! a); [done|discriminate].
Qed.

Section AtTwoUnits.
Context (a b : N).

Lemma leaves_work_alone_bind {A B} (m : M HostEv Store A) (f : A -> M HostEv Store B) :
  leaves_work_alone a b m -> (∀ x, leaves_work_alone a b (f x)) ->
  leaves_work_alone a b (m ≫= f).
Proof.
  intros Hm Hf h σ Ha Hb. destruct (Hm h σ Ha Hb) as [Hw Hd].
  unfold mbind, M_bind, bind.
  destruct (m h σ) as [[x|x|] σ1 l1]; simpl in *; [|done..].
  destruct (Hf x (rev l1 ++ h) σ1) as [Hw' Hd'];
    [by apply (work_of_is_Some a σ σ1)|by apply (work_of_is_Some b σ σ1)|].
  rewrite st_prepend, emitted_prepend, deleted_works_app, Hd, Hd', Hw', Hw. done.
Qed.

Lemma leaves_work_alone_gets {A} (f : Store -> A) : leaves_work_alone a b (gets f).
Proof. by intros h σ _ _. Qed.

(** Writing to a member other than [_env] and [_work] of a unit alive. *)
Lemma leaves_work_alone_modify (c : N) (f : AsyncWorker.t -> AsyncWorker.t) :
  c = a ∨ c = b ->
  (∀ w, AsyncWorker._env (f w) = AsyncWorker._env w
        ∧ AsyncWorker._work (f w) = AsyncWorker._work w) ->
  leaves_work_alone a b (modify_at (unit_at c) f).
Proof.
  intros Hc Hf h σ Ha Hb. unfold modify_at, modify. simpl. split; [|done].
  assert (Hs : is_Some (σ !! c)) by (destruct Hc as [->| ->]; done).
  destruct Hs as [w Hw]. rewrite Hw. simpl.
  rewrite work_of_insert.
  replace (work_fields (f w)) with (work_fields w)
    by (unfold work_fields; by destruct (Hf w) as [-> ->]).
  apply insert_id. by rewrite work_of_lookup, Hw.
Qed.

Lemma leaves_work_alone_modify_ref (c : N) (l : Lens AsyncWorker.t Reference.t)
    (f : Reference.t -> Reference.t) :
  c = a ∨ c = b -> l = AsyncWorker.receiver ∨ l = AsyncWorker.callback ->
  leaves_work_alone a b (modify_at (lens_compose (unit_at c) l) f).
Proof.
  intros Hc Hl.
  apply (leaves_work_alone_modify c (λ w, update l (f (view l w)) w) Hc).
  intros w. by destruct Hl as [-> | ->].
Qed.

Lemma leaves_work_alone_Reset (c : N) (l : Lens AsyncWorker.t Reference.t) :
  c = a ∨ c = b -> l = AsyncWorker.receiver ∨ l = AsyncWorker.callback ->
  leaves_work_alone a b (zoom (lens_compose (unit_at c) l) (Reference_Reset P)).
Proof.
  intros Hc Hl h σ Ha Hb. unfold zoom.
  pose proof (no_work_deleted_in_Reset h (view (lens_compose (unit_at c) l) σ)) as Hd.
  destruct (Reference_Reset P h _) as [r t l1]. simpl in Hd. simpl st. simpl emitted.
  split; [|exact Hd].
  assert (Hs : is_Some (σ !! c)) by (destruct Hc as [->| ->]; done).
  destruct Hs as [w Hw]. simpl. rewrite Hw. simpl.
  rewrite work_of_insert.
  replace (work_fields (update l t w)) with (work_fields w)
    by (by destruct Hl as [-> | ->]).
  apply insert_id. by rewrite work_of_lookup, Hw.
Qed.

Lemma leaves_work_alone_move_assign (l : Lens AsyncWorker.t Reference.t) :
  l = AsyncWorker.receiver ∨ l = AsyncWorker.callback ->
  leaves_work_alone a b
    (Reference_move_assign P (lens_compose (unit_at a) l) (lens_compose (unit_at b) l)).
Proof.
  intros Hl. unfold Reference_move_assign.
  apply leaves_work_alone_bind; [apply leaves_work_alone_Reset; auto|intros _].
  apply leaves_work_alone_bind; [apply leaves_work_alone_gets|intros o].
  repeat (apply leaves_work_alone_bind;
          [apply leaves_work_alone_modify_ref; auto|intros _]).
  apply leaves_work_alone_modify_ref; auto.
Qed.
End AtTwoUnits.

Lemma move_body_split a b h σ :
  AsyncWorker_move_body P (unit_at a) (unit_at b) h σ
  = members_moved P a b h (fields_moved a b σ).
Proof.
  unfold AsyncWorker_move_body, members_moved, fields_moved.
  unfold mbind, M_bind.
  do 6 (unfold bind at 1; unfold gets, modify_at, modify; cbn beta iota;
        rewrite ?prepend_nil).
  reflexivity.
Qed.

Lemma members_moved_leave_work_alone a b : leaves_work_alone a b (members_moved P a b).
Proof.
  unfold members_moved.
  apply leaves_work_alone_bind; [apply leaves_work_alone_move_assign; auto|intros _].
  apply leaves_work_alone_bind; [apply leaves_work_alone_move_assign; auto|intros _].
  apply leaves_work_alone_bind; [apply leaves_work_alone_gets|intros o].
  apply leaves_work_alone_modify; [auto|done].
Qed.

(** The first four statements hand the fields of [b] over to [a]. *)
Lemma fields_moved_work a b (σ : Store) wb :
  σ !! b = Some wb ->
  work_of (fields_moved a b σ)
  = <[b := (nullptr, nullptr)]> (<[a := work_fields wb]> (work_of σ)).
Proof.
  intros Hb. unfold fields_moved. simpl.
  apply map_eq. intros k. rewrite work_of_lookup.
  destruct (decide (a = b)) as [->|Hab].
  - destruct (decide (k = b)) as [->|Hk]; simplify_map_eq; [done|].
    by rewrite work_of_lookup.
  - destruct (decide (k = b)) as [->|Hkb]; [by simplify_map_eq|].
    destruct (decide (k = a)) as [->|Hka]; simplify_map_eq.
    + unfold work_fields. simpl. done.
    + by rewrite work_of_lookup.
Qed.

Lemma fields_moved_alive a b (σ : Store) :
  is_Some (fields_moved a b σ !! a) ∧ is_Some (fields_moved a b σ !! b).
Proof.
  unfold fields_moved. simpl. split.
  - destruct (decide (a = b)) as [->|Hab]; simplify_map_eq; eauto.
  - simplify_map_eq. eauto.
Qed.

(** A move from the unit at [b] to the unit at [a], however it ends:
    [a] has the context and work entry [b] had, [b] has none, and the
    host was not asked to delete any work-queue entry. *)
Lemma move_body_work a b h (σ : Store) wb :
  σ !! b = Some wb ->
  let o := AsyncWorker_move_body P (unit_at a) (unit_at b) h σ in
  work_of (st o) = <[b := (nullptr, nullptr)]> (<[a := work_fields wb]> (work_of σ))
  ∧ deleted_works (emitted o) = [].
Proof.
  intros Hb o. subst o. rewrite move_body_split.
  destruct (fields_moved_alive a b σ) as [Ha' Hb'].
  destruct (members_moved_leave_work_alone a b h (fields_moved a b σ) Ha' Hb') as [Hw Hd].
  rewrite Hw, Hd. split; [|done]. by apply fields_moved_work.
Qed.

(** *** The invariant on ownership *)

Lemma owns_once_insert_null D m a e :
  owns_once D m -> owns_once D (<[a := (e, nullptr)]> m).
Proof.
  intros (Hnd & Hdel & Hone). split; [done|split].
  - intros k p Hk Hp. destruct (decide (k = a)) as [->|Hka]; simplify_map_eq; eauto.
  - intros k l p q Hk Hl Hpq Hp.
    destruct (decide (k = a)) as [->|Hka]; [by simplify_map_eq|].
    destruct (decide (l = a)) as [->|Hla]; simplify_map_eq; try congruence; eauto.
Qed.

Lemma owns_once_move D m a b p :
  owns_once D m -> m !! b = Some p ->
  owns_once D (<[b := (nullptr, nullptr)]> (<[a := p]> m)).
Proof.
  intros (Hnd & Hdel & Hone) Hb. split; [done|split].
  - intros k q Hk Hq. destruct (decide (k = b)) as [->|Hkb]; [by simplify_map_eq|].
    destruct (decide (k = a)) as [->|Hka]; simplify_map_eq; eauto.
  - intros k l q r Hk Hl Hqr Hq.
    destruct (decide (k = b)) as [->|Hkb]; [by simplify_map_eq|].
    destruct (decide (l = b)) as [->|Hlb]; [simplify_map_eq; congruence|].
    destruct (decide (k = a)) as [->|Hka]; destruct (decide (l = a)) as [->|Hla];
      simplify_map_eq; [done| | |by eauto].
    + exfalso. apply Hlb. symmetry. by apply (Hone b l q r).
    + exfalso. apply Hkb. by apply (Hone k b q r).
Qed.

Lemma owns_once_delete D m a p :
  owns_once D m -> m !! a = Some p ->
  owns_once (if is_null p.2 then D else p.2 :: D) (delete a m).
Proof.
  intros (Hnd & Hdel & Hone) Ha.
  destruct (is_null p.2) eqn:Hn.
  - split; [done|split].
    + intros k q Hk. apply lookup_delete_Some in Hk as [_ Hk]. eauto.
    + intros k l q r Hk Hl. apply lookup_delete_Some in Hk as [_ Hk].
      apply lookup_delete_Some in Hl as [_ Hl]. eauto.
  - apply is_null_false in Hn. split; [|split].
    + constructor; [|done]. by apply (Hdel a).
    + intros k q Hk Hq. apply lookup_delete_Some in Hk as [Hka Hk].
      rewrite not_elem_of_cons. split; [|by eauto].
      intros Heq. apply Hka. by apply (Hone a k p q).
    + intros k l q r Hk Hl. apply lookup_delete_Some in Hk as [_ Hk].
      apply lookup_delete_Some in Hl as [_ Hl]. eauto.
Qed.

(** *** What each operation does to ownership *)

Lemma dtor_deleted_works h (w : AsyncWorker.t) :
  deleted_works (emitted (AsyncWorker_dtor P h w))
  = if is_null (AsyncWorker._work w) then [] else [AsyncWorker._work w].
Proof.
  unfold AsyncWorker_dtor, Reference_dtor, AsyncWorker.callback, AsyncWorker.receiver.
  unfold_monad. simpl.
  destruct (is_null (AsyncWorker._work w)); simpl;
    destruct (is_null (Reference._ref (AsyncWorker._callback w))); simpl;
    destruct (Reference._suppressDestruct (AsyncWorker._callback w)); simpl;
    destruct (is_null (Reference._ref (AsyncWorker._receiver w))); simpl;
    destruct (Reference._suppressDestruct (AsyncWorker._receiver w)); simpl;
    reflexivity.
Qed.

Lemma exec_move_construct_run a b h (σ : Store) :
  exec P (MoveConstruct a b) h σ
  = AsyncWorker_move_body P (unit_at a) (unit_at b) h
      (<[a := AsyncWorker.mk nullptr nullptr Reference_default Reference_default ""]> σ).
Proof.
  simpl. unfold AsyncWorker_move_ctor.
  unfold mbind, M_bind. unfold bind at 1. unfold modify_at, modify. cbn beta iota.
  by rewrite prepend_nil.
Qed.

Lemma exec_move_construct a b h (σ : Store) wb :
  σ !! a = None -> σ !! b = Some wb ->
  let o := exec P (MoveConstruct a b) h σ in
  work_of (st o)
  = <[b := (nullptr, nullptr)]> (<[a := work_fields wb]>
                                   (<[a := (nullptr, nullptr)]> (work_of σ)))
  ∧ deleted_works (emitted o) = [].
Proof.
  intros Ha Hb o. subst o. rewrite exec_move_construct_run.
  assert (Hab : a ≠ b) by (intros ->; congruence).
  destruct (move_body_work a b h
              (<[a := AsyncWorker.mk nullptr nullptr Reference_default Reference_default ""]> σ)
              wb) as [Hw Hd]; [by simplify_map_eq|].
  rewrite Hw, Hd. by rewrite work_of_insert.
Qed.

Lemma exec_move_assign a b h (σ : Store) wb :
  σ !! b = Some wb ->
  let o := exec P (MoveAssign a b) h σ in
  work_of (st o) = <[b := (nullptr, nullptr)]> (<[a := work_fields wb]> (work_of σ))
  ∧ deleted_works (emitted o) = [].
Proof. intros Hb. by apply move_body_work. Qed.

Lemma exec_destroy a h (σ : Store) w :
  σ !! a = Some w ->
  let o := exec P (Destroy a) h σ in
  work_of (st o) = delete a (work_of σ)
  ∧ deleted_works (emitted o)
    = if is_null (AsyncWorker._work w) then [] else [AsyncWorker._work w].
Proof.
  intros Ha o. subst o. simpl.
  pose proof (dtor_deleted_works h w) as Hd.
  pose proof (AsyncWorker_dtor_returns P h w) as Hr.
  unfold mbind, M_bind, bind, zoom, modify. simpl view. rewrite Ha. simpl default.
  destruct (AsyncWorker_dtor P h w) as [r w' l]. simpl in Hd, Hr. subst r. simpl.
  rewrite app_nil_r. split; [|exact Hd].
  unfold work_of. by rewrite fmap_delete, fmap_insert, delete_insert_eq.
Qed.

Lemma deleted_works_rev (l : list HostEv) : deleted_works (rev l) = rev (deleted_works l).
Proof.
  induction l as [|e l IH]; [reflexivity|].
  simpl rev. rewrite deleted_works_app, IH.
  unfold deleted_works at 2 3. simpl.
  destruct (deleted_work e); simpl; [reflexivity|apply app_nil_r].
Qed.

(** One operation keeps every work-queue entry with at most one owner
    and never deletes an entry a second time. *)
Lemma step_keeps_ownership c op c' :
  step P c op c' ->
  owned_once (deleted_works c.1) c.2 -> owned_once (deleted_works c'.1) c'.2.
Proof.
  intros Hstep. destruct Hstep as [h σ op Hvalid]. simpl. unfold owned_once.
  rewrite deleted_works_app, deleted_works_rev. intros Hown.
  destruct op as [a b|a b|a]; simpl in Hvalid.
  - destruct Hvalid as [Ha [wb Hb]].
    destruct (exec_move_construct a b h σ wb Ha Hb) as [Hw Hd].
    rewrite Hw, Hd. simpl.
    apply owns_once_move; [by apply owns_once_insert_null|].
    assert (Hab : a ≠ b) by (intros ->; congruence).
    rewrite lookup_insert_ne by done. by rewrite work_of_lookup, Hb.
  - destruct Hvalid as [_ [wb Hb]].
    destruct (exec_move_assign a b h σ wb Hb) as [Hw Hd].
    rewrite Hw, Hd. simpl.
    apply owns_once_move; [done|]. by rewrite work_of_lookup, Hb.
  - destruct Hvalid as [w Ha].
    destruct (exec_destroy a h σ w Ha) as [Hw Hd].
    rewrite Hw, Hd.
    pose proof (owns_once_delete _ _ a (work_fields w) Hown) as Hdel.
    rewrite work_of_lookup, Ha in Hdel. specialize (Hdel eq_refl). simpl in Hdel.
    by destruct (is_null (AsyncWorker._work w)).
Qed.

Lemma steps_keep_ownership c ops c' :
  steps P c ops c' ->
  owned_once (deleted_works c.1) c.2 -> owned_once (deleted_works c'.1) c'.2.
Proof.
  induction 1 as [c|c op c' ops c'' Hstep Hsteps IH]; [done|].
  intros Hown. apply IH. by apply (step_keeps_ownership c op c').
Qed.

(** The unit a move took from has no context and no work entry. *)
Lemma moved_from_fields (σ' : Store) (m : gmap N (napi_env * napi_async_work)) b :
  work_of σ' = <[b := (nullptr, nullptr)]> m ->
  ∃ w', σ' !! b = Some w'
        ∧ AsyncWorker._env w' = nullptr ∧ AsyncWorker._work w' = nullptr.
Proof.
  intros Hw. assert (Hl : work_of σ' !! b = Some (nullptr, nullptr))
    by (rewrite Hw; apply lookup_insert_eq).
  rewrite work_of_lookup in Hl. destruct (σ' !! b) as [w'|]; [|discriminate].
  exists w'. simpl in Hl. injection Hl as He Hk. done.
Qed.

(** The executable run is a run of the step relation. *)
Lemma steps_of_run ops c : all_valid P ops c -> steps P c ops (run P ops c).
Proof.
  revert c. induction ops as [|op ops IH]; intros c Hv; [constructor|].
  destruct Hv as [Hop Hrest]. simpl.
  apply (steps_cons P c op (run_op P c op)); [|by apply IH].
  destruct c as [h σ]. by constructor.
Qed.
End Moves.

(** C10.  After the move constructor or the move assignment, whatever
    its outcome, the unit moved from has a null execution context and a
    null work-queue entry, so that its destructor asks the host to delete
    no entry.  Hence, starting from units that own distinct entries, no
    sequence of moves and destructions has the host delete the same
    work-queue entry twice. *)
Theorem moved_from_unit_owns_no_work (P : Platform) :
  (∀ op this other h (σ : Store),
     op = MoveConstruct this other ∨ op = MoveAssign this other ->
     valid σ op ->
     ∃ w', st (exec P op h σ) !! other = Some w'
           ∧ AsyncWorker._env w' = nullptr
           ∧ AsyncWorker._work w' = nullptr
           ∧ ∀ h', deleted_works (emitted (AsyncWorker_dtor P h' w')) = [])
  ∧ (∀ ops c c',
       owned_once (deleted_works c.1) c.2 ->
       steps P c ops c' ->
       NoDup (deleted_works c'.1) ∧ owned_once (deleted_works c'.1) c'.2).
Proof.
  split.
  - intros op this other h σ Hop Hvalid.
    assert (Hm : ∃ m, work_of (st (exec P op h σ)) = <[other := (nullptr, nullptr)]> m).
    { destruct Hop as [-> | ->]; simpl in Hvalid.
      - destruct Hvalid as [Ha [wb Hb]].
        destruct (exec_move_construct P this other h σ wb Ha Hb) as [Hw _]. eauto.
      - destruct Hvalid as [_ [wb Hb]].
        destruct (exec_move_assign P this other h σ wb Hb) as [Hw _]. eauto. }
    destruct Hm as [m Hm].
    destruct (moved_from_fields _ _ _ Hm) as (w' & Hl & He & Hk).
    exists w'. repeat split; try done.
    intros h'. rewrite dtor_deleted_works, Hk. reflexivity.
  - intros ops c c' Hown Hsteps.
    pose proof (steps_keep_ownership P c ops c' Hsteps Hown) as Hown'.
    split; [apply Hown'|exact Hown'].
Qed.

Lemma moved_from_unit_owns_no_work_witness :
  let P := willing false in
  let c := run P sample_ops ([], sample_store) in
  (valid sample_store (MoveConstruct 3 1)
   ∧ owned_once (deleted_works []) sample_store
   ∧ all_valid P sample_ops ([], sample_store))
  ∧ work_fields <$> st (exec P (MoveConstruct 3 1) [] sample_store) !! 1
    = Some (nullptr, nullptr)
  ∧ NoDup (deleted_works c.1)
  ∧ deleted_works c.1 = [2]
  ∧ c.2 = ∅.
Proof.
  intros P c.
  assert (Hvalid : valid sample_store (MoveConstruct 3 1)).
  { split; [vm_compute; reflexivity|]. exists sample_unit. vm_compute. reflexivity. }
  assert (Hown : owned_once (deleted_works []) sample_store).
  { split; [constructor|split].
    - intros a p _ _ Hin. by apply elem_of_nil in Hin.
    - intros a b p q Ha Hb Hpq Hp.
      unfold sample_store in Ha, Hb. rewrite !work_of_insert in Ha, Hb.
      apply lookup_insert_Some in Ha as [[<- <-]|[_ Ha]];
        apply lookup_insert_Some in Hb as [[<- <-]|[_ Hb]]; [done| | |].
      + apply lookup_insert_Some in Hb as [[<- <-]|[_ Hb]]; [discriminate Hpq|].
        by rewrite work_of_lookup in Hb.
      + apply lookup_insert_Some in Ha as [[<- <-]|[_ Ha]]; [discriminate Hpq|].
        by rewrite work_of_lookup in Ha.
      + apply lookup_insert_Some in Ha as [[<- <-]|[_ Ha]];
          apply lookup_insert_Some in Hb as [[<- <-]|[_ Hb]]; [done|..].
        all: by rewrite work_of_lookup in *. }
  assert (Hall : all_valid P sample_ops ([], sample_store)).
  { repeat (split; [vm_compute; first [reflexivity | by repeat split; eexists]|]).
    exact I. }
  destruct (moved_from_unit_owns_no_work P) as [Hmoved Hruns].
  destruct (Hruns sample_ops ([], sample_store) c Hown (steps_of_run P _ _ Hall))
    as [Hnodup _].
  split; [exact (conj Hvalid (conj Hown Hall))|].
  split; [vm_compute; reflexivity|]. split; [exact Hnodup|].
  split; vm_compute; reflexivity.
Defined.

(** * Further properties of the wrapper classes *)

(** ** Laws of the monad *)

Section Laws.
Context {E S : Type}.

Lemma prepend_app {A} (l k : list E) (o : Out E S A) :
  prepend l (prepend k o) = prepend (l ++ k) o.
Proof. destruct o. simpl. by rewrite app_assoc. Qed.

Lemma bind_run {A B} (m : M E S A) (f : A -> M E S B) h s :
  (m ≫= f) h s
  = match m h s with
    | mkOut (Ok a) s1 l1 => prepend l1 (f a (rev l1 ++ h) s1)
    | mkOut (Throw x) s1 l1 => mkOut (Throw x) s1 l1
    | mkOut Abort s1 l1 => mkOut Abort s1 l1
    end.
Proof. reflexivity. Qed.

Lemma ret_bind {A B} (a : A) (f : A -> M E S B) h s : (ret a ≫= f) h s = f a h s.
Proof. unfold mbind, M_bind, bind, ret. simpl. apply prepend_nil. Qed.

Lemma bind_assoc {A B C} (m : M E S A) (g : A -> M E S B) (f : B -> M E S C) h s :
  ((m ≫= g) ≫= f) h s = (m ≫= (λ a, g a ≫= f)) h s.
Proof.
  unfold mbind, M_bind, bind.
  destruct (m h s) as [[a|x|] s1 l1]; simpl; [|reflexivity..].
  destruct (g a (rev l1 ++ h) s1) as [[b|x|] s2 l2]; simpl; [|reflexivity..].
  rewrite prepend_app, rev_app_distr, <- app_assoc. reflexivity.
Qed.

Lemma if_bind {A B} (b : bool) (m m' : M E S A) (f : A -> M E S B) h s :
  ((if b then m else m') ≫= f) h s = if b then (m ≫= f) h s else (m' ≫= f) h s.
Proof. by destruct b. Qed.

Lemma throw_bind {A B} (x : exn) (f : A -> M E S B) h s :
  (throw x ≫= f) h s = mkOut (Throw x) s [].
Proof. reflexivity. Qed.

Lemma get_bind {B} (f : S -> M E S B) h s : (get ≫= f) h s = f s h s.
Proof. unfold mbind, M_bind, bind, get. simpl. apply prepend_nil. Qed.

Lemma gets_bind {A B} (g : S -> A) (f : A -> M E S B) h s : (gets g ≫= f) h s = f (g s) h s.
Proof. unfold mbind, M_bind, bind, gets. simpl. apply prepend_nil. Qed.

Lemma modify_bind {B} (g : S -> S) (f : unit -> M E S B) h s :
  (modify g ≫= f) h s = f tt h (g s).
Proof. unfold mbind, M_bind, bind, modify. simpl. apply prepend_nil. Qed.
End Laws.

Section CallLaws.
Context (P : Platform) {S : Type}.

Lemma call_bind {B} (c : HostCall) (f : Reply -> M HostEv S B) h s :
  (call P c ≫= f) h s = prepend [ev P h c] (f (host P h c) (ev P h c :: h) s).
Proof. reflexivity. Qed.

Lemma assert_bind {B} (b : bool) (f : unit -> M HostEv S B) h s :
  (assert P b ≫= f) h s = if b || ndebug P then f tt h s else mkOut Abort s [].
Proof.
  unfold assert. destruct (b || ndebug P); [apply ret_bind|reflexivity].
Qed.

Lemma uninitialised_bind {B} (f : bool -> M HostEv S B) h s :
  (uninitialised P ≫= f) h s = f (indeterminate P h) h s.
Proof. unfold mbind, M_bind, bind, uninitialised. simpl. apply prepend_nil. Qed.

(** A rejected call at the head of a trace. *)
Lemma rejected_first {A} (c : HostEv) (o : Out HostEv S A) :
  ¬ accepted c -> ¬ Forall accepted (emitted (prepend [c] o)).
Proof.
  intros Hc Hall. rewrite emitted_prepend in Hall. apply Hc. by inversion Hall.
Qed.

(** What follows an accepted call at the head of a trace. *)
Lemma after_accepted {A} (c : HostEv) (o : Out HostEv S A) (l : list HostEv) (r : Res A) :
  (accepted c -> Forall accepted (emitted o) -> emitted o = l ∧ res o = r) ->
  Forall accepted (emitted (prepend [c] o)) ->
  emitted (prepend [c] o) = c :: l ∧ res (prepend [c] o) = r.
Proof.
  intros Hk Hall. rewrite emitted_prepend in Hall. apply Forall_cons_1 in Hall as [Hc Hall].
  destruct (Hk Hc Hall) as [He Hq]. rewrite emitted_prepend, res_prepend, He. done.
Qed.

Lemma accepted_first {A} (c : HostEv) (o : Out HostEv S A) :
  accepted c -> Forall accepted (emitted (prepend [c] o)) ↔ Forall accepted (emitted o).
Proof.
  intros Hc. rewrite emitted_prepend. simpl. rewrite Forall_cons. tauto.
Qed.
End CallLaws.

(** ** Translating the host's last error *)

Section Translation.
Context (P : Platform) {S : Type}.

(** [Error(env, value)], by cases. *)
Lemma Error_ctor_run env value h (s : S) :
  let c := ev P h (napi_create_reference env value 1) in
  let empty := Error.mk (Reference.mk env nullptr (indeterminate P h)) "" in
  Error_ctor P env value h s
  = if is_null value then mkOut (Ok empty) s []
    else if status_ok (status (ev_reply c))
         then mkOut (Ok (Error.mk (Reference.mk env (out (ev_reply c)) (indeterminate P h)) ""))
                s [c]
         else if ndebug P then mkOut (Ok empty) s [c] else mkOut Abort s [c].
Proof.
  intros c empty. subst c empty. unfold Error_ctor, ev. unfold_monad. simpl.
  destruct (is_null value); [reflexivity|]. simpl.
  destruct (status_ok (status (host P h _))); simpl; [reflexivity|].
  destruct (ndebug P); reflexivity.
Qed.

Lemma Error_ctor_state env value h (s : S) : st (Error_ctor P env value h s) = s.
Proof.
  rewrite Error_ctor_run. simpl.
  repeat match goal with |- context [if ?b then _ else _] => destruct b end; reflexivity.
Qed.

Lemma Error_New_state env h (s : S) : st (Error_New P env h s) = s.
Proof.
  unfold Error_New. unfold_monad. cbn beta iota.
  repeat match goal with
         | |- context [Error_ctor P ?e ?v ?hh ?ss] =>
             let H := fresh in
             pose proof (Error_ctor_state e v hh ss) as H;
             destruct (Error_ctor P e v hh ss) as [? ? ?]; simpl in H; subst
         | |- context [if ?b then _ else _] => destruct b eqn:?; simpl
         | |- context [match error_code ?i with _ => _ end] => destruct (error_code i); simpl
         end; reflexivity.
Qed.

Lemma throw_Error_New_state {A} env h (s : S) :
  st (throw_Error_New P (A := A) env h s) = s.
Proof.
  unfold throw_Error_New. unfold_monad.
  pose proof (Error_New_state env h s) as Hs.
  destruct (Error_New P env h s) as [[e|x|] s1 l1]; simpl in *; exact Hs.
Qed.

End Translation.

(** Case analysis on the conditions the translation tests. *)
Ltac translation_cases :=
  repeat match goal with
         | |- context [if ndebug ?P then _ else _] => destruct (ndebug P) eqn:?; simpl
         | |- context [if is_null ?v then _ else _] => destruct (is_null v) eqn:?; simpl
         | |- context [if status_ok ?b then _ else _] => destruct (status_ok b) eqn:?; simpl
         | |- context [if bool_decide ?b then _ else _] => destruct (bool_decide b) eqn:?; simpl
         | |- context [match error_code ?i with _ => _ end] => destruct (error_code i) eqn:?; simpl
         end.


(** Decide whether every call of an explicit trace was accepted, from the
    statuses tested on the way. *)
Ltac statuses_as_props :=
  repeat match goal with
         | H : status_ok _ = true |- _ => apply status_ok_true in H
         | H : status_ok _ = false |- _ => apply status_ok_false in H
         end.

Ltac all_accepted := repeat constructor; assumption.

Ltac one_rejected H :=
  repeat (apply Forall_cons_1 in H; let H' := fresh in destruct H as [H' H]; simpl in H');
  contradiction.

(** X1.  [Error::New(env)] never throws.  With assertions compiled out
    it always returns; with assertions compiled in it returns exactly
    when the host accepted every call it made, and the process is
    aborted otherwise.  It leaves the objects it runs among as they are,
    and whenever it returns although a call was rejected, the [Error] it
    returns is empty. *)
Theorem Error_New_never_throws (P : Platform) {S} env h (s : S) :
  let o := Error_New P env h s in
  (∀ x, res o ≠ Throw x)
  ∧ st o = s
  ∧ (ndebug P = true -> returned (res o) = true)
  ∧ (ndebug P = false -> (returned (res o) = true ↔ Forall accepted (emitted o)))
  ∧ (∀ e, res o = Ok e -> ¬ Forall accepted (emitted o) ->
          Reference._ref (Error.base e) = nullptr).
Proof.
  intros o. subst o. split; [|split; [apply Error_New_state|]].
  - intros x Hx. destruct (Error_New_outcome P env h s) as [Hr|[Ha _]];
      rewrite Hx in *; discriminate.
  - split; [|split].
    + intros Hd. destruct (Error_New_outcome P env h s) as [Hr|[_ Ha]]; [done|congruence].
    + intros Hd. unfold Error_New, Error_ctor, accepted. unfold_monad. cbn beta iota.
      rewrite Hd. translation_cases; statuses_as_props;
        (split; [intros Hr; first [discriminate Hr | all_accepted]
                |intros Hall; first [reflexivity | one_rejected Hall]]).
    + unfold Error_New, Error_ctor, accepted. unfold_monad. cbn beta iota.
      translation_cases; statuses_as_props; intros e He Hall; try discriminate He;
        injection He as <-; try reflexivity; exfalso; apply Hall; all_accepted.
Qed.

Lemma Error_New_never_throws_witness :
  let refuse := λ c, bool_decide (c = napi_get_last_error_info 1) in
  (ndebug (grudging_release refuse) = true ∧ ndebug (grudging refuse) = false)
  ∧ returned (res (Error_New (S := unit) (grudging_release refuse) 1 [] tt)) = true
  ∧ returned (res (Error_New (S := unit) (grudging refuse) 1 [] tt)) = false
  ∧ (∀ e, res (Error_New (S := unit) (grudging_release refuse) 1 [] tt) = Ok e ->
          Reference._ref (Error.base e) = nullptr).
Proof.
  intros refuse.
  destruct (Error_New_never_throws (S := unit) (grudging_release refuse) 1 [] tt)
    as (_ & _ & Hrel & _ & Hempty).
  destruct (Error_New_never_throws (S := unit) (grudging refuse) 1 [] tt)
    as (_ & _ & _ & Hdbg & _).
  split; [split; reflexivity|]. split; [exact (Hrel eq_refl)|]. split.
  - apply not_true_is_false. intros Hr. apply (Hdbg eq_refl) in Hr. vm_compute in Hr. apply Forall_cons_1 in Hr as [Hr _].
    discriminate Hr.
  - intros e He. apply (Hempty e He). intros Hall. vm_compute in Hall.
    apply Forall_cons_1 in Hall as [Hall _]. discriminate Hall.
Defined.

(** The [switch] on the error code. *)
Lemma create_by_code (code : napi_status) env str :
  match code with
  | napi_object_expected | napi_string_expected
  | napi_boolean_expected | napi_number_expected => napi_create_type_error env str
  | _ => napi_create_error env str
  end
  = if bool_decide (code ∈ type_error_codes)
    then napi_create_type_error env str else napi_create_error env str.
Proof. destruct code; reflexivity. Qed.

(** The last step of a translation: wrapping the value. *)
Ltac wrap_value :=
  let Hc := fresh "Hc" in
  let Hall := fresh "Hall" in
  rewrite Error_ctor_run; simpl ev_reply;
  match goal with |- context [is_null ?v] => destruct (is_null v) eqn:? end;
  [intros _; split; reflexivity|];
  match goal with |- context [status_ok ?v] => destruct (status_ok v) eqn:Hc end;
  [intros _; split; reflexivity|];
  intros Hall; exfalso; apply status_ok_false in Hc;
  match goal with H : context [ndebug ?P] |- _ => destruct (ndebug P) end;
  simpl in Hall; apply Forall_cons_1 in Hall as [Hall _]; contradiction.

(** X2.  The error value [Error::New(env)] wraps, when the host accepts
    every call: the pending exception, or a new error made from the
    host's message, a [TypeError] for the four codes of
    [type_error_codes]. *)
Theorem Error_New_translation (P : Platform) {S} env h (s : S) :
  let i := ev P h (napi_get_last_error_info env) in
  let code := error_code (info (ev_reply i)) in
  let text := default "Error in native callback" (error_message (info (ev_reply i))) in
  let taken := ev P (i :: h) (napi_get_and_clear_last_exception env) in
  let m := ev P (i :: h)
             (napi_create_string_utf8 env text (N.of_nat (String.length text))) in
  let made := ev P (m :: i :: h)
                (if bool_decide (code ∈ type_error_codes)
                 then napi_create_type_error env (out (ev_reply m))
                 else napi_create_error env (out (ev_reply m))) in
  let pending := bool_decide (code = napi_pending_exception) in
  let value := out (ev_reply (if pending then taken else made)) in
  let steps := if pending then [i; taken] else [i; m; made] in
  let c := ev P (rev steps ++ h) (napi_create_reference env value 1) in
  let o := Error_New P env h s in
  Forall accepted (emitted o) ->
  emitted o = steps ++ (if is_null value then [] else [c])
  ∧ res o = Ok (Error.mk (Reference.mk env (if is_null value then nullptr
                                            else out (ev_reply c))
                            (indeterminate P (rev steps ++ h))) "").
Proof.
  intros i code text taken m made pending value steps c o.
  subst o steps value c pending made m taken text code i.
  unfold Error_New, default. simpl ev_reply.
  rewrite call_bind.
  destruct (bool_decide (error_code (info (host P h (napi_get_last_error_info env)))
                         = napi_pending_exception)) eqn:Hp; simpl app;
    apply after_accepted; intros Hi; apply status_ok_true in Hi; simpl in Hi;
    rewrite assert_bind, Hi; simpl orb; cbv iota.
  - rewrite bind_assoc, call_bind. apply after_accepted. intros Ht.
    apply status_ok_true in Ht; simpl in Ht.
    rewrite bind_assoc, assert_bind, Ht. simpl orb. cbv iota.
    rewrite ret_bind. wrap_value.
  - rewrite bind_assoc, call_bind. apply after_accepted. intros Hm.
    apply status_ok_true in Hm; simpl in Hm.
    rewrite bind_assoc, assert_bind, Hm. simpl orb. cbv iota.
    rewrite bind_assoc, call_bind, create_by_code. apply after_accepted. intros Hc.
    apply status_ok_true in Hc; simpl in Hc.
    rewrite bind_assoc, assert_bind, Hc. simpl orb. cbv iota.
    rewrite ret_bind. wrap_value.
Qed.

Lemma Error_New_translation_witness :
  let P := reporting napi_string_expected None in
  let P' := reporting napi_generic_failure (Some "out of memory") in
  (Forall accepted (emitted (Error_New (S := unit) P 1 [] tt))
   ∧ Forall accepted (emitted (Error_New (S := unit) P' 1 [] tt)))
  ∧ ev_call <$> emitted (Error_New (S := unit) P 1 [] tt)
    = [napi_get_last_error_info 1;
       napi_create_string_utf8 1 "Error in native callback" 24;
       napi_create_type_error 1 101;
       napi_create_reference 1 102 1]
  ∧ ev_call <$> emitted (Error_New (S := unit) P' 1 [] tt)
    = [napi_get_last_error_info 1;
       napi_create_string_utf8 1 "out of memory" 13;
       napi_create_error 1 101;
       napi_create_reference 1 102 1].
Proof.
  intros P P'.
  assert (H : Forall accepted (emitted (Error_New (S := unit) P 1 [] tt)))
    by (vm_compute; repeat constructor).
  assert (H' : Forall accepted (emitted (Error_New (S := unit) P' 1 [] tt)))
    by (vm_compute; repeat constructor).
  split; [exact (conj H H')|].
  destruct (Error_New_translation P 1 [] tt H) as [-> _].
  destruct (Error_New_translation P' 1 [] tt H') as [-> _].
  split; reflexivity.
Defined.

Section TranslationCalls.
Context (P : Platform) {S : Type}.

Lemma Error_New_calls env h (s : S) :
  Forall (λ e, translation_call (ev_call e) = true) (emitted (Error_New P env h s)).
Proof.
  unfold Error_New, Error_ctor. unfold_monad. cbn beta iota.
  repeat match goal with
         | |- context [if ?b then _ else _] => destruct b eqn:?; simpl
         | |- context [match error_code ?i with _ => _ end] => destruct (error_code i); simpl
         end; repeat constructor.
Qed.

Lemma throw_Error_New_calls {A} env h (s : S) :
  Forall (λ e, translation_call (ev_call e) = true)
    (emitted (throw_Error_New P (A := A) env h s)).
Proof.
  unfold throw_Error_New. unfold_monad.
  pose proof (Error_New_calls env h s) as Hn.
  destruct (Error_New P env h s) as [[a|x|] s1 l1]; simpl in *;
    rewrite ?app_nil_r; exact Hn.
Qed.

Lemma no_release_in_translation (l : list HostEv) :
  Forall (λ e, translation_call (ev_call e) = true) l -> released_refs l = [].
Proof.
  induction 1 as [|e l He _ IH]; [reflexivity|].
  unfold released_refs in *. simpl. unfold released_ref at 1.
  destruct (ev_call e); try discriminate He; exact IH.
Qed.

Lemma no_scope_in_translation (l : list HostEv) stack :
  Forall (λ e, translation_call (ev_call e) = true) l -> scopes_after stack l = Some stack.
Proof.
  induction 1 as [|e l He _ IH]; [reflexivity|].
  simpl. unfold scope_step. destruct (ev_call e); try discriminate He; exact IH.
Qed.
End TranslationCalls.

(** ** Releasing and moving a reference holder *)

Section Holder.
Context (P : Platform).

(** [Reset()], by cases. *)
Lemma Reference_Reset_run (r : Reference.t) h :
  let c := ev P h (napi_delete_reference (Reference._env r) (Reference._ref r)) in
  Reference_Reset P h r
  = if is_null (Reference._ref r) then mkOut (Ok tt) r []
    else if status_ok (status (ev_reply c))
         then mkOut (Ok tt) (Reference.set_ref nullptr r) [c]
         else prepend [c] (throw_Error_New P (Reference._env r) (c :: h) r).
Proof.
  intros c. subst c. unfold Reference_Reset.
  rewrite get_bind. destruct (is_null (Reference._ref r)); [reflexivity|]. cbn [negb]. cbv iota.
  rewrite call_bind. simpl ev_reply.
  destruct (status_ok (status (host P h _))); reflexivity.
Qed.

(** [operator =(Reference<T>&&)] between two places, by the outcome of
    its [Reset()]. *)
Lemma Reference_move_assign_run {S} (this other : Lens S Reference.t) h (s : S) :
  Reference_move_assign P this other h s
  = match Reference_Reset P h (view this s) with
    | mkOut (Ok _) t l1 =>
        let s1 := update this t s in
        let o := view other s1 in
        let s2 := update this (Reference.set_env (Reference._env o) (view this s1)) s1 in
        let s3 := update this (Reference.set_ref (Reference._ref o) (view this s2)) s2 in
        let s4 := update other (Reference.set_env nullptr (view other s3)) s3 in
        mkOut (Ok tt) (update other (Reference.set_ref nullptr (view other s4)) s4) l1
    | mkOut (Throw x) t l1 => mkOut (Throw x) (update this t s) l1
    | mkOut Abort t l1 => mkOut Abort (update this t s) l1
    end.
Proof.
  unfold Reference_move_assign. unfold_monad.
  destruct (Reference_Reset P h (view this s)) as [[[]|x|] t l1]; simpl;
    rewrite ?app_nil_r; reflexivity.
Qed.
End Holder.

(** X3.  [Reset()] on an empty holder makes no call.  On a holder that
    is not empty it asks the host to delete the reference: when the host
    accepts, the holder is empty, so that another [Reset()] and the
    destructor make no call; when the host rejects, [Reset()] does not
    return and the holder still holds the reference. *)
Theorem Reference_Reset_releases_once (P : Platform) (r : Reference.t) h :
  let c := ev P h (napi_delete_reference (Reference._env r) (Reference._ref r)) in
  let o := Reference_Reset P h r in
  (Reference._ref r = nullptr -> o = mkOut (Ok tt) r [])
  ∧ (Reference._ref r ≠ nullptr -> accepted c ->
     o = mkOut (Ok tt) (Reference.set_ref nullptr r) [c]
     ∧ ∀ h', Reference_Reset P h' (st o) = mkOut (Ok tt) (st o) []
             ∧ emitted (Reference_dtor P h' (st o)) = [])
  ∧ (Reference._ref r ≠ nullptr -> ¬ accepted c ->
     returned (res o) = false ∧ st o = r ∧ released_refs (emitted o) = [Reference._ref r]).
Proof.
  intros c o. subst o. rewrite Reference_Reset_run. fold c.
  split; [|split].
  - intros Hr. apply is_null_true in Hr. by rewrite Hr.
  - intros Hr Ha. apply is_null_false in Hr. rewrite Hr.
    apply status_ok_true in Ha. rewrite Ha. split; [reflexivity|].
    intros h'. simpl st. split.
    + by rewrite Reference_Reset_run.
    + by apply Reference_dtor_empty.
  - intros Hr Ha. apply is_null_false in Hr. rewrite Hr.
    apply status_ok_false in Ha. rewrite Ha.
    rewrite res_prepend, st_prepend, emitted_prepend.
    split; [apply throw_Error_New_not_returned|]. split; [apply throw_Error_New_state|].
    unfold released_refs. rewrite omap_app.
    fold (released_refs (emitted (throw_Error_New P (A := unit) (Reference._env r) (c :: h) r))).
    rewrite (no_release_in_translation _ (throw_Error_New_calls P _ _ _)). reflexivity.
Qed.

Lemma Reference_Reset_releases_once_witness :
  let r := Reference.mk 1 7 false in
  let refuse := λ c, bool_decide (c = napi_delete_reference 1 7) in
  (Reference._ref r ≠ nullptr
   ∧ accepted (ev (willing false) [] (napi_delete_reference 1 7))
   ∧ ¬ accepted (ev (grudging refuse) [] (napi_delete_reference 1 7)))
  ∧ st (Reference_Reset (willing false) [] r) = Reference.mk 1 nullptr false
  ∧ st (Reference_Reset (grudging refuse) [] r) = r.
Proof.
  intros r refuse.
  assert (Hr : Reference._ref r ≠ nullptr) by discriminate.
  assert (Ha : accepted (ev (willing false) [] (napi_delete_reference 1 7))) by reflexivity.
  assert (Hn : ¬ accepted (ev (grudging refuse) [] (napi_delete_reference 1 7)))
    by discriminate.
  split; [exact (conj Hr (conj Ha Hn))|].
  destruct (Reference_Reset_releases_once (willing false) r []) as (_ & Hok & _).
  destruct (Reference_Reset_releases_once (grudging refuse) r []) as (_ & _ & Hrej).
  split.
  - destruct (Hok Hr Ha) as [-> _]. reflexivity.
  - exact (proj1 (proj2 (Hrej Hr Hn))).
Defined.

(** X4.  Move assignment between two holders: the target's reference is
    released first; then the source's context and handle go to the
    target and the source is left empty. The flag set by
    [SuppressDestruct] stays with each holder. When the release is
    rejected, nothing has moved. *)
Theorem Reference_move_assign_transfers (P : Platform) (a b : N) (σ : Holders)
    (ra rb : Reference.t) h :
  a ≠ b -> σ !! a = Some ra -> σ !! b = Some rb ->
  let c := ev P h (napi_delete_reference (Reference._env ra) (Reference._ref ra)) in
  let o := holder_exec P (HolderMoveAssign a b) h σ in
  (Reference._ref ra = nullptr ∨ accepted c ->
   res o = Ok tt
   ∧ emitted o = (if is_null (Reference._ref ra) then [] else [c])
   ∧ st o = <[b := Reference.mk nullptr nullptr (Reference._suppressDestruct rb)]>
              (<[a := Reference.mk (Reference._env rb) (Reference._ref rb)
                        (Reference._suppressDestruct ra)]> σ))
  ∧ (Reference._ref ra ≠ nullptr -> ¬ accepted c ->
     returned (res o) = false ∧ st o = σ).
Proof.
  intros Hab Ha Hb c o. subst o. simpl holder_exec.
  rewrite Reference_move_assign_run. simpl view. rewrite Ha. simpl default.
  rewrite Reference_Reset_run. fold c. split.
  - intros Hok. destruct (is_null (Reference._ref ra)) eqn:Hn.
    + simpl. split; [done|]. split; [done|].
      simplify_map_eq. apply map_eq. intros k.
      destruct (decide (k = b)) as [->|Hkb]; [by simplify_map_eq|].
      destruct (decide (k = a)) as [->|Hka]; by simplify_map_eq.
    + destruct Hok as [Hr|Hc]; [apply is_null_true in Hr; congruence|].
      apply status_ok_true in Hc. rewrite Hc. simpl. split; [done|]. split; [done|].
      simplify_map_eq. apply map_eq. intros k.
      destruct (decide (k = b)) as [->|Hkb]; [by simplify_map_eq|].
      destruct (decide (k = a)) as [->|Hka]; by simplify_map_eq.
  - intros Hr Hc. apply is_null_false in Hr. rewrite Hr.
    apply status_ok_false in Hc. rewrite Hc.
    pose proof (throw_Error_New_not_returned P (A := unit) (Reference._env ra) (c :: h) ra) as Hnr.
    pose proof (throw_Error_New_state P (A := unit) (Reference._env ra) (c :: h) ra) as Hst.
    destruct (throw_Error_New P (Reference._env ra) (c :: h) ra) as [[[]|x|] t l1];
      simpl in *; try discriminate Hnr; subst t; (split; [done|by apply insert_id]).
Qed.

Lemma Reference_move_assign_transfers_witness :
  let P := willing false in
  let o := holder_exec P (HolderMoveAssign 1 2) [] sample_holders in
  (1 ≠ 2 ∧ sample_holders !! 1 = Some (Reference.mk 1 5 false)
   ∧ sample_holders !! 2 = Some (Reference.mk 1 6 true)
   ∧ accepted (ev P [] (napi_delete_reference 1 5)))
  ∧ released_refs (emitted o) = [5]
  ∧ st o !! 1 = Some (Reference.mk 1 6 false)
  ∧ st o !! 2 = Some (Reference.mk nullptr nullptr true).
Proof.
  intros P o.
  assert (Hne : (1 : N) ≠ 2) by discriminate.
  assert (H1 : sample_holders !! 1 = Some (Reference.mk 1 5 false))
    by (vm_compute; reflexivity).
  assert (H2 : sample_holders !! 2 = Some (Reference.mk 1 6 true))
    by (vm_compute; reflexivity).
  assert (Ha : accepted (ev P [] (napi_delete_reference 1 5))) by reflexivity.
  split; [exact (conj Hne (conj H1 (conj H2 Ha)))|].
  destruct (Reference_move_assign_transfers P 1 2 sample_holders _ _ [] Hne H1 H2)
    as [Hok _].
  destruct (Hok (or_intror Ha)) as (_ & Hem & Hst). subst o.
  rewrite Hem, Hst. split; [reflexivity|]. split; vm_compute; reflexivity.
Defined.

(** X5.  Assigning a holder to itself by move releases its reference and
    leaves it empty. *)
Theorem Reference_self_move_assign_empties (P : Platform) (a : N) (σ : Holders)
    (r : Reference.t) h :
  σ !! a = Some r ->
  let c := ev P h (napi_delete_reference (Reference._env r) (Reference._ref r)) in
  let o := holder_exec P (HolderMoveAssign a a) h σ in
  Reference._ref r = nullptr ∨ accepted c ->
  res o = Ok tt
  ∧ emitted o = (if is_null (Reference._ref r) then [] else [c])
  ∧ st o = <[a := Reference.mk nullptr nullptr (Reference._suppressDestruct r)]> σ.
Proof.
  intros Ha c o Hok. subst o. simpl holder_exec.
  rewrite Reference_move_assign_run. simpl view. rewrite Ha. simpl default.
  rewrite Reference_Reset_run. fold c.
  destruct (is_null (Reference._ref r)) eqn:Hn.
  - simpl. split; [done|]. split; [done|]. simplify_map_eq.
    by rewrite !insert_insert_eq.
  - destruct Hok as [Hr|Hc]; [apply is_null_true in Hr; congruence|].
    apply status_ok_true in Hc. rewrite Hc. simpl. split; [done|]. split; [done|].
    simplify_map_eq. by rewrite !insert_insert_eq.
Qed.

Lemma Reference_self_move_assign_empties_witness :
  let P := willing false in
  let o := holder_exec P (HolderMoveAssign 1 1) [] sample_holders in
  (sample_holders !! 1 = Some (Reference.mk 1 5 false)
   ∧ accepted (ev P [] (napi_delete_reference 1 5)))
  ∧ released_refs (emitted o) = [5]
  ∧ st o !! 1 = Some (Reference.mk nullptr nullptr false).
Proof.
  intros P o.
  assert (H1 : sample_holders !! 1 = Some (Reference.mk 1 5 false))
    by (vm_compute; reflexivity).
  assert (Ha : accepted (ev P [] (napi_delete_reference 1 5))) by reflexivity.
  split; [exact (conj H1 Ha)|].
  destruct (Reference_self_move_assign_empties P 1 sample_holders _ [] H1 (or_intror Ha))
    as (_ & Hem & Hst).
  subst o. rewrite Hem, Hst. split; [reflexivity|]. vm_compute. reflexivity.
Defined.

(** ** Ownership of references across moves, resets and destructions *)

Lemma omap_rev {A B} (f : A -> option B) (l : list A) : omap f (rev l) = rev (omap f l).
Proof.
  induction l as [|x l IH]; [reflexivity|].
  simpl. rewrite omap_app, IH. simpl. destruct (f x); simpl; [reflexivity|apply app_nil_r].
Qed.

Lemma owns_once_release D m a e e' r :
  owns_once D m -> m !! a = Some (e, r) -> r ≠ nullptr ->
  owns_once (r :: D) (<[a := (e', nullptr)]> m).
Proof.
  intros (Hnd & Hdel & Hone) Ha Hr. split; [|split].
  - constructor; [|done]. by apply (Hdel a (e, r)).
  - intros k q Hk Hq. destruct (decide (k = a)) as [->|Hka]; [by simplify_map_eq|].
    rewrite lookup_insert_ne in Hk by done. rewrite not_elem_of_cons. split; [|by eauto].
    intros Heq. apply Hka. by apply (Hone k a q (e, r)).
  - intros k l q q' Hk Hl Hqq Hq.
    destruct (decide (k = a)) as [->|Hka]; [by simplify_map_eq|].
    destruct (decide (l = a)) as [->|Hla]; simplify_map_eq; try congruence; eauto.
Qed.

Lemma owns_once_drop D m a : owns_once D m -> owns_once D (delete a m).
Proof.
  intros (Hnd & Hdel & Hone). split; [done|split].
  - intros k q Hk. apply lookup_delete_Some in Hk as [_ Hk]. eauto.
  - intros k l q q' Hk Hl. apply lookup_delete_Some in Hk as [_ Hk].
    apply lookup_delete_Some in Hl as [_ Hl]. eauto.
Qed.

Section HolderOwnership.
Context (P : Platform).

Lemma refs_of_insert a r (σ : Holders) :
  refs_of (<[a := r]> σ) = <[a := ref_fields r]> (refs_of σ).
Proof. unfold refs_of. apply fmap_insert. Qed.

Lemma refs_of_lookup a (σ : Holders) : refs_of σ !! a = ref_fields <$> σ !! a.
Proof. unfold refs_of. apply lookup_fmap. Qed.

Lemma accepted_releases_app (l k : list HostEv) :
  accepted_releases (l ++ k) = accepted_releases l ++ accepted_releases k.
Proof. apply omap_app. Qed.

Lemma no_accepted_release_in_translation (l : list HostEv) :
  Forall (λ e, translation_call (ev_call e) = true) l -> accepted_releases l = [].
Proof.
  induction 1 as [|e l He _ IH]; [reflexivity|].
  unfold accepted_releases in *. simpl. unfold accepted_release at 1, released_ref.
  destruct (decide (accepted e)); [|exact IH].
  destruct (ev_call e); try discriminate He; exact IH.
Qed.

(** What [Reset()] does to a holder and to the references released:
    either the handle stays and nothing was released, or the handle was
    released and the holder is empty. *)
Lemma Reset_effect (r : Reference.t) h :
  let o := Reference_Reset P h r in
  Reference._suppressDestruct (st o) = Reference._suppressDestruct r
  ∧ Reference._env (st o) = Reference._env r
  ∧ ((Reference._ref (st o) = Reference._ref r ∧ accepted_releases (emitted o) = []
      ∧ (res o = Ok tt -> Reference._ref r = nullptr))
     ∨ (Reference._ref r ≠ nullptr ∧ Reference._ref (st o) = nullptr
        ∧ accepted_releases (emitted o) = [Reference._ref r] ∧ res o = Ok tt)).
Proof.
  intros o. subst o. rewrite Reference_Reset_run.
  destruct (is_null (Reference._ref r)) eqn:Hn.
  { apply is_null_true in Hn. simpl. repeat split; try done. left. done. }
  apply is_null_false in Hn.
  destruct (status_ok _) eqn:Hs; simpl ev_reply in Hs.
  - simpl. repeat split; try done. right. repeat split; try done.
    unfold accepted_releases. simpl. unfold accepted_release, accepted. simpl.
    apply status_ok_true in Hs. by rewrite decide_True.
  - rewrite st_prepend, emitted_prepend, res_prepend, throw_Error_New_state.
    repeat split; try done. left. split; [done|]. split.
    + rewrite accepted_releases_app.
      rewrite (no_accepted_release_in_translation _ (throw_Error_New_calls P _ _ _)).
      unfold accepted_releases. simpl. unfold accepted_release, accepted. simpl.
      apply status_ok_false in Hs. by rewrite decide_False.
    + intros Hok. pose proof (throw_Error_New_not_returned P (A := unit)
                                (Reference._env r) (ev P h (napi_delete_reference
                                   (Reference._env r) (Reference._ref r)) :: h) r) as Hnr.
      rewrite Hok in Hnr. discriminate Hnr.
Qed.

(** What the destructor releases. *)
Lemma dtor_effect (r : Reference.t) h :
  let o := Reference_dtor P h r in
  res o = Ok tt
  ∧ (accepted_releases (emitted o) = []
     ∨ (Reference._ref r ≠ nullptr ∧ accepted_releases (emitted o) = [Reference._ref r])).
Proof.
  intros o. subst o. split; [apply Reference_dtor_returns|].
  unfold Reference_dtor. unfold_monad. simpl.
  destruct (is_null (Reference._ref r)) eqn:Hn; simpl; [by left|].
  destruct (Reference._suppressDestruct r); simpl; [by left|].
  unfold accepted_releases. simpl. unfold accepted_release. simpl.
  destruct (decide _); [right|by left]. apply is_null_false in Hn. done.
Qed.

Lemma accepted_releases_rev (l : list HostEv) :
  accepted_releases (rev l) = rev (accepted_releases l).
Proof. apply omap_rev. Qed.

(** [Reset()] on the holder at [a] keeps the invariant. *)
Lemma Reset_keeps_ownership D (σ : Holders) a r h :
  σ !! a = Some r -> owns_once D (refs_of σ) ->
  owns_once (rev (accepted_releases (emitted (Reference_Reset P h r))) ++ D)
    (refs_of (<[a := st (Reference_Reset P h r)]> σ)).
Proof.
  intros Ha Hown. rewrite refs_of_insert.
  destruct (Reset_effect r h) as (_ & He & [(Hr & Hd & _)|(Hn & Hr & Hd & _)]).
  - rewrite Hd. simpl. unfold ref_fields. rewrite He, Hr.
    rewrite insert_id; [done|]. by rewrite refs_of_lookup, Ha.
  - rewrite Hd. simpl. unfold ref_fields. rewrite Hr.
    apply (owns_once_release D _ a (Reference._env r)); [done| |done].
    by rewrite refs_of_lookup, Ha.
Qed.

(** The assignments of a move, after its [Reset()]. *)
Lemma moved_refs a b (σ : Holders) :
  is_Some (σ !! a) -> is_Some (σ !! b) ->
  let o := view (holder_at b) σ in
  let s2 := update (holder_at a) (Reference.set_env (Reference._env o)
                                    (view (holder_at a) σ)) σ in
  let s3 := update (holder_at a) (Reference.set_ref (Reference._ref o)
                                    (view (holder_at a) s2)) s2 in
  let s4 := update (holder_at b) (Reference.set_env nullptr (view (holder_at b) s3)) s3 in
  refs_of (update (holder_at b) (Reference.set_ref nullptr (view (holder_at b) s4)) s4)
  = <[b := (nullptr, nullptr)]> (<[a := ref_fields o]> (refs_of σ)).
Proof.
  intros [ra Ha] [rb Hb]. simpl. rewrite Ha, Hb. simpl.
  apply map_eq. intros k. rewrite refs_of_lookup.
  destruct (decide (a = b)) as [->|Hab].
  - destruct (decide (k = b)) as [->|Hk]; simplify_map_eq; [done|].
    by rewrite refs_of_lookup.
  - destruct (decide (k = b)) as [->|Hkb]; [by simplify_map_eq|].
    destruct (decide (k = a)) as [->|Hka]; simplify_map_eq; [done|].
    by rewrite refs_of_lookup.
Qed.

(** One operation that takes no new reference keeps every reference
    with at most one holder and never has a reference released twice. *)
Lemma holder_op_keeps_ownership c op :
  holder_valid c.2 op -> acquires op = false ->
  owns_once (accepted_releases c.1) (refs_of c.2) ->
  owns_once (accepted_releases (holder_run_op P c op).1) (refs_of (holder_run_op P c op).2).
Proof.
  destruct c as [h σ]. unfold holder_run_op. simpl fst. simpl snd.
  rewrite accepted_releases_app, accepted_releases_rev.
  intros Hvalid Hacq Hown.
  destruct op as [a b|a b|a|a v n|a|a]; simpl in Hvalid; try discriminate Hacq.
  - (* move construction *)
    destruct Hvalid as [Ha [rb Hb]].
    assert (Hab : a ≠ b) by (intros ->; congruence).
    simpl holder_exec. unfold Reference_move_ctor. unfold_monad. simpl. rewrite Hb. simpl.
    rewrite !refs_of_insert. simplify_map_eq. rewrite insert_insert_eq.
    rewrite insert_insert_ne by done.
    apply (owns_once_move _ _ a b (ref_fields rb)); [done|].
    by rewrite refs_of_lookup, Hb.
  - (* move assignment *)
    destruct Hvalid as [[ra Ha] Hb].
    simpl holder_exec. rewrite Reference_move_assign_run.
    replace (view (holder_at a) σ) with ra by (simpl; by rewrite Ha).
    pose proof (Reset_keeps_ownership _ σ a ra h Ha Hown) as Hreset.
    destruct (Reference_Reset P h ra) as [[[]|x|] t l1]; simpl in Hreset |- *; [|done..].
    assert (Ha' : is_Some (<[a := t]> σ !! a)) by (rewrite lookup_insert_eq; eauto).
    assert (Hb' : is_Some (<[a := t]> σ !! b)).
    { destruct (decide (a = b)) as [->|Hab]; [done|]. by rewrite lookup_insert_ne. }
    pose proof (moved_refs a b (<[a := t]> σ) Ha' Hb') as Hm. simpl in Hm. rewrite Hm.
    apply owns_once_move; [done|].
    rewrite refs_of_lookup. destruct Hb' as [rb' Hb']. by rewrite Hb'.
  - (* Reset() *)
    destruct Hvalid as [r Ha]. simpl holder_exec. unfold zoom. simpl view. rewrite Ha.
    simpl default.
    pose proof (Reset_keeps_ownership _ σ a r h Ha Hown) as Hreset.
    by destruct (Reference_Reset P h r) as [res t l1].
  - (* SuppressDestruct() *)
    destruct Hvalid as [r Ha]. simpl. rewrite Ha. simpl.
    rewrite refs_of_insert. rewrite insert_id; [done|]. by rewrite refs_of_lookup, Ha.
  - (* destruction *)
    destruct Hvalid as [r Ha]. simpl holder_exec.
    destruct (dtor_effect r h) as [Hres Hd].
    unfold mbind, M_bind, bind, zoom, modify. simpl view. rewrite Ha. simpl default.
    destruct (Reference_dtor P h r) as [res t l1]. simpl in Hres, Hd. subst res. simpl.
    rewrite app_nil_r. unfold refs_of at 1. rewrite fmap_delete, fmap_insert, delete_insert_eq.
    fold (refs_of σ).
    destruct Hd as [->|[Hn ->]]; simpl.
    + by apply owns_once_drop.
    + rewrite <- (delete_insert_eq (refs_of σ) a (Reference._env r, nullptr)).
      apply owns_once_drop.
      apply (owns_once_release _ _ a (Reference._env r)); [done| |done].
      by rewrite refs_of_lookup, Ha.
Qed.
End HolderOwnership.

(** X6.  Along any sequence of moves, [Reset()]s, [SuppressDestruct()]s
    and destructions of holders that start out holding different
    references, the host never accepts the release of the same reference
    twice, and no two holders ever hold the same reference. *)
Theorem references_are_released_at_most_once (P : Platform) (ops : list HolderOp)
    (c : list HostEv * Holders) :
  Forall (λ op, acquires op = false) ops ->
  holder_all_valid P ops c ->
  owns_once (accepted_releases c.1) (refs_of c.2) ->
  NoDup (accepted_releases (holder_run P ops c).1)
  ∧ owns_once (accepted_releases (holder_run P ops c).1) (refs_of (holder_run P ops c).2).
Proof.
  intros Hacq Hvalid Hown.
  cut (owns_once (accepted_releases (holder_run P ops c).1) (refs_of (holder_run P ops c).2)).
  { intros H. split; [apply H|exact H]. }
  revert c Hvalid Hown. induction Hacq as [|op ops Hop _ IH]; intros c Hvalid Hown; [done|].
  destruct Hvalid as [Hv Hrest]. simpl. apply IH; [done|].
  by apply holder_op_keeps_ownership.
Qed.

Lemma references_are_released_at_most_once_witness :
  let P := willing false in
  let c := holder_run P sample_holder_ops ([], sample_holders) in
  (Forall (λ op, acquires op = false) sample_holder_ops
   ∧ holder_all_valid P sample_holder_ops ([], sample_holders)
   ∧ owns_once (accepted_releases []) (refs_of sample_holders))
  ∧ NoDup (accepted_releases c.1)
  ∧ accepted_releases c.1 = [6; 5]
  ∧ c.2 = ∅.
Proof.
  intros P c.
  assert (Hacq : Forall (λ op, acquires op = false) sample_holder_ops)
    by (repeat constructor).
  assert (Hall : holder_all_valid P sample_holder_ops ([], sample_holders)).
  { repeat (split; [vm_compute; first [reflexivity | by repeat split; eexists]|]).
    exact I. }
  assert (Hown : owns_once (accepted_releases []) (refs_of sample_holders)).
  { split; [constructor|split].
    - intros a p _ _ Hin. by apply elem_of_nil in Hin.
    - intros a b p q Ha Hb Hpq Hp.
      unfold sample_holders in Ha, Hb. rewrite !refs_of_insert in Ha, Hb.
      apply lookup_insert_Some in Ha as [[<- <-]|[_ Ha]];
        apply lookup_insert_Some in Hb as [[<- <-]|[_ Hb]]; [done| | |].
      + apply lookup_insert_Some in Hb as [[<- <-]|[_ Hb]]; [discriminate Hpq|].
        by rewrite refs_of_lookup in Hb.
      + apply lookup_insert_Some in Ha as [[<- <-]|[_ Ha]]; [discriminate Hpq|].
        by rewrite refs_of_lookup in Ha.
      + apply lookup_insert_Some in Ha as [[<- <-]|[_ Ha]];
          apply lookup_insert_Some in Hb as [[<- <-]|[_ Hb]]; [done|..].
        all: by rewrite refs_of_lookup in *. }
  split; [exact (conj Hacq (conj Hall Hown))|].
  destruct (references_are_released_at_most_once P sample_holder_ops _ Hacq Hall Hown)
    as [Hnodup _].
  split; [exact Hnodup|]. split; vm_compute; reflexivity.
Defined.

Section Suppression.
Context (P : Platform).

Lemma Reset_value_flag (value : Value.t) (n : N) (r : Reference.t) h :
  Reference._suppressDestruct (st (Reference_Reset_value P value n h r))
  = Reference._suppressDestruct r.
Proof.
  unfold Reference_Reset_value. rewrite bind_run.
  destruct (Reset_effect P r h) as (Hf & _).
  destruct (Reference_Reset P h r) as [[[]|x|] t l1]; simpl in Hf |- *; [|done..].
  rewrite st_prepend, modify_bind.
  destruct (is_null (Value._value value)); simpl; [done|].
  rewrite call_bind, st_prepend.
  destruct (status_ok _); simpl; [done|]. by rewrite throw_Error_New_state.
Qed.

(** A holder on which [SuppressDestruct()] was called. *)
Lemma suppressed_after_op (σ : Holders) op a r h :
  holder_valid σ op -> op ≠ HolderDestroy a ->
  σ !! a = Some r -> Reference._suppressDestruct r = true ->
  ∃ r', st (holder_exec P op h σ) !! a = Some r' ∧ Reference._suppressDestruct r' = true.
Proof.
  intros Hvalid Hop Ha Hf.
  destruct op as [t o|t o|t|t v n|t|t]; simpl in Hvalid.
  - destruct Hvalid as [Ht [ro Ho]].
    assert (Hta : t ≠ a) by (intros ->; congruence).
    simpl holder_exec. unfold Reference_move_ctor. unfold_monad. simpl. rewrite Ho. simpl.
    rewrite lookup_insert_ne by done.
    destruct (decide (o = a)) as [->|Hoa]; simplify_map_eq; eauto.
  - destruct Hvalid as [[rt Ht] [ro Ho]].
    simpl holder_exec. rewrite Reference_move_assign_run.
    replace (view (holder_at t) σ) with rt by (simpl; by rewrite Ht).
    destruct (Reset_effect P rt h) as (Hfl & _).
    destruct (Reference_Reset P h rt) as [[[]|x|] rt' l1]; simpl in Hfl |- *.
    + destruct (decide (o = a)) as [->|Hoa]; [destruct (decide (t = a)) as [->|Hta]|
        destruct (decide (t = a)) as [->|Hta]]; simplify_map_eq; eauto.
    + destruct (decide (t = a)) as [->|Hta]; simplify_map_eq; eauto.
    + destruct (decide (t = a)) as [->|Hta]; simplify_map_eq; eauto.
  - destruct Hvalid as [rt Ht]. simpl holder_exec. unfold zoom. simpl view. rewrite Ht.
    simpl default. destruct (Reset_effect P rt h) as (Hfl & _).
    destruct (Reference_Reset P h rt) as [res rt' l1]. simpl in Hfl |- *.
    destruct (decide (t = a)) as [->|Hta]; simplify_map_eq; eauto.
  - destruct Hvalid as [rt Ht]. simpl holder_exec. unfold zoom. simpl view. rewrite Ht.
    simpl default. pose proof (Reset_value_flag v n rt h) as Hfl.
    destruct (Reference_Reset_value P v n h rt) as [res rt' l1]. simpl in Hfl |- *.
    destruct (decide (t = a)) as [->|Hta]; simplify_map_eq; eauto.
  - destruct Hvalid as [rt Ht]. simpl. rewrite Ht. simpl.
    destruct (decide (t = a)) as [->|Hta]; simplify_map_eq; eauto.
  - assert (Hta : t ≠ a) by congruence.
    destruct Hvalid as [rt Ht]. simpl holder_exec.
    unfold mbind, M_bind, bind, zoom, modify. simpl view. rewrite Ht. simpl default.
    pose proof (proj1 (Reference_dtor_returns P rt h)) as Hres.
    destruct (Reference_dtor P h rt) as [res rt' l1]. simpl in Hres. subst res. simpl.
    rewrite lookup_delete_ne, lookup_insert_ne by done. eauto.
Qed.
End Suppression.

(** X7.  [SuppressDestruct()] cannot be undone: whatever is done to the
    holders afterwards, short of destroying it, the flag of a holder
    stays set, so that its destructor will make no call. *)
Theorem SuppressDestruct_is_permanent (P : Platform) (ops : list HolderOp)
    (c : list HostEv * Holders) (a : N) (r : Reference.t) :
  holder_all_valid P ops c ->
  HolderDestroy a ∉ ops ->
  c.2 !! a = Some r -> Reference._suppressDestruct r = true ->
  ∃ r', (holder_run P ops c).2 !! a = Some r'
        ∧ Reference._suppressDestruct r' = true
        ∧ ∀ h', emitted (Reference_dtor P h' r') = [].
Proof.
  revert c r. induction ops as [|op ops IH]; intros c r Hvalid Hnd Ha Hf.
  - exists r. simpl. split; [done|]. split; [done|].
    intros h'. by apply Reference_dtor_suppressed.
  - destruct Hvalid as [Hv Hrest]. apply not_elem_of_cons in Hnd as [Hop Hnd].
    destruct (suppressed_after_op P c.2 op a r c.1 Hv (not_eq_sym Hop) Ha Hf)
      as (r' & Ha' & Hf').
    simpl. by apply (IH _ r').
Qed.

Lemma SuppressDestruct_is_permanent_witness :
  let P := willing false in
  let ops := [HolderResetValue 2 (Value.mk 1 9) 1; HolderMoveAssign 2 1; HolderReset 1] in
  (holder_all_valid P ops ([], sample_holders)
   ∧ (HolderDestroy 2 ∉ ops)
   ∧ sample_holders !! 2 = Some (Reference.mk 1 6 true))
  ∧ (holder_run P ops ([], sample_holders)).2 !! 2 = Some (Reference.mk 1 5 true)
  ∧ emitted (Reference_dtor P (holder_run P ops ([], sample_holders)).1
               (Reference.mk 1 5 true)) = [].
Proof.
  intros P ops.
  assert (Hall : holder_all_valid P ops ([], sample_holders)).
  { repeat (split; [vm_compute; first [reflexivity | by repeat split; eexists]|]).
    exact I. }
  assert (Hnd : HolderDestroy 2 ∉ ops).
  { intros Hin. repeat (apply elem_of_cons in Hin as [Hin|Hin]; [discriminate Hin|]).
    by apply elem_of_nil in Hin. }
  assert (H2 : sample_holders !! 2 = Some (Reference.mk 1 6 true))
    by (vm_compute; reflexivity).
  split; [exact (conj Hall (conj Hnd H2))|].
  destruct (SuppressDestruct_is_permanent P ops ([], sample_holders) 2 _ Hall Hnd H2 eq_refl)
    as (r' & Hr' & _ & Hd).
  assert (Hrun : (holder_run P ops ([], sample_holders)).2 !! 2
                 = Some (Reference.mk 1 5 true)) by (vm_compute; reflexivity).
  split; [exact Hrun|].
  rewrite Hrun in Hr'. injection Hr' as <-. apply Hd.
Defined.

(** ** Scopes are closed on every path *)

Lemma scopes_after_app stack (l k : list HostEv) :
  scopes_after stack (l ++ k)
  = match scopes_after stack l with
    | Some stack' => scopes_after stack' k
    | None => None
    end.
Proof.
  revert stack. induction l as [|e l IH]; intros stack; [reflexivity|].
  simpl. destruct (scope_step stack e); [apply IH|reflexivity].
Qed.

Lemma scopes_after_other stack (l : list HostEv) :
  Forall (λ e, scope_call (ev_call e) = false) l -> scopes_after stack l = Some stack.
Proof.
  induction 1 as [|e l He _ IH]; [reflexivity|].
  simpl. unfold scope_step. destruct (ev_call e); try discriminate He; exact IH.
Qed.

Section Neutral.
Context {E : Type} (events : list E -> list HostEv).
Hypothesis events_app : ∀ l k, events (l ++ k) = events l ++ events k.
Hypothesis events_nil : events [] = [].

Lemma neutral_silent {S A} (m : M E S A) :
  (∀ h s, events (emitted (m h s)) = []) -> scope_neutral_via events m.
Proof. intros Hm h s stack _. by rewrite Hm. Qed.

Lemma neutral_bind {S A B} (m : M E S A) (f : A -> M E S B) :
  scope_neutral_via events m -> (∀ a, scope_neutral_via events (f a)) ->
  scope_neutral_via events (m ≫= f).
Proof.
  intros Hm Hf h s stack. specialize (Hm h s stack). rewrite bind_run.
  destruct (m h s) as [[a|x|] s1 l1]; simpl in *; [|by auto..].
  rewrite res_prepend, emitted_prepend, events_app, scopes_after_app.
  intros Hr. rewrite Hm by done. by apply Hf.
Qed.

Lemma neutral_if {S A} (b : bool) (m m' : M E S A) :
  scope_neutral_via events m -> scope_neutral_via events m' ->
  scope_neutral_via events (if b then m else m').
Proof. by destruct b. Qed.

Lemma neutral_try_catch {S A} (m : M E S A) (handler : exn -> option (M E S A)) :
  scope_neutral_via events m ->
  (∀ x k, handler x = Some k -> scope_neutral_via events k) ->
  scope_neutral_via events (try_catch m handler).
Proof.
  intros Hm Hk h s stack. specialize (Hm h s stack). unfold try_catch.
  destruct (m h s) as [[a|x|] s1 l1]; simpl in *; [by auto| |by auto].
  destruct (handler x) as [k|] eqn:Hh; simpl; [|by auto].
  rewrite res_prepend, emitted_prepend, events_app, scopes_after_app.
  intros Hr. rewrite Hm by done. by apply (Hk x k).
Qed.

(** A body between the opening and the closing of a scope. *)
Lemma neutral_finally {S A} (m : M E S A) (cleanup : M E S unit) :
  scope_neutral_via events m -> scope_neutral_via events cleanup ->
  scope_neutral_via events (finally m cleanup).
Proof.
  intros Hm Hc h s stack. specialize (Hm h s stack). unfold finally.
  destruct (m h s) as [[a|x|] s1 l1]; simpl in *; [| |done].
  - specialize (Hc (rev l1 ++ h) s1 stack).
    destruct (cleanup (rev l1 ++ h) s1) as [r' s2 l2]. simpl in *.
    rewrite events_app, scopes_after_app. intros Hr. rewrite Hm by done.
    apply Hc. by destruct r'.
  - specialize (Hc (rev l1 ++ h) s1 stack).
    destruct (cleanup (rev l1 ++ h) s1) as [r' s2 l2]. simpl in *.
    rewrite events_app, scopes_after_app. intros Hr. rewrite Hm by done.
    apply Hc. by destruct r'.
Qed.

Lemma neutral_zoom {S T A} (l : Lens S T) (m : M E T A) :
  scope_neutral_via events m -> scope_neutral_via events (zoom l m).
Proof.
  intros Hm h s stack. specialize (Hm h (view l s) stack). unfold zoom.
  by destruct (m h (view l s)) as [r t l1].
Qed.

Lemma neutral_on_temp {S T A} (t : T) (m : M E T A) :
  scope_neutral_via events m -> scope_neutral_via events (on_temp (S := S) t m).
Proof.
  intros Hm h s stack. specialize (Hm h t stack). unfold on_temp.
  by destruct (m h t) as [r t' l1].
Qed.
End Neutral.

Section WrapperScopes.
Context (P : Platform).

Lemma neutral_ret {S A} (a : A) : scope_neutral (S := S) (ret a).
Proof. by intros h s stack _. Qed.

Lemma neutral_gets {S A} (f : S -> A) : scope_neutral (gets f).
Proof. by intros h s stack _. Qed.

Lemma neutral_modify {S} (f : S -> S) : scope_neutral (modify f).
Proof. by intros h s stack _. Qed.

Lemma neutral_call {S} (c : HostCall) :
  scope_call c = false -> scope_neutral (S := S) (call P c).
Proof.
  intros Hc h s stack _. simpl. unfold scope_step. simpl.
  destruct c; try discriminate Hc; reflexivity.
Qed.

Lemma neutral_throw_Error_New {S A} env : scope_neutral (S := S) (throw_Error_New P (A := A) env).
Proof.
  intros h s stack _. apply scopes_after_other.
  eapply Forall_impl; [apply throw_Error_New_calls|].
  intros e He. simpl in He. by destruct (ev_call e).
Qed.

(** A call whose status is tested, and what follows it. *)
Lemma neutral_checked {S A} (c : HostCall) env (k : Reply -> M HostEv S A) :
  scope_call c = false -> (∀ r, scope_neutral (k r)) ->
  scope_neutral (r ← call P c;
                 if negb (status_ok (status r)) then throw_Error_New P env else k r).
Proof.
  intros Hc Hk. apply (neutral_bind (λ l, l)); [done|by apply neutral_call|].
  intros r. apply neutral_if; [apply neutral_throw_Error_New|apply Hk].
Qed.

(** [{ HandleScope scope(env); body }] *)
Lemma neutral_with_HandleScope {S A} env (body : M HostEv S A) :
  scope_neutral body -> scope_neutral (with_HandleScope P env body).
Proof.
  intros Hb h s stack. unfold with_HandleScope. rewrite bind_run.
  destruct (decide (accepted (ev P h (napi_open_handle_scope env)))) as [Ha|Ha].
  - rewrite HandleScope_ctor_accepted by done. rewrite res_prepend, emitted_prepend.
    simpl rev. simpl app. unfold finally.
    set (open_ev := ev P h (napi_open_handle_scope env)).
    specialize (Hb (open_ev :: h) s
                  ((PlainScope, env, out (ev_reply open_ev)) :: stack)).
    apply status_ok_true in Ha. simpl in Ha.
    destruct (body (open_ev :: h) s) as [[a|x|] s1 l1]; simpl in Hb |- *;
      [| |done]; intros _; unfold scope_step; simpl; fold open_ev;
      rewrite Ha, scopes_after_app, Hb by done; simpl; unfold scope_step; simpl;
      by rewrite bool_decide_eq_true_2.
  - rewrite HandleScope_ctor_rejected by done.
    set (open_ev := ev P h (napi_open_handle_scope env)).
    pose proof (neutral_throw_Error_New (A := HandleScope.t) env (open_ev :: h) s stack) as Ht.
    pose proof (throw_Error_New_not_returned P (A := HandleScope.t) env (open_ev :: h) s) as Hnr.
    apply status_ok_false in Ha. simpl in Ha.
    destruct (throw_Error_New P env (open_ev :: h) s) as [[a|x|] s1 l1];
      simpl in Ht, Hnr |- *; [done| |done].
    intros _. unfold scope_step. simpl. fold open_ev. rewrite Ha. by apply Ht.
Qed.

(** [{ EscapableHandleScope scope(env); body }] *)
Lemma neutral_with_escapable {S A} env (body : EscapableHandleScope.t -> M HostEv S A) :
  (∀ scope, scope_neutral (body scope)) ->
  scope_neutral (scope ← EscapableHandleScope_ctor P env;
                 finally (body scope) (EscapableHandleScope_dtor P scope)).
Proof.
  intros Hb h s stack. unfold EscapableHandleScope_ctor.
  rewrite bind_assoc, call_bind, res_prepend, emitted_prepend.
  set (open_ev := ev P h (napi_open_escapable_handle_scope env)).
  destruct (status_ok (status (host P h (napi_open_escapable_handle_scope env)))) eqn:Ha;
    cbn [negb]; cbv iota.
  - rewrite ret_bind. unfold finally.
    specialize (Hb (EscapableHandleScope.mk env (out (ev_reply open_ev)))
                  (open_ev :: h) s ((EscapableScope, env, out (ev_reply open_ev)) :: stack)).
    simpl in Hb.
    destruct (body _ (open_ev :: h) s) as [[a|x|] s1 l1]; simpl in Hb |- *;
      [| |done]; intros _; unfold scope_step; simpl;
      rewrite Ha, scopes_after_app, Hb by done; simpl; unfold scope_step; simpl;
      by rewrite bool_decide_eq_true_2.
  - rewrite bind_run.
    pose proof (neutral_throw_Error_New (A := EscapableHandleScope.t) env (open_ev :: h) s stack)
      as Ht.
    pose proof (throw_Error_New_not_returned P (A := EscapableHandleScope.t) env
                  (open_ev :: h) s) as Hnr.
    destruct (throw_Error_New P env (open_ev :: h) s) as [[a|x|] s1 l1];
      simpl in Ht, Hnr |- *; [done| |done].
    intros _. unfold scope_step. simpl. rewrite Ha. by apply Ht.
Qed.

Lemma neutral_Reference_Value {S} (r : Reference.t) : scope_neutral (S := S) (Reference_Value P r).
Proof.
  unfold Reference_Value. apply neutral_if; [apply neutral_ret|].
  apply neutral_checked; [done|]. intros ?. apply neutral_ret.
Qed.

Lemma neutral_Reset : scope_neutral (Reference_Reset P).
Proof.
  unfold Reference_Reset. apply (neutral_bind (λ l, l)); [done|by intros ? ? ? ?|].
  intros this. apply neutral_if; [|apply neutral_ret].
  apply neutral_checked; [done|]. intros ?. apply neutral_modify.
Qed.

Lemma neutral_FunctionReference_MakeCallback {S} (this : Reference.t) recv args :
  scope_neutral (S := S) (FunctionReference_MakeCallback P this recv args).
Proof.
  unfold FunctionReference_MakeCallback.
  apply (neutral_with_escapable _
           (λ scope, f ← Reference_Value P this;
                     v ← Function_MakeCallback P f recv args;
                     EscapableHandleScope_Escape P scope (Value._value v))).
  intros scope.
  apply (neutral_bind (λ l, l)); [done|apply neutral_Reference_Value|]. intros f.
  apply (neutral_bind (λ l, l)); [done| |].
  - unfold Function_MakeCallback. apply neutral_checked; [done|]. intros ?. apply neutral_ret.
  - intros v. unfold EscapableHandleScope_Escape.
    apply neutral_checked; [done|]. intros ?. apply neutral_ret.
Qed.

Lemma neutral_ThrowAsJavaScriptException {S} (e : Error.t) :
  scope_neutral (S := S) (Error_ThrowAsJavaScriptException P e).
Proof.
  unfold Error_ThrowAsJavaScriptException. apply neutral_with_HandleScope.
  apply neutral_if; [|apply neutral_ret].
  apply (neutral_bind (λ l, l)); [done|apply neutral_Reference_Value|]. intros v.
  apply neutral_checked; [done|]. intros ?. apply neutral_ret.
Qed.

Lemma neutral_OnOK : scope_neutral (AsyncWorker_OnOK P).
Proof.
  unfold AsyncWorker_OnOK.
  apply (neutral_bind (λ l, l)); [done|by intros ? ? ? ?|]. intros self.
  apply (neutral_bind (λ l, l)); [done|apply neutral_Reference_Value|]. intros recv.
  apply (neutral_bind (λ l, l)); [done|apply neutral_FunctionReference_MakeCallback|].
  intros ?. apply neutral_ret.
Qed.

Lemma neutral_OnError e : scope_neutral (AsyncWorker_OnError P e).
Proof.
  unfold AsyncWorker_OnError.
  apply (neutral_bind (λ l, l)); [done|by intros ? ? ? ?|]. intros self.
  apply (neutral_bind (λ l, l)); [done|apply neutral_Reference_Value|]. intros recv.
  apply (neutral_bind (λ l, l)); [done|apply neutral_Reference_Value|]. intros err.
  apply (neutral_bind (λ l, l)); [done|apply neutral_FunctionReference_MakeCallback|].
  intros ?. apply neutral_ret.
Qed.

Lemma neutral_copy_assign {S} (this other : Lens S Error.t) :
  scope_neutral (Error_copy_assign P this other).
Proof.
  unfold Error_copy_assign.
  apply (neutral_bind (λ l, l)); [done|apply neutral_zoom, neutral_Reset|]. intros _.
  apply (neutral_bind (λ l, l)); [done|apply neutral_gets|]. intros o.
  apply (neutral_bind (λ l, l)); [done|apply neutral_modify|]. intros _.
  apply (neutral_bind (λ l, l)); [done|apply neutral_gets|]. intros t.
  apply neutral_with_HandleScope.
  apply (neutral_bind (λ l, l)); [done|apply neutral_gets|]. intros o'.
  apply (neutral_bind (λ l, l)); [done|apply neutral_Reference_Value|]. intros v.
  apply neutral_if; [|apply neutral_ret].
  apply (neutral_bind (λ l, l)); [done|apply neutral_gets|]. intros t'.
  apply neutral_checked; [done|]. intros ?. apply neutral_modify.
Qed.
End WrapperScopes.

(** X8.  Every scope that [FunctionReference::MakeCallback],
    [Error::ThrowAsJavaScriptException], [Error::operator =] and the
    default [OnOK] and [OnError] open is closed again, innermost first,
    whether they return or throw; they close no scope of their caller. *)
Theorem wrapper_scopes_are_closed_on_every_path (P : Platform) :
  (∀ S this recv args,
     scope_neutral (S := S) (FunctionReference_MakeCallback P this recv args))
  ∧ (∀ S e, scope_neutral (S := S) (Error_ThrowAsJavaScriptException P e))
  ∧ (∀ S (this other : Lens S Error.t), scope_neutral (Error_copy_assign P this other))
  ∧ scope_neutral (AsyncWorker_OnOK P)
  ∧ (∀ e, scope_neutral (AsyncWorker_OnError P e)).
Proof.
  split; [intros; apply neutral_FunctionReference_MakeCallback|].
  split; [intros; apply neutral_ThrowAsJavaScriptException|].
  split; [intros; apply neutral_copy_assign|].
  split; [apply neutral_OnOK|apply neutral_OnError].
Qed.

Lemma wrapper_scopes_are_closed_on_every_path_witness :
  let P := willing false in
  let refuse := grudging (λ c, bool_decide (c = napi_make_callback 1 7 101 [])) in
  let o := FunctionReference_MakeCallback (S := unit) P (Reference.mk 1 4 false) 7 [] [] tt in
  let o' := FunctionReference_MakeCallback (S := unit) refuse (Reference.mk 1 4 false) 7 [] [] tt in
  (res o ≠ Abort ∧ res o' ≠ Abort)
  ∧ (scopes_after [] (emitted o) = Some [] ∧ returned (res o) = true
     ∧ head (emitted o) = Some (ev P [] (napi_open_escapable_handle_scope 1)))
  ∧ (scopes_after [] (emitted o') = Some [] ∧ returned (res o') = false
     ∧ head (emitted o') = Some (ev refuse [] (napi_open_escapable_handle_scope 1))).
Proof.
  intros P refuse o o'.
  assert (Hr : res o ≠ Abort) by discriminate.
  assert (Hr' : res o' ≠ Abort) by discriminate.
  split; [exact (conj Hr Hr')|].
  destruct (wrapper_scopes_are_closed_on_every_path P) as [Hm _].
  destruct (wrapper_scopes_are_closed_on_every_path refuse) as [Hm' _].
  split.
  - split; [exact (Hm unit _ _ _ [] tt [] Hr)|]. split; reflexivity.
  - split; [exact (Hm' unit _ _ _ [] tt [] Hr')|]. split; reflexivity.
Defined.

Section DispatchScopes.
Context (P : Platform).

Lemma neutral_lift {S A} (m : M HostEv S A) :
  scope_neutral m -> scope_neutral_via host_events (lift m).
Proof.
  intros Hm h s stack. specialize (Hm (host_events h) s stack). unfold lift.
  destruct (m (host_events h) s) as [r s1 l1]. simpl in *. by rewrite host_events_lifted.
Qed.

Lemma neutral_emit {S} (e : Event) :
  host_event e = None -> scope_neutral_via (S := S) host_events (emit e).
Proof. intros He h s stack _. simpl. unfold host_events. simpl. by rewrite He. Qed.

Lemma neutral_Reference_dtor : scope_neutral (Reference_dtor P).
Proof.
  unfold Reference_dtor. apply (neutral_bind (λ l, l)); [done|by intros ? ? ? ?|].
  intros this. apply neutral_if; [|apply neutral_ret].
  apply (neutral_bind (λ l, l)); [done| |intros ?; apply neutral_modify].
  apply neutral_if; [|apply neutral_ret].
  apply (neutral_bind (λ l, l)); [done|by apply neutral_call|]. intros ?. apply neutral_ret.
Qed.

Lemma neutral_AsyncWorker_dtor : scope_neutral (AsyncWorker_dtor P).
Proof.
  unfold AsyncWorker_dtor. apply (neutral_bind (λ l, l)); [done|by intros ? ? ? ?|].
  intros self. apply (neutral_bind (λ l, l)); [done| |intros _].
  - apply neutral_if; [|apply neutral_ret].
    apply (neutral_bind (λ l, l)); [done|by apply neutral_call|]. intros ?.
    apply neutral_modify.
  - apply (neutral_bind (λ l, l)); [done|apply neutral_zoom, neutral_Reference_dtor|].
    intros _. apply neutral_zoom, neutral_Reference_dtor.
Qed.

Lemma neutral_Error_dtor {S} (e : Error.t) : scope_neutral (S := S) (Error_dtor P e).
Proof. unfold Error_dtor. apply neutral_on_temp, neutral_Reference_dtor. Qed.

Lemma neutral_Error_ctor {S} env value : scope_neutral (S := S) (Error_ctor P env value).
Proof.
  intros h s stack _. rewrite Error_ctor_run.
  repeat match goal with |- context [if ?b then _ else _] => destruct b end; reflexivity.
Qed.

Lemma neutral_Error_New_message {S} env message :
  scope_neutral (S := S) (Error_New_message P env message).
Proof.
  unfold Error_New_message. apply neutral_checked; [done|]. intros r.
  apply neutral_checked; [done|]. intros r'. apply neutral_Error_ctor.
Qed.

(** The scope of the dispatch around its [try] statement. *)
Lemma neutral_dispatch_scope {S A} env (body : M Event S A) :
  scope_neutral_via host_events body ->
  scope_neutral_via host_events
    (scope ← lift (HandleScope_ctor P env); finally body (lift (HandleScope_dtor P scope))).
Proof.
  intros Hb h s stack. rewrite bind_run.
  set (open_ev := ev P (host_events h) (napi_open_handle_scope env)).
  destruct (decide (accepted open_ev)) as [Ha|Ha].
  - assert (Hl : lift (HandleScope_ctor P env) h s
                 = mkOut (Ok (HandleScope.mk env (out (ev_reply open_ev)))) s [EvHost open_ev]).
    { unfold lift. by rewrite HandleScope_ctor_accepted. }
    rewrite Hl. cbv beta iota. rewrite res_prepend, emitted_prepend.
    simpl rev. simpl app. unfold finally.
    specialize (Hb (EvHost open_ev :: h) s
                  ((PlainScope, env, out (ev_reply open_ev)) :: stack)).
    apply status_ok_true in Ha. simpl in Ha.
    destruct (body (EvHost open_ev :: h) s) as [[a|x|] s1 l1]; simpl in Hb |- *;
      [| |done]; intros _;
      rewrite Ha, host_events_app, scopes_after_app, Hb by done;
      rewrite host_events_host; simpl; unfold scope_step; simpl;
      by rewrite bool_decide_eq_true_2.
  - assert (Hl : lift (HandleScope_ctor P env) h s
                 = lift (λ h' s', prepend [open_ev]
                                    (throw_Error_New P env (open_ev :: h') s')) h s).
    { unfold lift. by rewrite HandleScope_ctor_rejected. }
    rewrite Hl. unfold lift.
    pose proof (neutral_throw_Error_New P (A := HandleScope.t) env
                  (open_ev :: host_events h) s stack) as Ht.
    pose proof (throw_Error_New_not_returned P (A := HandleScope.t) env
                  (open_ev :: host_events h) s) as Hnr.
    apply status_ok_false in Ha. simpl in Ha.
    destruct (throw_Error_New P env (open_ev :: host_events h) s) as [[a|x|] s1 l1];
      simpl in Ht, Hnr |- *; [done| |done].
    intros _. rewrite Ha, ?host_events_lifted. by apply Ht.
Qed.

Lemma neutral_bridge_bind {S A B} (m : M Event S A) (f : A -> M Event S B) :
  scope_neutral_via host_events m -> (∀ a, scope_neutral_via host_events (f a)) ->
  scope_neutral_via host_events (m ≫= f).
Proof. apply neutral_bind. apply host_events_app. Qed.

Lemma neutral_bridge_finally {S A} (m : M Event S A) (cleanup : M Event S unit) :
  scope_neutral_via host_events m -> scope_neutral_via host_events cleanup ->
  scope_neutral_via host_events (finally m cleanup).
Proof. apply neutral_finally. apply host_events_app. Qed.

Lemma neutral_delete : scope_neutral_via host_events (AsyncWorker_delete P).
Proof.
  unfold AsyncWorker_delete.
  apply neutral_bridge_bind; [apply neutral_lift, neutral_AsyncWorker_dtor|].
  intros _. by apply neutral_emit.
Qed.

Lemma neutral_try_block (V : Methods) :
  scope_neutral (OnOK V) -> (∀ e, scope_neutral (OnError V e)) ->
  scope_neutral_via host_events (OnWorkComplete_try P V).
Proof.
  intros Hok Herr. unfold OnWorkComplete_try.
  apply neutral_bridge_bind; [by intros ? ? ? ?|]. intros self.
  apply neutral_if.
  - apply neutral_bridge_bind; [by apply neutral_emit|].
    intros _. by apply neutral_lift.
  - apply neutral_bridge_bind; [apply neutral_lift, neutral_Error_New_message|].
    intros e. apply neutral_bridge_finally; [|apply neutral_lift, neutral_Error_dtor].
    apply neutral_bridge_bind; [by apply neutral_emit|].
    intros _. by apply neutral_lift.
Qed.

Lemma neutral_handler x k :
  OnWorkComplete_catch P x = Some k -> scope_neutral_via host_events k.
Proof.
  destruct x as [e| |]; simpl; intros Hk; try discriminate Hk. injection Hk as <-.
  apply neutral_bridge_finally; [|apply neutral_lift, neutral_Error_dtor].
  apply neutral_lift, neutral_ThrowAsJavaScriptException.
Qed.

Lemma neutral_dispatch (V : Methods) status :
  scope_neutral (OnOK V) -> (∀ e, scope_neutral (OnError V e)) ->
  scope_neutral_via host_events (AsyncWorker_OnWorkComplete P V status).
Proof.
  intros Hok Herr. unfold AsyncWorker_OnWorkComplete.
  apply neutral_bridge_bind; [|intros _; apply neutral_delete].
  apply neutral_if; [|by intros ? ? ? ?].
  apply neutral_bridge_bind; [by intros ? ? ? ?|]. intros self.
  apply neutral_dispatch_scope.
  apply neutral_try_catch; [apply host_events_app|by apply neutral_try_block|].
  apply neutral_handler.
Qed.
End DispatchScopes.

(** X9.  The completion dispatch closes the scope it opened before it
    destroys the unit, and also when an exception of the handler passes
    through it, provided the handlers of the unit close the scopes they
    open. *)
Theorem completion_dispatch_closes_its_scope (P : Platform) (V : Methods)
    (status : napi_status) h self :
  scope_neutral (OnOK V) -> (∀ e, scope_neutral (OnError V e)) ->
  let o := AsyncWorker_OnWorkComplete P V status h self in
  res o ≠ Abort ->
  ∀ stack, scopes_after stack (host_events (emitted o)) = Some stack.
Proof.
  intros Hok Herr o Hr stack. by apply neutral_dispatch.
Qed.

Lemma completion_dispatch_closes_its_scope_witness :
  let P := willing false in
  let V := {| Execute := λ w, (Completes, w);
              OnOK := throw (ExnStd "std::bad_alloc");
              OnError := AsyncWorker_OnError P |} in
  let o := AsyncWorker_OnWorkComplete P V napi_ok [] sample_unit in
  (scope_neutral (OnOK V) ∧ (∀ e, scope_neutral (OnError V e)) ∧ res o ≠ Abort)
  ∧ res o = Throw (ExnStd "std::bad_alloc")
  ∧ scopes_after [] (host_events (emitted o)) = Some []
  ∧ ev_call <$> host_events (emitted o)
    = [napi_open_handle_scope 1; napi_close_handle_scope 1 100].
Proof.
  intros P V o.
  assert (Hok : scope_neutral (OnOK V)) by (by intros ? ? ? ?).
  assert (Herr : ∀ e, scope_neutral (OnError V e)) by (intros e; apply neutral_OnError).
  assert (Hr : res o ≠ Abort) by discriminate.
  split; [exact (conj Hok (conj Herr Hr))|]. split; [reflexivity|].
  split; [|reflexivity].
  exact (completion_dispatch_closes_its_scope P V napi_ok [] sample_unit Hok Herr Hr []).
Defined.

(** ** A constructor that throws leaves nothing behind *)

Lemma released_refs_app (l k : list HostEv) :
  released_refs (l ++ k) = released_refs l ++ released_refs k.
Proof. apply omap_app. Qed.

Lemma no_release_in_throw (P : Platform) S A env h (s : S) :
  released_refs (emitted (throw_Error_New P (A := A) env h s)) = [].
Proof. apply no_release_in_translation, throw_Error_New_calls. Qed.

(** Decide what remains by the handles the destructors test. *)
Ltac by_cases_on_handles :=
  repeat (rewrite ?res_prepend, ?emitted_prepend; simpl;
          try match goal with
              | |- context [if is_null ?b then _ else _] => destruct (is_null b) eqn:?
              end).

(** The references released in an explicit trace around the calls of a
    translation, which releases none. *)
Ltac count_releases H :=
  intros _; unfold released_refs in *; simpl; rewrite ?omap_app, ?H; reflexivity.

(** X10.  When the two-argument constructor throws, every reference it
    had registered has been released again, the later one first, on a
    platform where the flag of a new holder reads as clear. *)
Theorem constructor_failure_releases_captured_references (P : Platform) (this : ptr)
    (receiver callback : Value.t) h :
  Value._value receiver ≠ nullptr ->
  Value._value callback ≠ nullptr ->
  (∀ h', indeterminate P h' = false) ->
  let env := Value._env callback in
  let c1 := ev P h (napi_create_reference (Value._env receiver) (Value._value receiver) 1) in
  let c2 := ev P (c1 :: h) (napi_create_reference env (Value._value callback) 1) in
  let c3 := ev P (c2 :: c1 :: h) (napi_create_async_work env this) in
  let o := AsyncWorker_ctor P this receiver callback h tt in
  res o ≠ Abort ->
  released_refs (emitted o)
  = if decide (accepted c1) then
      if decide (accepted c2) then
        if decide (accepted c3) then [] else held (out (ev_reply c2)) ++ held (out (ev_reply c1))
      else held (out (ev_reply c1))
    else [].
Proof.
  intros Hr Hc Hind env c1 c2 c3 o. subst o c3 c2 c1. unfold ev, accepted, held.
  apply is_null_false in Hr. apply is_null_false in Hc.
  unfold AsyncWorker_ctor, Persistent_Object, Persistent_Function, Reference_New,
    Reference_convert, Reference_move_ctor, Reference_ctor, Reference_dtor, unwinding.
  rewrite Hr, Hc. fold env. unfold_monad. cbn beta iota. simpl.
  case_status; rewrite ?Hind; simpl.
  2:{ apply status_ok_false in Hst. rewrite decide_False by done.
      case_thrown_in_goal (no_release_in_throw P); [|done].
      intros _. exact Hnc. }
  apply status_ok_true in Hst. rewrite decide_True by done.
  case_status; rewrite ?Hind; simpl.
  2:{ apply status_ok_false in Hst0. rewrite decide_False by done.
      case_thrown_in_goal (no_release_in_throw P); rewrite ?Hind; simpl;
        by_cases_on_handles; first [done | count_releases Hnc]. }
  apply status_ok_true in Hst0. rewrite decide_True by done.
  case_status; rewrite ?Hind; simpl.
  2:{ apply status_ok_false in Hst1. rewrite decide_False by done.
      case_thrown_in_goal (no_release_in_throw P); rewrite ?Hind; simpl;
        by_cases_on_handles; first [done | count_releases Hnc]. }
  apply status_ok_true in Hst1. rewrite decide_True by done. done.
Qed.

Lemma constructor_failure_releases_captured_references_witness :
  let P := grudging (λ c, bool_decide (c = napi_create_async_work 1 50)) in
  let o := AsyncWorker_ctor P 50 (Value.mk 1 6) (Value.mk 1 7) [] tt in
  (Value._value (Value.mk 1 6) ≠ nullptr ∧ Value._value (Value.mk 1 7) ≠ nullptr
   ∧ (∀ h', indeterminate P h' = false) ∧ res o ≠ Abort)
  ∧ returned (res o) = false
  ∧ released_refs (emitted o) = [101; 100].
Proof.
  intros P o.
  assert (H6 : Value._value (Value.mk 1 6) ≠ nullptr) by discriminate.
  assert (H7 : Value._value (Value.mk 1 7) ≠ nullptr) by discriminate.
  assert (Hind : ∀ h', indeterminate P h' = false) by reflexivity.
  assert (Hr : res o ≠ Abort) by discriminate.
  split; [exact (conj H6 (conj H7 (conj Hind Hr)))|]. split; [reflexivity|].
  subst o.
  rewrite (constructor_failure_releases_captured_references P 50 _ _ [] H6 H7 Hind Hr).
  reflexivity.
Defined.

(** ** Copies of an error *)

(** X11.  A copy of an [Error] registers a reference of its own, with
    count 1, on the value the original refers to; the original keeps its
    reference, and the copy of an empty [Error] is empty and costs no
    call. The cached message is not copied. *)
Theorem Error_copy_registers_its_own_reference (P : Platform) {S} (other : Error.t)
    h (s : S) :
  let env := Reference._env (Error.base other) in
  let ref := Reference._ref (Error.base other) in
  let g := ev P h (napi_get_reference_value env ref) in
  let c := ev P (g :: h) (napi_create_reference env (out (ev_reply g)) 1) in
  let o := Error_copy_ctor P other h s in
  (ref = nullptr ->
   o = mkOut (Ok (Error.mk (Reference.mk env nullptr (indeterminate P h)) "")) s [])
  ∧ (ref ≠ nullptr -> accepted g -> out (ev_reply g) ≠ nullptr -> accepted c ->
     o = mkOut (Ok (Error.mk (Reference.mk env (out (ev_reply c))
                                (indeterminate P (g :: h))) "")) s [g; c])
  ∧ released_refs (emitted o) = []
  ∧ st o = s.
Proof.
  intros env ref g c o. subst o. unfold Error_copy_ctor, Reference_Value. fold env ref.
  split; [|split; [|split]].
  - intros Hr. apply is_null_true in Hr. rewrite Hr, ret_bind, Error_ctor_run. reflexivity.
  - intros Hr Hg Hv Hc. apply is_null_false in Hr. apply is_null_false in Hv.
    apply status_ok_true in Hg. apply status_ok_true in Hc. simpl in Hg, Hc.
    rewrite Hr, bind_assoc, call_bind. fold g. simpl ev_reply in *. rewrite Hg.
    cbn [negb]. cbv iota. rewrite ret_bind, Error_ctor_run. simpl Value._value.
    rewrite Hv. fold c. simpl ev_reply. rewrite Hc. reflexivity.
  - destruct (is_null ref).
    + rewrite ret_bind, Error_ctor_run. reflexivity.
    + rewrite bind_assoc, call_bind. fold g. rewrite emitted_prepend, released_refs_app.
      destruct (status_ok (status (host P h _))); cbn [negb]; cbv iota.
      * rewrite ret_bind, Error_ctor_run.
        repeat match goal with |- context [if ?b then _ else _] => destruct b end;
          reflexivity.
      * rewrite bind_run.
        pose proof (no_release_in_throw P S Value.t env (g :: h) s) as Hn.
        destruct (throw_Error_New P env (g :: h) s) as [[a|x|] s1 l1]; simpl in Hn |- *;
          rewrite ?emitted_prepend, ?released_refs_app, ?Hn, ?Error_ctor_run;
          repeat match goal with |- context [if ?b then _ else _] => destruct b end;
          reflexivity.
  - destruct (is_null ref).
    + by rewrite ret_bind, Error_ctor_state.
    + rewrite bind_assoc, call_bind, st_prepend. fold g.
      destruct (status_ok (status (host P h _))); cbn [negb]; cbv iota.
      * by rewrite ret_bind, Error_ctor_state.
      * rewrite bind_run.
        pose proof (throw_Error_New_state P (A := Value.t) env (g :: h) s) as Hs.
        destruct (throw_Error_New P env (g :: h) s) as [[a|x|] s1 l1]; simpl in Hs |- *;
          subst s1; rewrite ?st_prepend, ?Error_ctor_state; reflexivity.
Qed.

Lemma Error_copy_registers_its_own_reference_witness :
  let P := willing false in
  let other := Error.mk (Reference.mk 1 9 false) "disk read failed" in
  let o := Error_copy_ctor (S := unit) P other [] tt in
  (Reference._ref (Error.base other) ≠ nullptr
   ∧ accepted (ev P [] (napi_get_reference_value 1 9))
   ∧ out (ev_reply (ev P [] (napi_get_reference_value 1 9))) ≠ nullptr
   ∧ accepted (ev P [ev P [] (napi_get_reference_value 1 9)] (napi_create_reference 1 100 1)))
  ∧ res o = Ok (Error.mk (Reference.mk 1 101 false) "")
  ∧ ev_call <$> emitted o = [napi_get_reference_value 1 9; napi_create_reference 1 100 1].
Proof.
  intros P other o.
  assert (Hr : Reference._ref (Error.base other) ≠ nullptr) by discriminate.
  assert (Hg : accepted (ev P [] (napi_get_reference_value 1 9))) by reflexivity.
  assert (Hv : out (ev_reply (ev P [] (napi_get_reference_value 1 9))) ≠ nullptr)
    by discriminate.
  assert (Hc : accepted (ev P [ev P [] (napi_get_reference_value 1 9)]
                           (napi_create_reference 1 100 1))) by reflexivity.
  split; [exact (conj Hr (conj Hg (conj Hv Hc)))|].
  destruct (Error_copy_registers_its_own_reference (S := unit) P other [] tt)
    as (_ & Hcopy & _).
  subst o. rewrite (Hcopy Hr Hg Hv Hc). split; reflexivity.
Defined.

(** X12.  Copy assignment releases the reference of the target, then
    registers a new reference, with count 1, on the value of the source,
    inside a handle scope of its own. The source is left as it was, and
    so is the cached message of the target. *)
Theorem Error_copy_assign_takes_a_new_reference (P : Platform) (t o : Error.t) h :
  let d := ev P h (napi_delete_reference (Reference._env (Error.base t))
                     (Reference._ref (Error.base t))) in
  let env := Reference._env (Error.base o) in
  let open_ev := ev P (d :: h) (napi_open_handle_scope env) in
  let g := ev P (open_ev :: d :: h)
             (napi_get_reference_value env (Reference._ref (Error.base o))) in
  let c := ev P (g :: open_ev :: d :: h) (napi_create_reference env (out (ev_reply g)) 1) in
  let close_ev := ev P (c :: g :: open_ev :: d :: h)
                    (napi_close_handle_scope env (out (ev_reply open_ev))) in
  Reference._ref (Error.base t) ≠ nullptr ->
  Reference._ref (Error.base o) ≠ nullptr ->
  out (ev_reply g) ≠ nullptr ->
  Forall accepted [d; open_ev; g; c] ->
  Error_copy_assign P lens_fst lens_snd h (t, o)
  = mkOut (Ok tt)
      (Error.mk (Reference.mk env (out (ev_reply c))
                   (Reference._suppressDestruct (Error.base t)))
         (Error._message t), o)
      [d; open_ev; g; c; close_ev].
Proof.
  intros d env open_ev g c close_ev Ht Ho Hv Hall.
  apply Forall_cons_1 in Hall as [Hd Hall]. apply Forall_cons_1 in Hall as [Hopen Hall].
  apply Forall_cons_1 in Hall as [Hg Hall]. apply Forall_cons_1 in Hall as [Hc _].
  apply status_ok_true in Hd, Hopen, Hg, Hc. simpl in Hd, Hopen, Hg, Hc.
  apply is_null_false in Ht, Ho, Hv. simpl in Hv.
  subst close_ev c g open_ev d env. unfold ev in *.
  unfold Error_copy_assign, with_HandleScope, HandleScope_ctor, HandleScope_dtor,
    Reference_Value, Reference_Reset, lens_compose, Error_base, lens_fst, lens_snd.
  unfold_monad. simpl.
  rewrite Ht. simpl. rewrite Hd. simpl. rewrite Hopen. simpl. rewrite Ho. simpl.
  rewrite Hg. simpl. rewrite Hv. simpl. rewrite Hc. simpl. reflexivity.
Qed.

Lemma Error_copy_assign_takes_a_new_reference_witness :
  let P := willing false in
  let t := Error.mk (Reference.mk 1 8 false) "first failure" in
  let o := Error.mk (Reference.mk 1 9 false) "" in
  let r := Error_copy_assign P lens_fst lens_snd [] (t, o) in
  (Reference._ref (Error.base t) ≠ nullptr ∧ Reference._ref (Error.base o) ≠ nullptr)
  ∧ st r = (Error.mk (Reference.mk 1 103 false) "first failure", o)
  ∧ ev_call <$> emitted r
    = [napi_delete_reference 1 8; napi_open_handle_scope 1; napi_get_reference_value 1 9;
       napi_create_reference 1 102 1; napi_close_handle_scope 1 101].
Proof.
  intros P t o r.
  assert (Ht : Reference._ref (Error.base t) ≠ nullptr) by discriminate.
  assert (Ho : Reference._ref (Error.base o) ≠ nullptr) by discriminate.
  split; [exact (conj Ht Ho)|]. subst r.
  rewrite (Error_copy_assign_takes_a_new_reference P t o [] Ht Ho);
    [split; reflexivity|discriminate|repeat constructor].
Defined.

(** X13.  Copy-assigning an [Error] to itself releases its reference and
    leaves it empty: the value is read only after [Reset()]. *)
Theorem Error_self_copy_assign_empties (P : Platform) (e : Error.t) h :
  let env := Reference._env (Error.base e) in
  let d := ev P h (napi_delete_reference env (Reference._ref (Error.base e))) in
  let open_ev := ev P (d :: h) (napi_open_handle_scope env) in
  let close_ev := ev P (open_ev :: d :: h)
                    (napi_close_handle_scope env (out (ev_reply open_ev))) in
  Reference._ref (Error.base e) ≠ nullptr ->
  accepted d -> accepted open_ev ->
  Error_copy_assign P lens_id lens_id h e
  = mkOut (Ok tt)
      (Error.mk (Reference.mk env nullptr (Reference._suppressDestruct (Error.base e)))
         (Error._message e))
      [d; open_ev; close_ev].
Proof.
  intros env d open_ev close_ev He Hd Hopen.
  apply status_ok_true in Hd, Hopen. simpl in Hd, Hopen. apply is_null_false in He.
  subst close_ev open_ev d env. unfold ev in *.
  unfold Error_copy_assign, with_HandleScope, HandleScope_ctor, HandleScope_dtor,
    Reference_Value, Reference_Reset, lens_compose, Error_base, lens_id.
  unfold_monad. simpl.
  rewrite He. simpl. rewrite Hd. simpl. rewrite Hopen. simpl. reflexivity.
Qed.

Lemma Error_self_copy_assign_empties_witness :
  let P := willing false in
  let e := Error.mk (Reference.mk 1 9 false) "disk read failed" in
  let r := Error_copy_assign P lens_id lens_id [] e in
  (Reference._ref (Error.base e) ≠ nullptr
   ∧ accepted (ev P [] (napi_delete_reference 1 9))
   ∧ accepted (ev P [ev P [] (napi_delete_reference 1 9)] (napi_open_handle_scope 1)))
  ∧ st r = Error.mk (Reference.mk 1 nullptr false) "disk read failed"
  ∧ released_refs (emitted r) = [9].
Proof.
  intros P e r.
  assert (He : Reference._ref (Error.base e) ≠ nullptr) by discriminate.
  assert (Hd : accepted (ev P [] (napi_delete_reference 1 9))) by reflexivity.
  assert (Hopen : accepted (ev P [ev P [] (napi_delete_reference 1 9)]
                              (napi_open_handle_scope 1))) by reflexivity.
  split; [exact (conj He (conj Hd Hopen))|]. subst r.
  rewrite (Error_self_copy_assign_empties P e [] He Hd Hopen). split; reflexivity.
Defined.

(** ** Moving a unit into a new one *)

(** The move constructor, from the unit [other] into new storage
    (whatever it held): no call is made and nothing can fail. *)
Lemma AsyncWorker_move_ctor_run (P : Platform) (storage other : AsyncWorker.t) h :
  AsyncWorker_move_ctor P lens_fst lens_snd h (storage, other)
  = mkOut (Ok tt)
      (AsyncWorker.mk (AsyncWorker._env other) (AsyncWorker._work other)
         (Reference.mk (Reference._env (AsyncWorker._receiver other))
            (Reference._ref (AsyncWorker._receiver other)) false)
         (Reference.mk (Reference._env (AsyncWorker._callback other))
            (Reference._ref (AsyncWorker._callback other)) false)
         (AsyncWorker._error other),
       AsyncWorker.mk nullptr nullptr
         (Reference.mk nullptr nullptr
            (Reference._suppressDestruct (AsyncWorker._receiver other)))
         (Reference.mk nullptr nullptr
            (Reference._suppressDestruct (AsyncWorker._callback other)))
         (AsyncWorker._error other))
      [].
Proof.
  unfold AsyncWorker_move_ctor, AsyncWorker_move_body, Reference_move_assign,
    Reference_Reset, lens_compose, AsyncWorker.receiver, AsyncWorker.callback,
    lens_fst, lens_snd.
  unfold_monad. simpl. reflexivity.
Qed.

(** X14.  Move construction of a unit makes no ABI call and cannot fail.
    The new unit has the context, the work-queue entry, the two
    references and the error text of the old one, which is left without
    any of the handles: destroying the old unit afterwards makes no
    call, and destroying the new one tears down the entry and releases
    both references, whether or not [SuppressDestruct] had been called
    on the holders of the old unit. *)
Theorem unit_move_construction_hands_over_everything (P : Platform)
    (storage other : AsyncWorker.t) h :
  let o := AsyncWorker_move_ctor P lens_fst lens_snd h (storage, other) in
  let new := (st o).1 in
  let old := (st o).2 in
  (res o = Ok tt ∧ emitted o = [])
  ∧ (work_fields new = work_fields other
     ∧ ref_fields (AsyncWorker._receiver new) = ref_fields (AsyncWorker._receiver other)
     ∧ ref_fields (AsyncWorker._callback new) = ref_fields (AsyncWorker._callback other)
     ∧ AsyncWorker._error new = AsyncWorker._error other)
  ∧ (work_fields old = (nullptr, nullptr)
     ∧ ref_fields (AsyncWorker._receiver old) = (nullptr, nullptr)
     ∧ ref_fields (AsyncWorker._callback old) = (nullptr, nullptr))
  ∧ (∀ h', emitted (AsyncWorker_dtor P h' old) = [])
  ∧ (∀ h', deleted_works (emitted (AsyncWorker_dtor P h' new))
           = held (AsyncWorker._work other)
           ∧ released_refs (emitted (AsyncWorker_dtor P h' new))
             = held (Reference._ref (AsyncWorker._callback other))
               ++ held (Reference._ref (AsyncWorker._receiver other))).
Proof.
  intros o new old. subst new old o. rewrite AsyncWorker_move_ctor_run. simpl.
  split; [done|]. split; [done|]. split; [done|]. split.
  - intros h'. unfold AsyncWorker_dtor, Reference_dtor, AsyncWorker.callback,
      AsyncWorker.receiver. unfold_monad. reflexivity.
  - intros h'. rewrite dtor_deleted_works, AsyncWorker_dtor_releases_refs. simpl.
    unfold held. rewrite !andb_true_r.
    by destruct (is_null (AsyncWorker._work other)),
         (is_null (Reference._ref (AsyncWorker._callback other))),
         (is_null (Reference._ref (AsyncWorker._receiver other))).
Qed.

(** * Values, strings, buffers and callbacks *)

(** ** The two groups of calls in one trace *)

Lemma bridge_events_app (l k : list AbiEv) :
  bridge_events (l ++ k) = bridge_events l ++ bridge_events k.
Proof. apply omap_app. Qed.

Lemma value_calls_app (l k : list AbiEv) :
  value_calls (l ++ k) = value_calls l ++ value_calls k.
Proof. apply omap_app. Qed.

Lemma allocations_app (l k : list AbiEv) :
  allocations (l ++ k) = allocations l ++ allocations k.
Proof. apply omap_app. Qed.

Lemma frees_app (l k : list AbiEv) : frees (l ++ k) = frees l ++ frees k.
Proof. apply omap_app. Qed.

Lemma bridge_events_bridged (l : list HostEv) : bridge_events (BridgeEv <$> l) = l.
Proof. induction l as [|e l IH]; [done|]. simpl. by f_equal. Qed.

Lemma value_calls_bridged (l : list HostEv) : value_calls (BridgeEv <$> l) = [].
Proof. by induction l. Qed.

Lemma allocations_bridged (l : list HostEv) : allocations (BridgeEv <$> l) = [].
Proof. by induction l. Qed.

Lemma frees_bridged (l : list HostEv) : frees (BridgeEv <$> l) = [].
Proof. by induction l. Qed.

Section AbiLaws.
Context (R : Runtime) {S : Type}.

Lemma vcall_bind {B} (c : ValueCall) (f : ValueReply -> M AbiEv S B) h s :
  (vcall R c ≫= f) h s
  = prepend [ValueEv c (value_host R h c)]
      (f (value_host R h c) (ValueEv c (value_host R h c) :: h) s).
Proof. reflexivity. Qed.

Lemma new_block_bind {B} (f : ptr -> M AbiEv S B) h s :
  (new_block R ≫= f) h s
  = prepend [NewEv (Npos (operator_new R h))]
      (f (Npos (operator_new R h)) (NewEv (Npos (operator_new R h)) :: h) s).
Proof. reflexivity. Qed.

Lemma delete_block_bind {B} (p : ptr) (f : unit -> M AbiEv S B) h s :
  (delete_block p ≫= f) h s = prepend [DeleteEv p] (f tt (DeleteEv p :: h) s).
Proof. reflexivity. Qed.

Lemma bridged_run {A} (m : Platform -> M HostEv S A) h s :
  bridged R m h s
  = mkOut (res (m (platform_at R h) [] s)) (st (m (platform_at R h) [] s))
      (BridgeEv <$> emitted (m (platform_at R h) [] s)).
Proof. unfold bridged. by destruct (m (platform_at R h) [] s). Qed.

(** [throw Error::New(env)] does not return, leaves the objects as they
    are, and makes calls of the first group only. *)
Lemma throw_Error_run {A} env h (s : S) :
  ∃ r l, throw_Error R (A := A) env h s = mkOut r s (BridgeEv <$> l) ∧ returned r = false.
Proof.
  unfold throw_Error. rewrite bridged_run.
  eexists _, _. split; [|apply throw_Error_New_not_returned].
  by rewrite throw_Error_New_state.
Qed.

(** The end of a [catch] block returns. *)
Lemma caught_run x h (s : S) :
  ∃ l, caught R x h s = mkOut (Ok tt) s (BridgeEv <$> l).
Proof.
  destruct x as [e| |]; simpl; [|by exists []..].
  rewrite bridged_run.
  destruct (Error_dtor_returns (platform_at R h) e [] s) as [-> ->]. by eexists.
Qed.
End AbiLaws.

(** ** Typed arrays *)

Section TypedArrayInfo.
Context (R : Runtime).

Lemma TypedArrayType_known (a : TypedArray.t) h :
  TypedArray._type a ≠ unknown_array_type ->
  TypedArray_TypedArrayType R h a = mkOut (Ok (TypedArray._type a)) a [].
Proof.
  intros Hk. unfold TypedArray_TypedArrayType.
  rewrite get_bind, bool_decide_eq_false_2 by done. by rewrite ret_bind.
Qed.

Lemma ElementLength_known (a : TypedArray.t) h :
  TypedArray._type a ≠ unknown_array_type ->
  TypedArray_ElementLength R h a = mkOut (Ok (TypedArray._length a)) a [].
Proof.
  intros Hk. unfold TypedArray_ElementLength.
  rewrite get_bind, bool_decide_eq_false_2 by done. by rewrite ret_bind.
Qed.

Lemma TypedArrayType_asks (a : TypedArray.t) h :
  let query := napi_get_typedarray_info (TypedArray._env a) (TypedArray._value a)
                 QueryTypeLength in
  let r := value_host R h query in
  TypedArray._type a = unknown_array_type -> vstatus r = napi_ok ->
  TypedArray_TypedArrayType R h a
  = mkOut (Ok (varray_type r)) (TypedArray.set_info (varray_type r) (size_t R (vsize r)) a)
      [ValueEv query r].
Proof.
  intros query r Hu Ha. unfold TypedArray_TypedArrayType.
  rewrite get_bind, bool_decide_eq_true_2, bind_assoc, vcall_bind by done.
  fold query r. by rewrite Ha.
Qed.

Lemma ElementLength_asks (a : TypedArray.t) h :
  let query := napi_get_typedarray_info (TypedArray._env a) (TypedArray._value a)
                 QueryTypeLength in
  let r := value_host R h query in
  TypedArray._type a = unknown_array_type -> vstatus r = napi_ok ->
  TypedArray_ElementLength R h a
  = mkOut (Ok (size_t R (vsize r))) (TypedArray.set_info (varray_type r) (size_t R (vsize r)) a)
      [ValueEv query r].
Proof.
  intros query r Hu Ha. unfold TypedArray_ElementLength.
  rewrite get_bind, bool_decide_eq_true_2, bind_assoc, vcall_bind by done.
  fold query r. by rewrite Ha.
Qed.

Lemma ByteLength_known (a : TypedArray.t) order h :
  TypedArray._type a ≠ unknown_array_type ->
  TypedArray_ByteLength R order h a
  = mkOut (Ok (size_t R (element_size (TypedArray._type a) * TypedArray._length a))) a [].
Proof.
  intros Hk. unfold TypedArray_ByteLength, TypedArray_ElementSize.
  destruct order; rewrite ?bind_assoc, bind_run.
  - rewrite TypedArrayType_known by done. cbv beta iota. rewrite prepend_nil, ret_bind, bind_run.
    by rewrite ElementLength_known.
  - rewrite ElementLength_known by done. cbv beta iota.
    rewrite prepend_nil, bind_assoc, bind_run, TypedArrayType_known by done. done.
Qed.
End TypedArrayInfo.

(** X15.  The byte length of a typed array whose type is not known yet
    costs one query, whichever operand of the product is evaluated
    first: if the host accepts the query and reports a type, the result
    is the reported element count times the element size of the reported
    type, in [size_t] arithmetic, and every later request is answered
    from the object, with no call at all. *)
Theorem TypedArray_ByteLength_asks_once (R : Runtime) (a : TypedArray.t)
    (order order' : bool) (h h' : list AbiEv) :
  let query := napi_get_typedarray_info (TypedArray._env a) (TypedArray._value a)
                 QueryTypeLength in
  let r := value_host R h query in
  let o := TypedArray_ByteLength R order h a in
  TypedArray._type a = unknown_array_type ->
  vstatus r = napi_ok ->
  varray_type r ≠ unknown_array_type ->
  emitted o = [ValueEv query r]
  ∧ res o = Ok (size_t R (element_size (varray_type r) * size_t R (vsize r)))
  ∧ TypedArray_ByteLength R order' h' (st o) = mkOut (res o) (st o) [].
Proof.
  intros query r o Hu Ha Hk.
  assert (Ho : o = mkOut (Ok (size_t R (element_size (varray_type r) * size_t R (vsize r))))
                 (TypedArray.set_info (varray_type r) (size_t R (vsize r)) a)
                 [ValueEv query r]).
  { unfold o, TypedArray_ByteLength, TypedArray_ElementSize.
    destruct order; rewrite ?bind_assoc, bind_run.
    - rewrite TypedArrayType_asks by done. cbv beta iota. fold query r.
      rewrite ret_bind, bind_run, ElementLength_known by done. done.
    - rewrite ElementLength_asks by done. cbv beta iota. fold query r.
      rewrite bind_assoc, bind_run, TypedArrayType_known by done. done. }
  rewrite Ho. simpl. split; [done|]. split; [done|].
  by rewrite ByteLength_known.
Qed.

Lemma TypedArray_ByteLength_asks_once_witness :
  let a := TypedArray_ctor 1 7 in
  let o := TypedArray_ByteLength willing_runtime true [] a in
  res o = Ok 24
  ∧ TypedArray_ByteLength willing_runtime false (rev (emitted o)) (st o) = mkOut (Ok 24) (st o) [].
Proof.
  intros a o.
  destruct (TypedArray_ByteLength_asks_once willing_runtime a true false [] (rev (emitted o)))
    as (_ & Hr & Hn); [reflexivity..|done|].
  split; [exact Hr|]. etransitivity; [exact Hn|]. f_equal; exact Hr.
Defined.

(** ** Buffers *)

Section BufferInfo.
Context (R : Runtime) (sizeof_T : positive).

Lemma EnsureInfo_known (b : Buffer.t) h :
  Buffer._data b ≠ nullptr -> Buffer_EnsureInfo R sizeof_T h b = mkOut (Ok tt) b [].
Proof.
  intros Hd. unfold Buffer_EnsureInfo. rewrite get_bind.
  by rewrite (proj2 (is_null_false _) Hd).
Qed.

Lemma Buffer_Length_known (b : Buffer.t) h :
  Buffer._data b ≠ nullptr ->
  Buffer_Length R sizeof_T h b = mkOut (Ok (Buffer._length b)) b [].
Proof.
  intros Hd. unfold Buffer_Length. rewrite bind_run, EnsureInfo_known by done. done.
Qed.

Lemma Buffer_Data_known (b : Buffer.t) h :
  Buffer._data b ≠ nullptr ->
  Buffer_Data R sizeof_T h b = mkOut (Ok (Buffer._data b)) b [].
Proof.
  intros Hd. unfold Buffer_Data. rewrite bind_run, EnsureInfo_known by done. done.
Qed.
End BufferInfo.

(** X16.  The length of a buffer that was wrapped without its length is
    asked of the host once: the number of whole elements in the
    reported byte length.  When the host also reported where the data
    is, later requests for length or data are answered from the object,
    with no call at all. *)
Theorem Buffer_Length_counts_whole_elements (R : Runtime) (sizeof_T : positive)
    (env : napi_env) (value : napi_value) (h h' : list AbiEv) :
  let query := napi_get_buffer_info env value in
  let r := value_host R h query in
  let o := Buffer_Length R sizeof_T h (Buffer_ctor env value) in
  vstatus r = napi_ok ->
  ∃ n, res o = Ok n
       ∧ emitted o = [ValueEv query r]
       ∧ n * Npos sizeof_T ≤ size_t R (vsize r) < (n + 1) * Npos sizeof_T
       ∧ (vdata r ≠ nullptr ->
          Buffer_Length R sizeof_T h' (st o) = mkOut (Ok n) (st o) []
          ∧ Buffer_Data R sizeof_T h' (st o) = mkOut (Ok (vdata r)) (st o) []).
Proof.
  intros query r o Ha.
  assert (Ho : o = mkOut (Ok (size_t R (vsize r) / Npos sizeof_T))
                 (Buffer.mk env value (size_t R (vsize r) / Npos sizeof_T) (vdata r))
                 [ValueEv query r]).
  { unfold o, Buffer_Length, Buffer_EnsureInfo, Buffer_ctor.
    rewrite bind_assoc, get_bind. simpl is_null. cbv iota.
    rewrite bind_assoc, vcall_bind. simpl Buffer._env. simpl Buffer._value.
    fold query r. by rewrite Ha. }
  exists (size_t R (vsize r) / Npos sizeof_T). rewrite Ho. simpl.
  split; [done|]. split; [done|]. split.
  - split.
    + rewrite N.mul_comm. apply N.Div0.mul_div_le.
    + rewrite N.mul_comm, N.add_1_r. apply N.mul_succ_div_gt. done.
  - intros Hd. by rewrite Buffer_Length_known, Buffer_Data_known.
Qed.

Lemma Buffer_Length_counts_whole_elements_witness :
  let o := Buffer_Length willing_runtime 4 [] (Buffer_ctor 1 7) in
  res o = Ok 2
  ∧ Buffer_Length willing_runtime 4 (rev (emitted o)) (st o) = mkOut (Ok 2) (st o) [].
Proof.
  intros o.
  destruct (Buffer_Length_counts_whole_elements willing_runtime 4 1 7 [] (rev (emitted o)))
    as (n & Hr & _ & _ & Hn); [reflexivity|].
  assert (n = 2) as -> by (vm_compute in Hr; congruence).
  split; [exact Hr|]. apply Hn. done.
Defined.



(** ** Strings *)

Lemma buffer_prefix_length (n : nat) (text : string) :
  String.length (buffer_prefix n text) = n.
Proof.
  revert text. induction n as [|n IH]; intros text; [done|].
  destruct text; simpl; by rewrite IH.
Qed.

Lemma buffer_prefix_whole (text : string) : buffer_prefix (String.length text) text = text.
Proof. induction text as [|c text IH]; [done|]. simpl. by rewrite IH. Qed.

(** X18.  [String::Utf8Value] reads a string in two calls: it asks for
    the length with no buffer, then hands over a buffer that is larger
    than the reported length, so that the text and its terminator fit.
    When both calls are accepted and the length is below the longest
    string, the result has exactly the reported length, and it is the
    text the host wrote if that has this length. *)
Theorem Utf8Value_reads_the_whole_string (R : Runtime) {S} (this : Value.t)
    (h : list AbiEv) (s : S) :
  let ask := napi_get_value_string_utf8 (Value._env this) (Value._value this) None in
  let r := value_host R h ask in
  let n := size_t R (vsize r) in
  let capacity := n + 1 + extra_capacity R (n + 1) in
  let read := napi_get_value_string_utf8 (Value._env this) (Value._value this)
                (Some capacity) in
  let r' := value_host R (ValueEv ask r :: h) read in
  let o := String_Utf8Value R this h s in
  vstatus r = napi_ok ->
  n < string_max_size R ->
  vstatus r' = napi_ok ->
  emitted o = [ValueEv ask r; ValueEv read r']
  ∧ n < capacity
  ∧ ∃ text, res o = Ok text
            ∧ String.length text = N.to_nat n
            ∧ (String.length (vtext r') = N.to_nat n -> text = vtext r').
Proof.
  intros ask r n capacity read r' o Ha Hn Ha'.
  assert (Hw : size_t R (n + 1) = n + 1).
  { unfold size_t. apply N.mod_small. unfold string_max_size in Hn. lia. }
  assert (Ho : o = mkOut (Ok (buffer_prefix (N.to_nat n) (vtext r'))) s
                 [ValueEv ask r; ValueEv read r']).
  { unfold o, String_Utf8Value. cbv zeta. rewrite vcall_bind. fold ask r. rewrite Ha.
    simpl negb. cbv iota. fold n.
    rewrite Hw, bool_decide_eq_false_2 by lia.
    rewrite bool_decide_eq_false_2 by lia.
    change (negb (status_ok napi_ok)) with false. cbv iota.
    rewrite vcall_bind. fold capacity read r'. rewrite Ha'. reflexivity. }
  rewrite Ho. simpl. split; [done|]. split; [unfold capacity; lia|].
  eexists. split; [done|]. split; [apply buffer_prefix_length|].
  intros <-. apply buffer_prefix_whole.
Qed.

Lemma Utf8Value_reads_the_whole_string_witness :
  res (String_Utf8Value willing_runtime (Value.mk 1 7) [] tt) = Ok "hello"
  ∧ value_calls (emitted (String_Utf8Value willing_runtime (Value.mk 1 7) [] tt))
    = [napi_get_value_string_utf8 1 7 None; napi_get_value_string_utf8 1 7 (Some 15)].
Proof.
  destruct (Utf8Value_reads_the_whole_string willing_runtime (Value.mk 1 7) [] tt)
    as (He & _ & text & Hr & _ & Ht); [reflexivity|by vm_compute|reflexivity|].
  split.
  - rewrite Hr. f_equal. apply Ht. reflexivity.
  - rewrite He. reflexivity.
Defined.

(** ** What the wrappers leave alone *)

Section Keeps.
Context {E S T : Type} (f : S -> T).

Lemma keeps_ret {A} (a : A) : keeps (E := E) f (ret a).
Proof. by intros h s. Qed.

Lemma keeps_throw {A} (x : exn) : keeps (E := E) (A := A) f (throw x).
Proof. by intros h s. Qed.

Lemma keeps_get : keeps (E := E) f get.
Proof. by intros h s. Qed.

Lemma keeps_gets {A} (g : S -> A) : keeps (E := E) f (gets g).
Proof. by intros h s. Qed.

Lemma keeps_emit (e : E) : keeps f (emit e).
Proof. by intros h s. Qed.

Lemma keeps_modify (g : S -> S) : (∀ s, f (g s) = f s) -> keeps (E := E) f (modify g).
Proof. intros Hg h s. apply Hg. Qed.

Lemma keeps_bind {A B} (m : M E S A) (k : A -> M E S B) :
  keeps f m -> (∀ a, keeps f (k a)) -> keeps f (m ≫= k).
Proof.
  intros Hm Hk h s. specialize (Hm h s). rewrite bind_run.
  destruct (m h s) as [[a|x|] s1 l1]; simpl in *; [|done..].
  rewrite st_prepend, Hk. done.
Qed.

Lemma keeps_if {A} (b : bool) (m m' : M E S A) :
  keeps f m -> keeps f m' -> keeps f (if b then m else m').
Proof. by destruct b. Qed.

Lemma keeps_finally {A} (m : M E S A) (cleanup : M E S unit) :
  keeps f m -> keeps f cleanup -> keeps f (finally m cleanup).
Proof.
  intros Hm Hc h s. specialize (Hm h s). unfold finally.
  destruct (m h s) as [[a|x|] s1 l1]; simpl in *; [| |done].
  all: specialize (Hc (rev l1 ++ h) s1);
    destruct (cleanup (rev l1 ++ h) s1) as [r' s2 l2]; simpl in *; congruence.
Qed.

Lemma keeps_try_catch {A} (m : M E S A) (handler : exn -> option (M E S A)) :
  keeps f m -> (∀ x k, handler x = Some k -> keeps f k) -> keeps f (try_catch m handler).
Proof.
  intros Hm Hk h s. specialize (Hm h s). unfold try_catch.
  destruct (m h s) as [[a|x|] s1 l1]; simpl in *; [done| |done].
  destruct (handler x) as [k|] eqn:Hh; [|done].
  rewrite st_prepend, (Hk x k Hh). done.
Qed.

Lemma keeps_zoom {U A} (l : Lens S U) (m : M E U A) :
  (∀ u s, f (update l u s) = f s) -> keeps f (zoom l m).
Proof.
  intros Hl h s. unfold zoom. destruct (m h (view l s)) as [r u l1]. simpl. apply Hl.
Qed.

Lemma keeps_on_temp {U A} (u : U) (m : M E U A) : keeps f (on_temp (S := S) u m).
Proof. intros h s. unfold on_temp. by destruct (m h u). Qed.
End Keeps.

Lemma keeps_modify_at {E S T U} (f : S -> T) (l : Lens S U) (g : U -> U) :
  (∀ u s, f (update l u s) = f s) -> keeps (E := E) f (modify_at l g).
Proof. intros Hl h s. apply Hl. Qed.

Section KeepsCalls.
Context (P : Platform) {S T : Type} (f : S -> T).

Lemma keeps_call (c : HostCall) : keeps f (call P c).
Proof. by intros h s. Qed.

Lemma keeps_throw_Error_New {A} env : keeps f (throw_Error_New P (A := A) env).
Proof. intros h s. by rewrite throw_Error_New_state. Qed.

Lemma keeps_checked {A} (c : HostCall) env (k : Reply -> M HostEv S A) :
  (∀ r, keeps f (k r)) ->
  keeps f (r ← call P c; if negb (status_ok (status r)) then throw_Error_New P env else k r).
Proof.
  intros Hk. apply keeps_bind; [apply keeps_call|]. intros r.
  apply keeps_if; [apply keeps_throw_Error_New|apply Hk].
Qed.

Lemma keeps_Reference_Value (r : Reference.t) : keeps f (Reference_Value P r).
Proof.
  unfold Reference_Value. apply keeps_if; [apply keeps_ret|].
  apply keeps_checked. intros ?. apply keeps_ret.
Qed.

Lemma keeps_EscapableHandleScope_ctor env : keeps f (EscapableHandleScope_ctor P env).
Proof. unfold EscapableHandleScope_ctor. apply keeps_checked. intros ?. apply keeps_ret. Qed.

Lemma keeps_EscapableHandleScope_dtor scope : keeps f (EscapableHandleScope_dtor P scope).
Proof.
  unfold EscapableHandleScope_dtor. apply keeps_bind; [apply keeps_call|].
  intros ?. apply keeps_ret.
Qed.

Lemma keeps_Escape scope escapee : keeps f (EscapableHandleScope_Escape P scope escapee).
Proof. unfold EscapableHandleScope_Escape. apply keeps_checked. intros ?. apply keeps_ret. Qed.

Lemma keeps_with_HandleScope {A} env (body : M HostEv S A) :
  keeps f body -> keeps f (with_HandleScope P env body).
Proof.
  intros Hb. unfold with_HandleScope. apply keeps_bind.
  - unfold HandleScope_ctor. apply keeps_checked. intros ?. apply keeps_ret.
  - intros scope. apply keeps_finally; [done|].
    unfold HandleScope_dtor. apply keeps_bind; [apply keeps_call|]. intros ?. apply keeps_ret.
Qed.
End KeepsCalls.

Section KeepsAbi.
Context (R : Runtime) {S T : Type} (f : S -> T).

Lemma keeps_vcall (c : ValueCall) : keeps f (vcall R c).
Proof. by intros h s. Qed.

Lemma keeps_bridged {A} (m : Platform -> M HostEv S A) :
  (∀ P, keeps f (m P)) -> keeps f (bridged R m).
Proof. intros Hm h s. rewrite bridged_run. simpl. apply Hm. Qed.

Lemma keeps_throw_Error {A} env : keeps f (throw_Error R (A := A) env).
Proof. apply keeps_bridged. intros P. apply keeps_throw_Error_New. Qed.

Lemma keeps_caught x : keeps f (caught R x).
Proof. intros h s. by destruct (caught_run R x h s) as [l ->]. Qed.

Lemma keeps_vchecked {A} (c : ValueCall) env (k : ValueReply -> M AbiEv S A) :
  (∀ r, keeps f (k r)) ->
  keeps f (r ← vcall R c; if negb (status_ok (vstatus r)) then throw_Error R env else k r).
Proof.
  intros Hk. apply keeps_bind; [apply keeps_vcall|]. intros r.
  apply keeps_if; [apply keeps_throw_Error|apply Hk].
Qed.

Lemma keeps_Utf8Value (v : Value.t) : keeps f (String_Utf8Value R v).
Proof.
  unfold String_Utf8Value. apply keeps_vchecked. intros r.
  apply keeps_if; [apply keeps_throw|]. apply keeps_if; [apply keeps_throw|].
  apply keeps_vchecked. intros ?. apply keeps_ret.
Qed.

Lemma keeps_Object_Get (v : Value.t) name : keeps f (Object_Get R v name).
Proof. unfold Object_Get. apply keeps_vchecked. intros ?. apply keeps_ret. Qed.

Lemma keeps_ObjectReference_Get (r : Reference.t) name : keeps f (ObjectReference_Get R r name).
Proof.
  unfold ObjectReference_Get. apply keeps_bind.
  - apply keeps_bridged. intros P. apply keeps_EscapableHandleScope_ctor.
  - intros scope. apply keeps_finally.
    + apply keeps_bind; [apply keeps_bridged; intros P; apply keeps_Reference_Value|].
      intros object. apply keeps_bind; [apply keeps_Object_Get|]. intros v.
      apply keeps_bridged. intros P. apply keeps_Escape.
    + apply keeps_bridged. intros P. apply keeps_EscapableHandleScope_dtor.
Qed.
End KeepsAbi.

(** ** Scopes, seen from the whole ABI *)

Section AbiScopes.
Context (R : Runtime).

Lemma neutral_abi_bind {S A B} (m : M AbiEv S A) (f : A -> M AbiEv S B) :
  scope_neutral_via bridge_events m -> (∀ a, scope_neutral_via bridge_events (f a)) ->
  scope_neutral_via bridge_events (m ≫= f).
Proof. apply neutral_bind. apply bridge_events_app. Qed.

Lemma neutral_abi_finally {S A} (m : M AbiEv S A) (cleanup : M AbiEv S unit) :
  scope_neutral_via bridge_events m -> scope_neutral_via bridge_events cleanup ->
  scope_neutral_via bridge_events (finally m cleanup).
Proof. apply neutral_finally. apply bridge_events_app. Qed.

Lemma neutral_abi_try_catch {S A} (m : M AbiEv S A) (handler : exn -> option (M AbiEv S A)) :
  scope_neutral_via bridge_events m ->
  (∀ x k, handler x = Some k -> scope_neutral_via bridge_events k) ->
  scope_neutral_via bridge_events (try_catch m handler).
Proof. apply neutral_try_catch. apply bridge_events_app. Qed.

Lemma neutral_abi_ret {S A} (a : A) : scope_neutral_via (S := S) bridge_events (ret a).
Proof. by intros h s stack _. Qed.

Lemma neutral_vcall {S} (c : ValueCall) : scope_neutral_via (S := S) bridge_events (vcall R c).
Proof. by intros h s stack _. Qed.

Lemma neutral_bridged {S A} (m : Platform -> M HostEv S A) :
  (∀ P, scope_neutral (m P)) -> scope_neutral_via bridge_events (bridged R m).
Proof.
  intros Hm h s stack. rewrite bridged_run. simpl. rewrite bridge_events_bridged. apply Hm.
Qed.

Lemma neutral_throw_Error {S A} env :
  scope_neutral_via (S := S) bridge_events (throw_Error R (A := A) env).
Proof. apply neutral_bridged. intros P. apply neutral_throw_Error_New. Qed.

Lemma neutral_caught {S} x : scope_neutral_via (S := S) bridge_events (caught R x).
Proof.
  destruct x as [e| |]; simpl; [|apply neutral_abi_ret..].
  apply neutral_bridged. intros P. apply neutral_Error_dtor.
Qed.

Lemma neutral_vchecked {S A} (c : ValueCall) env (k : ValueReply -> M AbiEv S A) :
  (∀ r, scope_neutral_via bridge_events (k r)) ->
  scope_neutral_via bridge_events
    (r ← vcall R c; if negb (status_ok (vstatus r)) then throw_Error R env else k r).
Proof.
  intros Hk. apply neutral_abi_bind; [apply neutral_vcall|]. intros r.
  apply neutral_if; [apply neutral_throw_Error|apply Hk].
Qed.

(** [{ EscapableHandleScope scope(env); body }] *)
Lemma neutral_abi_escapable {S A} env (body : EscapableHandleScope.t -> M AbiEv S A) :
  (∀ scope, scope_neutral_via bridge_events (body scope)) ->
  scope_neutral_via bridge_events
    (scope ← bridged R (λ P, EscapableHandleScope_ctor P env);
     finally (body scope) (bridged R (λ P, EscapableHandleScope_dtor P scope))).
Proof.
  intros Hb h s stack. rewrite bind_run.
  set (P := platform_at R h).
  set (open_ev := ev P [] (napi_open_escapable_handle_scope env)).
  destruct (status_ok (status (host P [] (napi_open_escapable_handle_scope env)))) eqn:Ha;
    pose proof Ha as Ha'; simpl in Ha'.
  - assert (Hc : bridged R (λ P, EscapableHandleScope_ctor P env) h s
                 = mkOut (Ok (EscapableHandleScope.mk env (out (ev_reply open_ev)))) s
                     [BridgeEv open_ev]).
    { unfold bridged, EscapableHandleScope_ctor. fold P. rewrite call_bind, Ha. reflexivity. }
    rewrite Hc. cbv beta iota. rewrite res_prepend, emitted_prepend.
    simpl rev. simpl app. unfold finally.
    specialize (Hb (EscapableHandleScope.mk env (out (ev_reply open_ev)))
                  (BridgeEv open_ev :: h) s
                  ((EscapableScope, env, out (ev_reply open_ev)) :: stack)).
    destruct (body _ (BridgeEv open_ev :: h) s) as [[a|x|] s1 l1]; simpl in Hb |- *;
      [| |done]; intros _; unfold scope_step; simpl;
      rewrite Ha', bridge_events_app, scopes_after_app, Hb by done; simpl;
      unfold scope_step; simpl; by rewrite bool_decide_eq_true_2.
  - assert (Hc : bridged R (λ P, EscapableHandleScope_ctor P env) h s
                 = bridged R (λ P h' s', prepend [ev P h' (napi_open_escapable_handle_scope env)]
                                (throw_Error_New P env
                                   (ev P h' (napi_open_escapable_handle_scope env) :: h') s'))
                     h s).
    { unfold bridged, EscapableHandleScope_ctor. fold P. by rewrite !call_bind, Ha. }
    rewrite Hc. unfold bridged. fold P. fold open_ev.
    pose proof (neutral_throw_Error_New P (A := EscapableHandleScope.t) env [open_ev] s stack)
      as Ht.
    pose proof (throw_Error_New_not_returned P (A := EscapableHandleScope.t) env
                  [open_ev] s) as Hnr.
    destruct (throw_Error_New P env [open_ev] s) as [[a|x|] s1 l1];
      simpl in Ht, Hnr |- *; [done| |done].
    intros _. unfold scope_step. simpl. rewrite Ha'.
    rewrite bridge_events_bridged. by apply Ht.
Qed.

Lemma neutral_Utf8Value {S} (v : Value.t) :
  scope_neutral_via (S := S) bridge_events (String_Utf8Value R v).
Proof.
  unfold String_Utf8Value. apply neutral_vchecked. intros r.
  apply neutral_if; [by intros h s stack _|]. apply neutral_if; [by intros h s stack _|].
  apply neutral_vchecked. intros ?. apply neutral_abi_ret.
Qed.

Lemma neutral_Object_Get {S} (v : Value.t) name :
  scope_neutral_via (S := S) bridge_events (Object_Get R v name).
Proof. unfold Object_Get. apply neutral_vchecked. intros ?. apply neutral_abi_ret. Qed.

Lemma neutral_ObjectReference_Get {S} (r : Reference.t) name :
  scope_neutral_via (S := S) bridge_events (ObjectReference_Get R r name).
Proof.
  unfold ObjectReference_Get.
  apply (neutral_abi_escapable _
           (λ scope, object ← bridged R (λ P, Reference_Value P r);
                     v ← Object_Get R object name;
                     bridged R (λ P, EscapableHandleScope_Escape P scope (Value._value v)))).
  intros scope.
  apply neutral_abi_bind; [apply neutral_bridged; intros P; apply neutral_Reference_Value|].
  intros object. apply neutral_abi_bind; [apply neutral_Object_Get|]. intros v.
  apply neutral_bridged. intros P. unfold EscapableHandleScope_Escape.
  apply neutral_checked; [done|]. intros ?. apply neutral_ret.
Qed.

Lemma neutral_Error_Message : scope_neutral_via bridge_events (Error_Message R).
Proof.
  unfold Error_Message. apply neutral_abi_bind; [by intros h s stack _|]. intros this.
  apply neutral_abi_bind; [|by intros ? h s stack _].
  apply neutral_if; [|apply neutral_abi_ret].
  apply neutral_abi_try_catch.
  - apply neutral_abi_bind; [apply neutral_ObjectReference_Get|]. intros v.
    apply neutral_abi_bind; [apply neutral_Utf8Value|]. intros text.
    by intros h s stack _.
  - intros x k [= <-]. apply neutral_caught.
Qed.
End AbiScopes.

(** ** Where the process can end *)

Section Aborts.
Context {E S : Type} (cond : Prop).

Lemma aborts_never {A} (m : M E S A) :
  (∀ h s, res (m h s) ≠ Abort) -> aborts_only_if cond m.
Proof. intros Hm h s Ha. by destruct (Hm h s). Qed.

Lemma aborts_bind {A B} (m : M E S A) (k : A -> M E S B) :
  aborts_only_if cond m -> (∀ a, aborts_only_if cond (k a)) -> aborts_only_if cond (m ≫= k).
Proof.
  intros Hm Hk h s. specialize (Hm h s). rewrite bind_run.
  destruct (m h s) as [[a|x|] s1 l1]; simpl in *; [|done|auto].
  rewrite res_prepend. apply Hk.
Qed.

Lemma aborts_if {A} (b : bool) (m m' : M E S A) :
  aborts_only_if cond m -> aborts_only_if cond m' -> aborts_only_if cond (if b then m else m').
Proof. by destruct b. Qed.

Lemma aborts_finally {A} (m : M E S A) (cleanup : M E S unit) :
  aborts_only_if cond m -> aborts_only_if cond cleanup ->
  aborts_only_if cond (finally m cleanup).
Proof.
  intros Hm Hc h s. specialize (Hm h s). unfold finally.
  destruct (m h s) as [[a|x|] s1 l1]; simpl in *; [| |auto].
  all: specialize (Hc (rev l1 ++ h) s1);
    destruct (cleanup (rev l1 ++ h) s1) as [[[]|x'|] s2 l2]; simpl in *; first [done|auto].
Qed.

Lemma aborts_try_catch {A} (m : M E S A) (handler : exn -> option (M E S A)) :
  aborts_only_if cond m -> (∀ x k, handler x = Some k -> aborts_only_if cond k) ->
  aborts_only_if cond (try_catch m handler).
Proof.
  intros Hm Hk h s. specialize (Hm h s). unfold try_catch.
  destruct (m h s) as [[a|x|] s1 l1]; simpl in *; [done| |auto].
  destruct (handler x) as [k|] eqn:Hh; [|done].
  rewrite res_prepend. by apply (Hk x k).
Qed.
End Aborts.

Section AbortsCalls.
Context (P : Platform) {S : Type}.

Lemma aborts_throw_Error_New {A} env :
  aborts_only_if (S := S) (ndebug P = false) (throw_Error_New P (A := A) env).
Proof.
  intros h s Ha.
  destruct (throw_Error_New_outcome P (A := A) env h s) as [[e He]|[_ Hd]]; [congruence|done].
Qed.

Lemma aborts_checked {A} (c : HostCall) env (k : Reply -> M HostEv S A) :
  (∀ r, aborts_only_if (ndebug P = false) (k r)) ->
  aborts_only_if (ndebug P = false)
    (r ← call P c; if negb (status_ok (status r)) then throw_Error_New P env else k r).
Proof.
  intros Hk. apply aborts_bind; [by apply aborts_never|]. intros r.
  apply aborts_if; [apply aborts_throw_Error_New|apply Hk].
Qed.
End AbortsCalls.

Section AbortsAbi.
Context (R : Runtime) {S : Type}.

Lemma aborts_bridged {A} (m : Platform -> M HostEv S A) :
  (∀ P, aborts_only_if (ndebug P = false) (m P)) ->
  aborts_only_if (assertions_off R = false) (bridged R m).
Proof. intros Hm h s. rewrite bridged_run. simpl. apply (Hm (platform_at R h)). Qed.

Lemma aborts_throw_Error {A} env :
  aborts_only_if (S := S) (assertions_off R = false) (throw_Error R (A := A) env).
Proof. apply aborts_bridged. intros P. apply aborts_throw_Error_New. Qed.

Lemma aborts_vchecked {A} (c : ValueCall) env (k : ValueReply -> M AbiEv S A) :
  (∀ r, aborts_only_if (assertions_off R = false) (k r)) ->
  aborts_only_if (assertions_off R = false)
    (r ← vcall R c; if negb (status_ok (vstatus r)) then throw_Error R env else k r).
Proof.
  intros Hk. apply aborts_bind; [by apply aborts_never|]. intros r.
  apply aborts_if; [apply aborts_throw_Error|apply Hk].
Qed.

Lemma aborts_Utf8Value (v : Value.t) :
  aborts_only_if (S := S) (assertions_off R = false) (String_Utf8Value R v).
Proof.
  unfold String_Utf8Value. apply aborts_vchecked. intros r.
  apply aborts_if; [by apply aborts_never|]. apply aborts_if; [by apply aborts_never|].
  apply aborts_vchecked. intros ?. by apply aborts_never.
Qed.

Lemma aborts_ObjectReference_Get (r : Reference.t) name :
  aborts_only_if (S := S) (assertions_off R = false) (ObjectReference_Get R r name).
Proof.
  unfold ObjectReference_Get. apply aborts_bind.
  - apply aborts_bridged. intros P. unfold EscapableHandleScope_ctor.
    apply aborts_checked. intros ?. by apply aborts_never.
  - intros scope. apply aborts_finally.
    + apply aborts_bind.
      * apply aborts_bridged. intros P. unfold Reference_Value.
        apply aborts_if; [by apply aborts_never|].
        apply aborts_checked. intros ?. by apply aborts_never.
      * intros object. apply aborts_bind.
        -- unfold Object_Get. apply aborts_vchecked. intros ?. by apply aborts_never.
        -- intros v. apply aborts_bridged. intros P. unfold EscapableHandleScope_Escape.
           apply aborts_checked. intros ?. by apply aborts_never.
    + apply aborts_never. intros h s. rewrite bridged_run. by simpl.
Qed.

End AbortsAbi.

Lemma aborts_Error_Message (R : Runtime) : aborts_only_if (assertions_off R = false) (Error_Message R).
Proof.
  unfold Error_Message. apply aborts_bind; [by apply aborts_never|]. intros this.
  apply aborts_bind; [|intros ?; by apply aborts_never].
  apply aborts_if; [|by apply aborts_never].
  apply aborts_try_catch.
  - apply aborts_bind; [apply aborts_ObjectReference_Get|]. intros v.
    apply aborts_bind; [apply aborts_Utf8Value|]. intros text. by apply aborts_never.
  - intros x k [= <-]. apply aborts_never. intros h s.
    by destruct (caught_run R x h s) as [l ->].
Qed.


(** ** The message of an error *)

Lemma keeps_Error_Message (R : Runtime) : keeps Error.base (Error_Message R).
Proof.
  unfold Error_Message. apply keeps_bind; [apply keeps_get|]. intros this.
  apply keeps_bind; [|intros ?; apply keeps_gets].
  apply keeps_if; [|apply keeps_ret].
  apply keeps_try_catch.
  - apply keeps_bind; [apply keeps_ObjectReference_Get|]. intros v.
    apply keeps_bind; [apply keeps_Utf8Value|]. intros text.
    by apply keeps_modify.
  - intros x k [= <-]. apply keeps_caught.
Qed.

(** What [Message] returns is what the object holds afterwards. *)
Lemma Error_Message_result (R : Runtime) (this : Error.t) (h : list AbiEv) (text : string) :
  res (Error_Message R h this) = Ok text -> Error._message (st (Error_Message R h this)) = text.
Proof.
  unfold Error_Message. rewrite get_bind, bind_run.
  match goal with
  | |- context [match ?o with mkOut _ _ _ => _ end] => destruct o as [[[]|x|] s1 l1]
  end; simpl; [|done..].
  by intros [= <-].
Qed.

Lemma Error_Message_known (R : Runtime) (this : Error.t) (h : list AbiEv) :
  Error._message this ≠ "" ->
  Error_Message R h this = mkOut (Ok (Error._message this)) this [].
Proof.
  intros Hm. unfold Error_Message. rewrite get_bind.
  destruct (Error._message this) as [|c text] eqn:He; [done|]. simpl.
  rewrite ret_bind. unfold gets. by rewrite He.
Qed.

(** X19.  [Error::Message] lets no exception out, as its [noexcept]
    promises: whatever the host answers, it returns, unless an assertion
    that is compiled in fails while an error of the host is translated;
    with assertions compiled out it always returns.  It leaves the
    reference of the error as it is, it returns the message the object
    holds afterwards, and it closes the scope it opens. *)
Theorem Error_Message_never_throws (R : Runtime) (this : Error.t) (h : list AbiEv) :
  let o := Error_Message R h this in
  (∀ x, res o ≠ Throw x)
  ∧ (res o = Abort -> assertions_off R = false)
  ∧ Error.base (st o) = Error.base this
  ∧ (∀ text, res o = Ok text -> Error._message (st o) = text)
  ∧ (∀ stack, res o ≠ Abort -> scopes_after stack (bridge_events (emitted o)) = Some stack).
Proof.
  intros o. split; [|split; [apply aborts_Error_Message|]].
  2: split; [apply keeps_Error_Message|split].
  - intros x. unfold o, Error_Message. rewrite get_bind.
    destruct (_ && _); [|by rewrite ret_bind].
    rewrite bind_run.
    match goal with
    | |- context [try_catch ?m ?k h this] =>
        unfold try_catch; destruct (m h this) as [[[]|x'|] s1 l1]
    end; [done| |done].
    destruct (caught_run R x' (rev l1 ++ h) s1) as [l ->]. done.
  - apply Error_Message_result.
  - intros stack. apply neutral_Error_Message.
Qed.

(** X20.  The message of an error is fetched once: when [Message] has
    returned a text that is not empty, every later request returns the
    same text from the object, with no call at all. *)
Theorem Error_Message_is_fetched_once (R : Runtime) (this : Error.t) (h h' : list AbiEv)
    (text : string) :
  let o := Error_Message R h this in
  res o = Ok text ->
  text ≠ "" ->
  Error_Message R h' (st o) = mkOut (Ok text) (st o) [].
Proof.
  intros o Hr Ht. apply Error_Message_result in Hr. fold o in Hr.
  rewrite Error_Message_known; rewrite Hr; done.
Qed.

Lemma Error_Message_is_fetched_once_witness :
  let this := Error.mk (Reference.mk 1 5 false) "" in
  let o := Error_Message willing_runtime [] this in
  res o = Ok "hello"
  ∧ value_calls (emitted o)
    = [napi_get_named_property 1 101 "message";
       napi_get_value_string_utf8 1 102 None;
       napi_get_value_string_utf8 1 102 (Some 15)]
  ∧ Error_Message willing_runtime (rev (emitted o)) (st o) = mkOut (Ok "hello") (st o) [].
Proof.
  intros this o. split; [reflexivity|]. split; [reflexivity|].
  apply (Error_Message_is_fetched_once willing_runtime this [] (rev (emitted o)) "hello");
    [reflexivity|done].
Defined.

(** Copy assignment writes to the reference of the target only. *)
Lemma keeps_Error_copy_assign (P : Platform) {T} (f : Error.t * Error.t -> T) :
  (∀ u s, f (update (lens_compose lens_fst Error_base) u s) = f s) ->
  keeps f (Error_copy_assign P lens_fst lens_snd).
Proof.
  intros Hf. unfold Error_copy_assign.
  apply keeps_bind; [by apply keeps_zoom|]. intros _.
  apply keeps_bind; [apply keeps_gets|]. intros o.
  apply keeps_bind; [by apply keeps_modify_at|]. intros _.
  apply keeps_bind; [apply keeps_gets|]. intros t.
  apply keeps_with_HandleScope.
  apply keeps_bind; [apply keeps_gets|]. intros o'.
  apply keeps_bind; [apply keeps_Reference_Value|]. intros value.
  apply keeps_if; [|apply keeps_ret].
  apply keeps_bind; [apply keeps_gets|]. intros t'.
  apply keeps_checked. intros r. by apply keeps_modify_at.
Qed.

(** X21.  Copy assignment of errors does not mention the message: an
    error that holds a message still holds it after another error was
    assigned to it, whatever the outcome of the assignment, and
    [Message] goes on returning it, with no call at all.  The source is
    left as it was. *)
Theorem Error_copy_assign_keeps_the_old_message (P : Platform) (R : Runtime)
    (t o : Error.t) (h : list HostEv) (h' : list AbiEv) :
  let assigned := st (Error_copy_assign P lens_fst lens_snd h (t, o)) in
  Error._message t ≠ "" ->
  assigned.2 = o
  ∧ Error_Message R h' assigned.1 = mkOut (Ok (Error._message t)) assigned.1 [].
Proof.
  intros assigned Hm. split.
  - by apply (keeps_Error_copy_assign P snd).
  - pose proof (keeps_Error_copy_assign P (λ s, Error._message s.1)) as Hk.
    rewrite Error_Message_known; unfold assigned; rewrite Hk; done.
Qed.

Lemma Error_copy_assign_keeps_the_old_message_witness :
  let t := Error.mk (Reference.mk 1 5 false) "first" in
  let o := Error.mk (Reference.mk 1 6 false) "second" in
  let assigned := st (Error_copy_assign (willing false) lens_fst lens_snd [] (t, o)) in
  Reference._ref (Error.base assigned.1) = 103
  ∧ Error_Message willing_runtime [] assigned.1 = mkOut (Ok "first") assigned.1 [].
Proof.
  intros t o assigned. split; [reflexivity|].
  apply (Error_copy_assign_keeps_the_old_message (willing false) willing_runtime t o [] []).
  done.
Defined.

(** ** Values *)

(** X22.  An empty [Value] is undefined and nothing else: [Type] and the
    twelve tests answer without asking the host, and so they cannot
    throw. *)
Theorem empty_Value_is_undefined_without_asking (R : Runtime) {S} (this : Value.t)
    (h : list AbiEv) (s : S) :
  Value._value this = nullptr ->
  Value_Type R this h s = mkOut (Ok napi_undefined) s []
  ∧ Value_IsUndefined R this h s = mkOut (Ok true) s []
  ∧ Forall (λ test : Value.t -> M AbiEv S bool, test this h s = mkOut (Ok false) s [])
      [Value_IsNull R; Value_IsBoolean R; Value_IsNumber R; Value_IsString R;
       Value_IsSymbol R; Value_IsArray R; Value_IsArrayBuffer R; Value_IsTypedArray R;
       Value_IsObject R; Value_IsFunction R; Value_IsBuffer R].
Proof.
  intros Hn.
  assert (Ht : Value_Type R this h s = mkOut (Ok napi_undefined) s []).
  { unfold Value_Type. by rewrite Hn. }
  split; [done|]. split.
  - unfold Value_IsUndefined. by rewrite bind_run, Ht.
  - repeat constructor;
      first [ by unfold Value_IsNull, Value_IsBoolean, Value_IsNumber, Value_IsString,
                Value_IsSymbol, Value_IsObject, Value_IsFunction; rewrite bind_run, Ht
            | by unfold Value_IsArray, Value_IsArrayBuffer, Value_IsTypedArray, Value_IsBuffer;
                rewrite Hn ].
Qed.

Lemma empty_Value_is_undefined_without_asking_witness :
  Value_IsUndefined (grudging_runtime (λ _, true)) (Value.mk 1 nullptr) [] tt
  = mkOut (Ok true) tt [].
Proof.
  apply (empty_Value_is_undefined_without_asking (grudging_runtime (λ _, true))
           (Value.mk 1 nullptr) [] tt).
  reflexivity.
Defined.

(** ** Finalizers of external values *)

Lemma throw_Error_blocks (R : Runtime) {S A} env h (s : S) :
  allocations (emitted (throw_Error R (A := A) env h s)) = []
  ∧ frees (emitted (throw_Error R (A := A) env h s)) = []
  ∧ value_calls (emitted (throw_Error R (A := A) env h s)) = []
  ∧ returned (res (throw_Error R (A := A) env h s)) = false.
Proof.
  destruct (throw_Error_run R (A := A) env h s) as (r & l & -> & Hr). simpl.
  by rewrite allocations_bridged, frees_bridged, value_calls_bridged.
Qed.

(** X23.  [External<T>::New] with a finalizer allocates one block for the
    finalizer and hands it to the host along with the entry point
    [Wrapper].  If the host accepts, the block is not freed by [New]; if
    the host rejects, the block is freed before the error is raised.
    [Wrapper] frees the block it is given after the finalizer has
    returned, and not at all if the finalizer does not return. *)
Theorem External_finalizer_block_is_freed_once (R : Runtime) {S} (env : napi_env)
    (data : ptr) (h : list AbiEv) (s : S) :
  let p := Npos (operator_new R h) in
  let create := napi_create_external env data FinalizeWrapper p in
  let r := value_host R (NewEv p :: h) create in
  let o := External_New_finalizer R env data h s in
  allocations (emitted o) = [p]
  ∧ value_calls (emitted o) = [create]
  ∧ returned (res o) = status_ok (vstatus r)
  ∧ frees (emitted o) = (if status_ok (vstatus r) then [] else [p])
  ∧ ∀ (callback : M AbiEv S unit) h' s',
      let w := FinalizeData_Wrapper callback p h' s' in
      frees (emitted w)
      = frees (emitted (callback h' s'))
        ++ (if returned (res (callback h' s')) then [p] else []).
Proof.
  intros p create r o.
  unfold o, External_New_finalizer. rewrite new_block_bind, vcall_bind.
  fold p create r. rewrite !emitted_prepend, !res_prepend.
  destruct (status_ok (vstatus r)) eqn:Ha; cbn [negb]; cbv iota.
  - simpl. repeat split; try done.
    intros callback h' s'. unfold FinalizeData_Wrapper. rewrite bind_run.
    destruct (callback h' s') as [[[]|x|] s1 l1]; simpl; rewrite ?app_nil_r; [|done..].
    by rewrite frees_app.
  - rewrite delete_block_bind, emitted_prepend, res_prepend.
    destruct (throw_Error_blocks R (A := Value.t) env
                (DeleteEv p :: ValueEv create r :: NewEv p :: h) s) as (Hal & Hfr & Hvc & Hr).
    rewrite !allocations_app, !frees_app, !value_calls_app, Hal, Hfr, Hvc, Hr.
    repeat split; try done.
    intros callback h' s'. unfold FinalizeData_Wrapper. rewrite bind_run.
    destruct (callback h' s') as [[[]|x|] s1 l1]; simpl; rewrite ?app_nil_r; [|done..].
    by rewrite frees_app.
Qed.

(** ** Callbacks *)

Section CallbackBlocks.
Context (R : Runtime) (_staticArgCount : N).

(** The constructor of [CallbackInfo], by the answers of the host. *)
Lemma CallbackInfo_ctor_run {S} env info h (s : S) :
  let q := napi_get_cb_info env info _staticArgCount true in
  let r := value_host R h q in
  let argc := size_t R (vsize r) in
  let p := Npos (operator_new R (ValueEv q r :: h)) in
  let q' := napi_get_cb_info env info argc false in
  let r' := value_host R (NewEv p :: ValueEv q r :: h) q' in
  let static := take (N.to_nat _staticArgCount) (vargs r) in
  CallbackInfo_ctor R _staticArgCount env info h s
  = if negb (status_ok (vstatus r))
    then prepend [ValueEv q r] (throw_Error R env (ValueEv q r :: h) s)
    else if _staticArgCount <? argc
         then if negb (status_ok (vstatus r'))
              then prepend [ValueEv q r; NewEv p; ValueEv q' r']
                     (throw_Error R env (ValueEv q' r' :: NewEv p :: ValueEv q r :: h) s)
              else mkOut (Ok (CallbackInfo.mk env (vthis r) (size_t R (vsize r')) DynamicArgs
                                static p (take (N.to_nat argc) (vargs r')) (vdata r)))
                     s [ValueEv q r; NewEv p; ValueEv q' r']
         else mkOut (Ok (CallbackInfo.mk env (vthis r) argc StaticArgs static nullptr [] (vdata r)))
                s [ValueEv q r].
Proof.
  intros q r argc p q' r' static. unfold CallbackInfo_ctor. rewrite vcall_bind. fold q r.
  destruct (negb (status_ok (vstatus r))); [done|]. fold argc.
  destruct (_staticArgCount <? argc); [|done].
  rewrite new_block_bind, vcall_bind. fold p q' r'.
  destruct (negb (status_ok (vstatus r'))); [|done].
  by rewrite !prepend_app.
Qed.

(** The handler of the callback wrappers makes calls of the first group
    only. *)
Lemma rethrow_blocks {S A} (x : exn) (e : Error.t) (a : A) h (s : S) :
  let k := finally (bridged R (λ P, Error_ThrowAsJavaScriptException P e);; ret a)
             (caught R x) in
  allocations (emitted (k h s)) = [] ∧ frees (emitted (k h s)) = [].
Proof.
  intros k. unfold k, finally. rewrite bind_run, bridged_run.
  destruct (res (Error_ThrowAsJavaScriptException _ e [] s)) as [[]|x'|]; cbv beta iota.
  - unfold ret, prepend. rewrite app_nil_r.
    match goal with
    | |- context [caught R x ?hh ?ss] => destruct (caught_run R x hh ss) as [l ->]
    end.
    cbv beta iota. unfold emitted.
    by rewrite allocations_app, frees_app, !allocations_bridged, !frees_bridged.
  - match goal with
    | |- context [caught R x ?hh ?ss] => destruct (caught_run R x hh ss) as [l ->]
    end.
    cbv beta iota. unfold emitted.
    by rewrite allocations_app, frees_app, !allocations_bridged, !frees_bridged.
  - unfold emitted. by rewrite allocations_bridged, frees_bridged.
Qed.

(** The destructor of a [CallbackInfo] on the stack. *)
Lemma CallbackInfo_dtor_run {S} (i : CallbackInfo.t) h (s : S) :
  on_temp i CallbackInfo_dtor h s
  = mkOut (Ok tt) s (DeleteEv <$> held (CallbackInfo._dynamicArgs i)).
Proof.
  unfold on_temp, CallbackInfo_dtor, held. rewrite get_bind.
  by destruct (is_null (CallbackInfo._dynamicArgs i)).
Qed.

Lemma handler_blocks {S} (x : exn) (k : M AbiEv S napi_value) :
  match x with
  | ExnError e =>
      Some (finally (bridged R (λ P, Error_ThrowAsJavaScriptException P e);; ret nullptr)
              (caught R x))
  | _ => None
  end = Some k ->
  ∀ h s, allocations (emitted (k h s)) = [] ∧ frees (emitted (k h s)) = [].
Proof.
  destruct x as [e| |]; [|done..]. intros [= <-] h s. apply (rethrow_blocks (ExnError e)).
Qed.

(** A [try] block whose handlers neither allocate nor free. *)
Lemma try_catch_blocks {S A} (m : M AbiEv S A) (handler : exn -> option (M AbiEv S A)) h s :
  (∀ x k, handler x = Some k ->
          ∀ h' s', allocations (emitted (k h' s')) = [] ∧ frees (emitted (k h' s')) = []) ->
  allocations (emitted (try_catch m handler h s)) = allocations (emitted (m h s))
  ∧ frees (emitted (try_catch m handler h s)) = frees (emitted (m h s))
  ∧ (res (try_catch m handler h s) ≠ Abort -> res (m h s) ≠ Abort).
Proof.
  intros Hk. unfold try_catch.
  destruct (m h s) as [[a|x|] s1 l1]; [done| |done].
  destruct (handler x) as [k|] eqn:Hh; [|done].
  destruct (Hk x k Hh (rev l1 ++ h) s1) as [Hal Hfr].
  rewrite emitted_prepend, allocations_app, frees_app, Hal, Hfr, !app_nil_r. done.
Qed.

(** The [try] block of the entry point. *)
Lemma try_block_blocks {S}
    (callbackData : ptr -> (CallbackInfo.t -> M AbiEv S napi_value) * ptr)
    env info h (s : S) :
  let q := napi_get_cb_info env info _staticArgCount true in
  let r := value_host R h q in
  let argc := size_t R (vsize r) in
  let p := Npos (operator_new R (ValueEv q r :: h)) in
  let r' := value_host R (NewEv p :: ValueEv q r :: h) (napi_get_cb_info env info argc false) in
  let o := (callbackInfo ← CallbackInfo_ctor R _staticArgCount env info;
            let callbackData := callbackData (CallbackInfo_Data callbackInfo) in
            let callbackInfo := CallbackInfo_SetData callbackData.2 callbackInfo in
            finally (callbackData.1 callbackInfo)
              (on_temp callbackInfo (CallbackInfo_dtor))) h s in
  (∀ d i h' s', allocations (emitted ((callbackData d).1 i h' s')) = []
                ∧ frees (emitted ((callbackData d).1 i h' s')) = []) ->
  allocations (emitted o)
  = (if status_ok (vstatus r) && (_staticArgCount <? argc) then [p] else [])
  ∧ (res o ≠ Abort ->
     frees (emitted o)
     = if status_ok (vstatus r) && (_staticArgCount <? argc) && status_ok (vstatus r')
       then [p] else []).
Proof.
  intros q r argc p r' o Hcb. unfold o. clear o.
  rewrite bind_run, CallbackInfo_ctor_run. fold q r argc p r'.
  destruct (status_ok (vstatus r)) eqn:Ha; cbn [negb andb]; cbv iota.
  2:{ destruct (throw_Error_run R (A := CallbackInfo.t) env (ValueEv q r :: h) s)
        as (r0 & l & -> & Hr).
      unfold prepend. destruct r0 as [a|x|]; [done|..]; cbv beta iota; unfold emitted;
        change (ValueEv q r :: (BridgeEv <$> l)) with ([ValueEv q r] ++ (BridgeEv <$> l));
        by rewrite allocations_app, frees_app, allocations_bridged, frees_bridged. }
  destruct (_staticArgCount <? argc) eqn:Hbig; cbn [andb]; cbv iota.
  - destruct (status_ok (vstatus r')) eqn:Ha'; cbn [negb]; cbv iota.
    + cbv zeta. unfold finally.
      match goal with
      | |- context [(callbackData ?d).1 ?i ?hh ?ss] =>
          destruct (Hcb d i hh ss) as [Hal Hfr];
          destruct ((callbackData d).1 i hh ss) as [[a|x|] s1 l1]
      end; unfold emitted in Hal, Hfr; rewrite ?CallbackInfo_dtor_run; cbv beta iota;
        rewrite emitted_prepend, res_prepend; cbn [emitted res];
        rewrite ?allocations_app, ?frees_app, Hal, ?Hfr; simpl; split; done.
    + destruct (throw_Error_run R (A := CallbackInfo.t) env
                  (ValueEv (napi_get_cb_info env info argc false) r' :: NewEv p
                     :: ValueEv q r :: h) s) as (r0 & l & -> & Hr).
      unfold prepend. destruct r0 as [a|x|]; [done|..]; cbv beta iota; unfold emitted;
        rewrite allocations_app, frees_app, allocations_bridged, frees_bridged; done.
  - cbv zeta. unfold finally.
    match goal with
    | |- context [(callbackData ?d).1 ?i ?hh ?ss] =>
        destruct (Hcb d i hh ss) as [Hal Hfr];
        destruct ((callbackData d).1 i hh ss) as [[a|x|] s1 l1]
      end; unfold emitted in Hal, Hfr; rewrite ?CallbackInfo_dtor_run; cbv beta iota;
        rewrite emitted_prepend, res_prepend; cbn [emitted res];
        rewrite ?allocations_app, ?frees_app, Hal, ?Hfr; simpl; split; done.
Qed.
End CallbackBlocks.

(** X24.  The entry point of a callback allocates an array for the
    arguments exactly when the host accepts the first query and reports
    more arguments than the object has room for.  Unless the process is
    aborted, the array is freed exactly when the host accepts the second
    query as well: then it is freed whether the callback returns, throws
    an error or throws anything else; an array whose second query is
    rejected is never freed. *)
Theorem callback_arguments_are_freed_on_every_path (R : Runtime) (_staticArgCount : N) {S}
    (callbackData : ptr -> (CallbackInfo.t -> M AbiEv S napi_value) * ptr)
    (env : napi_env) (info : ptr) (h : list AbiEv) (s : S) :
  let q := napi_get_cb_info env info _staticArgCount true in
  let r := value_host R h q in
  let argc := size_t R (vsize r) in
  let p := Npos (operator_new R (ValueEv q r :: h)) in
  let r' := value_host R (NewEv p :: ValueEv q r :: h) (napi_get_cb_info env info argc false) in
  let o := CallbackData_Wrapper R _staticArgCount callbackData env info h s in
  (∀ d i h' s', allocations (emitted ((callbackData d).1 i h' s')) = []
                ∧ frees (emitted ((callbackData d).1 i h' s')) = []) ->
  allocations (emitted o)
  = (if status_ok (vstatus r) && (_staticArgCount <? argc) then [p] else [])
  ∧ (res o ≠ Abort ->
     frees (emitted o)
     = if status_ok (vstatus r) && (_staticArgCount <? argc) && status_ok (vstatus r')
       then [p] else []).
Proof.
  intros q r argc p r' o Hcb.
  destruct (try_block_blocks R _staticArgCount callbackData env info h s Hcb) as [Hal Hfr].
  fold q r argc p r' in Hal, Hfr.
  unfold o, CallbackData_Wrapper.
  match goal with
  | |- context [try_catch ?m ?k h s] =>
      pose proof (try_catch_blocks m k h s (handler_blocks R)) as (Hal' & Hfr' & Hab)
  end.
  rewrite Hal', Hfr'. split; [exact Hal|]. intros Hr. apply Hfr. auto.
Qed.

Lemma callback_arguments_are_freed_on_every_path_witness :
  let o := CallbackData_Wrapper willing_runtime 6 (λ _, (λ _, throw ExnOther, 77)) 1 9 [] tt in
  res o = Throw ExnOther
  ∧ allocations (emitted o) = [501]
  ∧ frees (emitted o) = [501].
Proof.
  intros o.
  destruct (callback_arguments_are_freed_on_every_path willing_runtime 6
              (λ _, (λ _, throw ExnOther, 77)) 1 9 [] tt) as [Hal Hfr]; [done|].
  split; [reflexivity|]. split; [exact Hal|]. apply Hfr. done.
Defined.

(** ** Module registration *)

(** X25.  [RegisterModule] passes on whatever the registration function
    does, except an [Error] it throws: when the host accepts the calls
    of the handler, an [Error] that holds a value is handed to the
    script engine by [napi_throw], an [Error] that holds none is
    dropped, and in both cases [RegisterModule] returns. *)
Theorem RegisterModule_hands_errors_to_the_script (R : Runtime) {S}
    (registerCallback : M AbiEv S unit) (h : list AbiEv) (s : S) :
  let try_o := registerCallback h s in
  let o := RegisterModule R registerCallback h s in
  ((∀ e, res try_o ≠ Throw (ExnError e)) -> o = try_o)
  ∧ ∀ e,
      let env := Reference._env (Error.base e) in
      let ref := Reference._ref (Error.base e) in
      let P := platform_at R (rev (emitted try_o) ++ h) in
      let rethrow := Error_ThrowAsJavaScriptException P e [] (st try_o) in
      let value_ev := ev P [ev P [] (napi_open_handle_scope env)]
                        (napi_get_reference_value env ref) in
      res try_o = Throw (ExnError e) ->
      Forall accepted (emitted rethrow) ->
      res o = Ok tt
      ∧ st o = st try_o
      ∧ (∃ released, emitted o
                     = emitted try_o ++ (BridgeEv <$> emitted rethrow)
                       ++ (BridgeEv <$> released))
      ∧ script_exceptions (emitted rethrow)
        = (if is_null ref then [] else [(env, out (ev_reply value_ev))]).
Proof.
  intros try_o o. split.
  - intros Hne. unfold o, RegisterModule, try_catch. fold try_o.
    destruct try_o as [[[]|x|] s1 l1]; [done| |done].
    destruct x as [e| |]; [|done..]. by destruct (Hne e).
  - intros e env ref P rethrow value_ev Hthrow Hall.
    pose proof (ThrowAsJavaScriptException_run P e [] (st try_o) Hall) as Hrun.
    fold env ref rethrow in Hrun.
    assert (Ho : ∃ released, o = mkOut (Ok tt) (st try_o)
                   (emitted try_o ++ (BridgeEv <$> emitted rethrow)
                    ++ (BridgeEv <$> released))).
    { unfold o, RegisterModule, try_catch. subst rethrow P. fold try_o.
      destruct try_o as [r1 s1 l1]. simpl in Hthrow, Hrun, Hall |- *. subst r1.
      unfold finally. rewrite bridged_run.
      destruct (Error_ThrowAsJavaScriptException _ e [] s1) as [r2 s2 l2].
      injection Hrun as -> -> _. cbv beta iota.
      match goal with
      | |- context [caught R ?x ?hh ?ss] => destruct (caught_run R x hh ss) as [l ->]
      end.
      exists l. reflexivity. }
    destruct Ho as [released ->]. simpl.
    split; [done|]. split; [done|]. split; [by exists released|].
    rewrite Hrun. destruct (is_null ref); reflexivity.
Qed.

Lemma RegisterModule_hands_errors_to_the_script_witness :
  let e := Error.mk (Reference.mk 1 5 false) "" in
  let o := RegisterModule willing_runtime (throw (ExnError e)) [] tt in
  res o = Ok tt
  ∧ script_exceptions (bridge_events (emitted o)) = [(1, 101)].
Proof.
  intros e o.
  destruct (proj2 (RegisterModule_hands_errors_to_the_script willing_runtime
                     (throw (ExnError e)) [] tt) e) as (Hr & _ & _ & _);
    [reflexivity|by repeat constructor|].
  split; [exact Hr|reflexivity].
Defined.

(** X26.  The arguments of a callback are read from the array the host
    filled last.  When the host accepts the queries, reports the same
    count in both, and writes as many values as the array holds or the
    call has, every index below [Length()] yields the value the host
    wrote at that index, whether the arguments fit into the object or
    were moved to the heap; an index from [Length()] on yields what
    [Env::Undefined] yields. *)
Theorem CallbackInfo_indexes_what_the_host_wrote (R : Runtime) (_staticArgCount : N) {S}
    (env : napi_env) (info : ptr) (h h' : list AbiEv) (s s' : S) :
  let q := napi_get_cb_info env info _staticArgCount true in
  let r := value_host R h q in
  let argc := size_t R (vsize r) in
  let p := Npos (operator_new R (ValueEv q r :: h)) in
  let r' := value_host R (NewEv p :: ValueEv q r :: h) (napi_get_cb_info env info argc false) in
  let written := if _staticArgCount <? argc then vargs r' else vargs r in
  vstatus r = napi_ok ->
  (_staticArgCount < argc -> vstatus r' = napi_ok ∧ size_t R (vsize r') = argc) ->
  (argc <= N.of_nat (length written)) ->
  ∃ this, res (CallbackInfo_ctor R _staticArgCount env info h s) = Ok this
          ∧ CallbackInfo_Length this = argc
          ∧ ∀ index,
              if index <? argc
              then ∃ v, written !! N.to_nat index = Some v
                        ∧ CallbackInfo_index R this index h' s'
                          = mkOut (Ok (Value.mk env v)) s' []
              else CallbackInfo_index R this index h' s' = Env_Undefined R env h' s'.
Proof.
  intros q r argc p r' written Ha Hbig Hlen.
  rewrite CallbackInfo_ctor_run. fold q r argc p r'. rewrite Ha.
  change (negb (status_ok napi_ok)) with false. cbv iota.
  unfold written in *. clear written.
  destruct (_staticArgCount <? argc) eqn:Hc.
  - apply N.ltb_lt in Hc. destruct (Hbig Hc) as [Ha' Hsame]. rewrite Ha'.
    change (negb (status_ok napi_ok)) with false. cbv iota.
    eexists. split; [reflexivity|]. split; [exact Hsame|].
    intros index. unfold CallbackInfo_index. cbn [CallbackInfo._argc]. rewrite Hsame.
    destruct (index <? argc) eqn:Hi; [|done]. apply N.ltb_lt in Hi.
    destruct (lookup_lt_is_Some_2 (vargs r') (N.to_nat index)) as [v Hv]; [lia|].
    exists v. split; [done|].
    unfold argv_at. rewrite bind_run. cbn [CallbackInfo._argv CallbackInfo.dynamic_args].
    rewrite lookup_take_lt by lia. rewrite Hv. reflexivity.
  - apply N.ltb_ge in Hc.
    eexists. split; [reflexivity|]. split; [reflexivity|].
    intros index. unfold CallbackInfo_index. cbn [CallbackInfo._argc].
    destruct (index <? argc) eqn:Hi; [|done]. apply N.ltb_lt in Hi.
    destruct (lookup_lt_is_Some_2 (vargs r) (N.to_nat index)) as [v Hv]; [lia|].
    exists v. split; [done|].
    unfold argv_at. rewrite bind_run. cbn [CallbackInfo._argv CallbackInfo.static_args].
    rewrite lookup_take_lt by lia. rewrite Hv. reflexivity.
Qed.

Lemma CallbackInfo_indexes_what_the_host_wrote_witness :
  ∃ this, res (CallbackInfo_ctor willing_runtime 6 1 9 [] tt) = Ok this
          ∧ CallbackInfo_Length this = 8
          ∧ CallbackInfo_index willing_runtime this 7 [] tt = mkOut (Ok (Value.mk 1 18)) tt [].
Proof.
  destruct (CallbackInfo_indexes_what_the_host_wrote willing_runtime 6 1 9 [] [] tt tt)
    as (this & Hr & Hl & Hi); [reflexivity|done|by vm_compute|].
  exists this. split; [exact Hr|]. split; [exact Hl|].
  destruct (Hi 7) as (v & Hv & ->). vm_compute in Hv. by injection Hv as <-.
Defined.
